(** * ReponoDB: the versioning core of [repono.cpp]

    A shallow embedding of the value model, the schema model and the
    commit store of ReponoDB (namespace [repono], in the latest version
    of the source, the one with the tokenizer), together with the
    properties its specification states about them; then the tokenizer,
    with properties read off the code. Of the first version of the
    value model, at the head of [src/repono.cpp], the comparison of
    values is embedded too, where it differs.

    Conventions of the embedding:
    - [std::string] is [string] (a sequence of 8-bit characters);
    - [int64_t] is [Z], with the range [int64_range] as a side condition
      where a property depends on it;
    - [double] is an IEEE 754 binary64 datum: a number as in
      [spec_float] ([prec = 53], [emax = 1024]), or a NaN with its sign,
      which the program prints; the payload of a NaN is not represented;
    - [std::vector<T>] is [list T]; [size_t] is [nat];
    - a [std::unordered_map] that is only searched and assigned is a
      [gmap]; one that is iterated is the list of its entries in iteration
      order, which the C++ standard leaves unspecified;
    - a call that can throw returns an [option], [None] being the
      exception. *)

From Stdlib Require Import ZArith String Ascii List Bool Lia.
From Stdlib Require Import Floats.SpecFloat.
From stdpp Require Import gmap strings list sorting pretty.

Local Open Scope Z_scope.

(** ** SHA-256 (OpenSSL's [SHA256]), after FIPS 180-4 *)

Module SHA256.

Definition word := Z.

Definition wrap (x : Z) : word := x mod 2 ^ 32.
Definition add32 (x y : word) : word := wrap (x + y).
Definition not32 (x : word) : word := Z.lxor x 0xFFFFFFFF.
Definition rotr (n : Z) (x : word) : word :=
  Z.lor (Z.shiftr x n) (wrap (Z.shiftl x (32 - n))).

Definition Ch (x y z : word) : word :=
  Z.lxor (Z.land x y) (Z.land (not32 x) z).
Definition Maj (x y z : word) : word :=
  Z.lxor (Z.lxor (Z.land x y) (Z.land x z)) (Z.land y z).
Definition Sigma0 (x : word) : word :=
  Z.lxor (Z.lxor (rotr 2 x) (rotr 13 x)) (rotr 22 x).
Definition Sigma1 (x : word) : word :=
  Z.lxor (Z.lxor (rotr 6 x) (rotr 11 x)) (rotr 25 x).
Definition sigma0 (x : word) : word :=
  Z.lxor (Z.lxor (rotr 7 x) (rotr 18 x)) (Z.shiftr x 3).
Definition sigma1 (x : word) : word :=
  Z.lxor (Z.lxor (rotr 17 x) (rotr 19 x)) (Z.shiftr x 10).

(** Primality, by trial division. *)
Definition is_prime (p : Z) : bool :=
  forallb (fun d => negb (p mod d =? 0)) (map Z.of_nat (seq 2 (Z.to_nat p - 2))).

(** The first 64 prime numbers. *)
Definition primes : list Z :=
  Eval vm_compute in firstn 64 (filter (fun p => is_prime p = true) (map Z.of_nat (seq 2 400))).

(** The integer cube root, one bit at a time from bit 35 down. *)
Definition cube_root (n : Z) : Z :=
  fold_left (fun r i => let r' := r + 2 ^ Z.of_nat i in
                        if r' * r' * r' <=? n then r' else r)
            (List.rev (seq 0 36)) 0.

(** The constants: the first 32 bits of the fractional parts of the cube
    roots of the first 64 primes. *)
Definition K : list word :=
  Eval vm_compute in map (fun p => wrap (cube_root (p * 2 ^ 96))) primes.

(** The initial hash value: the first 32 bits of the fractional parts of
    the square roots of the first 8 primes. *)
Definition H0 : list word :=
  Eval vm_compute in map (fun p => wrap (Z.sqrt (p * 2 ^ 64))) (firstn 8 primes).

(** Big-endian bytes of the [n] low-order bytes of [x]. *)
Fixpoint be_bytes (n : nat) (x : Z) : list Z :=
  match n with
  | O => []
  | S n' => Z.shiftr x (8 * Z.of_nat n') mod 256 :: be_bytes n' x
  end.

(** Padding: a 1 bit, zeros up to 56 modulo 64 bytes, then the length
    of the message in bits on 64 bits. *)
Definition pad (msg : list Z) : list Z :=
  let len := Z.of_nat (length msg) in
  let zeros := Z.to_nat ((55 - len) mod 64) in
  msg ++ 0x80 :: repeat 0 zeros ++ be_bytes 8 (8 * len).

Fixpoint be_words (fuel : nat) (bytes : list Z) : list word :=
  match fuel, bytes with
  | S fuel', b0 :: b1 :: b2 :: b3 :: rest =>
      (((b0 * 256 + b1) * 256 + b2) * 256 + b3) :: be_words fuel' rest
  | _, _ => []
  end.

Definition words_of (bytes : list Z) : list word :=
  be_words (length bytes) bytes.

(** The message schedule, most recent word first: [rev_w] holds
    W(t-1), W(t-2), ... *)
Fixpoint schedule (n : nat) (rev_w : list word) : list word :=
  match n with
  | O => rev_w
  | S n' =>
      let w := add32 (add32 (sigma1 (nth 1 rev_w 0)) (nth 6 rev_w 0))
                     (add32 (sigma0 (nth 14 rev_w 0)) (nth 15 rev_w 0)) in
      schedule n' (w :: rev_w)
  end.

Record regs := Regs { ra : word; rb : word; rc : word; rd : word;
                      re : word; rf : word; rg : word; rh : word }.

Definition round (s : regs) (kw : word * word) : regs :=
  let '(k, w) := kw in
  let t1 := add32 (add32 (add32 (add32 (rh s) (Sigma1 (re s)))
                                (Ch (re s) (rf s) (rg s))) k) w in
  let t2 := add32 (Sigma0 (ra s)) (Maj (ra s) (rb s) (rc s)) in
  Regs (add32 t1 t2) (ra s) (rb s) (rc s) (add32 (rd s) t1) (re s) (rf s) (rg s).

Definition regs_of (h : list word) : regs :=
  Regs (nth 0 h 0) (nth 1 h 0) (nth 2 h 0) (nth 3 h 0)
       (nth 4 h 0) (nth 5 h 0) (nth 6 h 0) (nth 7 h 0).

Definition compress (h : list word) (block : list word) : list word :=
  let w := List.rev (schedule 48 (List.rev block)) in
  let s := fold_left round (combine K w) (regs_of h) in
  [ add32 (nth 0 h 0) (ra s); add32 (nth 1 h 0) (rb s);
    add32 (nth 2 h 0) (rc s); add32 (nth 3 h 0) (rd s);
    add32 (nth 4 h 0) (re s); add32 (nth 5 h 0) (rf s);
    add32 (nth 6 h 0) (rg s); add32 (nth 7 h 0) (rh s) ].

Fixpoint blocks (fuel : nat) (h : list word) (ws : list word) : list word :=
  match fuel, ws with
  | S fuel', _ :: _ => blocks fuel' (compress h (firstn 16 ws)) (skipn 16 ws)
  | _, _ => h
  end.

(** The 32 bytes of the digest. *)
Definition digest (msg : list Z) : list Z :=
  let ws := words_of (pad msg) in
  flat_map (be_bytes 4) (blocks (length ws) H0 ws).

End SHA256.

(** ** Strings as byte sequences, hexadecimal output *)

Definition byte_of_ascii (c : ascii) : Z := Z.of_N (N_of_ascii c).

Fixpoint bytes_of_string (s : string) : list Z :=
  match s with
  | EmptyString => []
  | String c rest => byte_of_ascii c :: bytes_of_string rest
  end.

Definition hex_digit (d : Z) : ascii :=
  if d <? 10 then ascii_of_N (Z.to_N (48 + d)) else ascii_of_N (Z.to_N (87 + d)).

(** [oss << std::hex << std::setfill('0') << std::setw(2) << int(hash[i])] *)
Definition hex_byte (b : Z) : string :=
  String (hex_digit (b / 16)) (String (hex_digit (b mod 16)) EmptyString).

Fixpoint hex_bytes (bs : list Z) : string :=
  match bs with
  | [] => ""
  | b :: rest => hex_byte b +:+ hex_bytes rest
  end.

(** [compute_hash]: the SHA-256 digest of [data] as 64 lowercase
    hexadecimal characters. *)
Definition compute_hash (data : string) : string :=
  hex_bytes (SHA256.digest (bytes_of_string data)).

(** ** Values *)

(** A [double]: a signed zero, a signed infinity, a NaN with its sign
    bit, or [(-1)^s * m * 2^e]. The payload of a NaN, which nothing in
    the program reads, is left out. *)
Inductive double :=
| D_zero (s : bool)
| D_infinity (s : bool)
| D_nan (s : bool)
| D_finite (s : bool) (m : positive) (e : Z).

(** The datum of [SpecFloat] that compares as [d] does; there a NaN has
    no sign. *)
Definition number (d : double) : spec_float :=
  match d with
  | D_zero s => S754_zero s
  | D_infinity s => S754_infinity s
  | D_nan _ => S754_nan
  | D_finite s m e => S754_finite s m e
  end.

(** The [double] of a result of [SpecFloat]. The one operation of the
    program that computes a [double], the conversion of an integer,
    yields no NaN. *)
Definition double_of (x : spec_float) : double :=
  match x with
  | S754_zero s => D_zero s
  | S754_infinity s => D_infinity s
  | S754_nan => D_nan false
  | S754_finite s m e => D_finite s m e
  end.

(** [using Value = std::variant<std::monostate, int64_t, double,
    std::string, bool>]: the constructors are in the order of the
    alternatives, so that [index] is the position in the variant. *)
Inductive Value :=
| VNull
| VInt (n : Z)
| VFloat (d : double)
| VText (s : string)
| VBool (b : bool).

(** [using Row = std::vector<Value>] *)
Abbreviation Row := (list Value).



(** [v.index()] *)
Definition index (v : Value) : nat :=
  match v with
  | VNull => 0 | VInt _ => 1 | VFloat _ => 2 | VText _ => 3 | VBool _ => 4
  end.

(** [std::holds_alternative<T>(v)], one function per alternative [T]. *)
Definition holds_monostate (v : Value) : bool :=
  match v with VNull => true | _ => false end.
Definition holds_int64 (v : Value) : bool :=
  match v with VInt _ => true | _ => false end.
Definition holds_double (v : Value) : bool :=
  match v with VFloat _ => true | _ => false end.
Definition holds_string (v : Value) : bool :=
  match v with VText _ => true | _ => false end.
Definition holds_bool (v : Value) : bool :=
  match v with VBool _ => true | _ => false end.

(** [holds_alternative<T>(v)] followed by [std::get<T>(v)]: the payload
    when [v] holds a [T]. *)
Definition get_monostate (v : Value) : option unit :=
  match v with VNull => Some tt | _ => None end.
Definition get_int64 (v : Value) : option Z :=
  match v with VInt n => Some n | _ => None end.
Definition get_double (v : Value) : option double :=
  match v with VFloat d => Some d | _ => None end.
Definition get_string (v : Value) : option string :=
  match v with VText s => Some s | _ => None end.
Definition get_bool (v : Value) : option bool :=
  match v with VBool b => Some b | _ => None end.

(** *** Text of numbers *)

(** [std::to_string] of an integer, and [oss << n]: decimal digits, with
    a minus sign for a negative number. *)
Definition to_string (n : Z) : string := pretty n.

(** Rounding of the rational [num / den] ([0 < den]) to the nearest
    integer, a tie going to the even one. *)
Definition round_half_even (num den : Z) : Z :=
  let q := num / den in
  let r := num mod den in
  match 2 * r ?= den with
  | Lt => q
  | Gt => q + 1
  | Eq => if Z.even q then q else q + 1
  end.

Definition two_digits (n : Z) : string :=
  to_string (n / 10) +:+ to_string (n mod 10).

Definition sign_text (s : bool) : string := if s then "-" else "".

(** [oss << std::fixed << std::setprecision(2) << d]: the exact value of
    [d] rounded to two decimals; [inf] and [nan] for an infinity and a
    NaN, as the C library (glibc) prints them, after the minus sign when
    the sign bit is set. *)
Definition fixed2 (d : double) : string :=
  match d with
  | D_nan s => sign_text s +:+ "nan"
  | D_infinity s => sign_text s +:+ "inf"
  | D_zero s => sign_text s +:+ "0.00"
  | D_finite s m e =>
      let hundredths :=
        if 0 <=? e then 100 * Z.pos m * 2 ^ e
        else round_half_even (100 * Z.pos m) (2 ^ (- e)) in
      sign_text s +:+ to_string (hundredths / 100) +:+ "."
        +:+ two_digits (hundredths mod 100)
  end.

(** *** [value_to_string]

    The chain of [holds_alternative] tests of the source, with the text
    of its last [return] as a parameter. *)
Definition value_to_string_with (fallback : string) (v : Value) : string :=
  match get_monostate v with
  | Some _ => "NULL"
  | None =>
  match get_int64 v with
  | Some n => to_string n
  | None =>
  match get_double v with
  | Some d => fixed2 d
  | None =>
  match get_string v with
  | Some s => s
  | None =>
  match get_bool v with
  | Some b => if b then "true" else "false"
  | None => fallback
  end end end end end.

Definition value_to_string : Value -> string := value_to_string_with "???".

(** *** [values_equal] *)

(** [==] of two [double]s. *)
Definition double_eq (x y : double) : bool := SFeqb (number x) (number y).
(** [<] of two [double]s. *)
Definition double_lt (x y : double) : bool := SFltb (number x) (number y).
(** [static_cast<double>(n)]: rounding to nearest, ties to even. *)
Definition double_of_int64 (n : Z) : double :=
  double_of (binary_normalize 53 1024 n 0 false).

(** [a == b] of [std::variant]: the same alternative, and equal payloads. *)
Definition variant_eq (a b : Value) : bool :=
  match a, b with
  | VNull, VNull => true
  | VInt x, VInt y => x =? y
  | VFloat x, VFloat y => double_eq x y
  | VText x, VText y => String.eqb x y
  | VBool x, VBool y => Bool.eqb x y
  | _, _ => false
  end.

Definition values_equal (a b : Value) : bool :=
  if holds_monostate a || holds_monostate b then false
  else if negb (index a =? index b)%nat then false
  else variant_eq a b.

(** *** [value_less_than] *)

(** [<] of two [std::string]s: lexicographic on the bytes. *)
Definition string_lt (s t : string) : bool := String.ltb s t.

(** The operand of the mixed comparison: an [int64_t] is converted, a
    [double] is taken as it is; nothing for the other alternatives. *)
Definition widened (v : Value) : option double :=
  match get_int64 v with
  | Some x => Some (double_of_int64 x)
  | None => get_double v
  end.

Definition value_less_than (a b : Value) : bool :=
  if holds_monostate a then false
  else if holds_monostate b then true
  else
    match get_int64 a, get_int64 b with
    | Some x, Some y => x <? y
    | _, _ =>
    match get_double a, get_double b with
    | Some x, Some y => double_lt x y
    | _, _ =>
    match widened a, widened b with
    | Some da, Some db => double_lt da db
    | _, _ =>
    match get_string a, get_string b with
    | Some s, Some t => string_lt s t
    | _, _ =>
    match get_bool a, get_bool b with
    | Some x, Some y => negb x && y
    | _, _ => (index a <? index b)%nat
    end end end end end.

Definition is_null (v : Value) : bool := holds_monostate v.

(** *** [value_less_than], in its first version

    [src/repono.cpp] begins with a first version of the value model,
    whose [value_less_than] (lines 106 to 147) differs from the later
    ones in two lines. Its second test asks twice whether [a] holds a
    [double] and never whether [b] does, and the conversion of [a] reads
    an [int64_t] on both branches. [std::get<T>(v)] throws
    [std::bad_variant_access] when [v] does not hold a [T]: the
    functions [get_...] are [None] there, and so is the comparison. *)
Module Earlier.

Definition value_less_than (a b : Value) : option bool :=
  if holds_monostate a then Some false
  else if holds_monostate b then Some true
  else if holds_int64 a && holds_int64 b then
    x ← get_int64 a; y ← get_int64 b; Some (x <? y)
  else if holds_double a && holds_double a then
    x ← get_double a; y ← get_double b; Some (double_lt x y)
  else if (holds_int64 a || holds_double a) && (holds_int64 b || holds_double b) then
    da ← (if holds_int64 a then double_of_int64 <$> get_int64 a
          else double_of_int64 <$> get_int64 a);
    db ← (if holds_int64 b then double_of_int64 <$> get_int64 b
          else get_double b);
    Some (double_lt da db)
  else if holds_string a && holds_string b then
    s ← get_string a; t ← get_string b; Some (string_lt s t)
  else if holds_bool a && holds_bool b then
    x ← get_bool a; y ← get_bool b; Some (negb x && y)
  else Some (index a <? index b)%nat.

End Earlier.

(** ** Schemas *)

Inductive DataType := INTEGER | FLOAT | VARCHAR | BOOLEAN | TIMESTAMP.

Definition datatype_to_string (type : DataType) : string :=
  match type with
  | INTEGER => "INTEGER"
  | FLOAT => "FLOAT"
  | VARCHAR => "VARCHAR"
  | BOOLEAN => "BOOLEAN"
  | TIMESTAMP => "TIMESTAMP"
  end.

Record ColumnDef := {
  name : string;
  type : DataType;
  is_primary_key : bool;
  is_nullable : bool
}.

(** [ColumnDef::validate]: the empty string when [v] fits the column,
    an error message otherwise. *)
Definition validate (c : ColumnDef) (v : Value) : string :=
  if is_null v then
    if negb (is_nullable c) then "Column '" +:+ name c +:+ "' cannot be NULL"
    else ""
  else
    let type_ok :=
      match type c with
      | INTEGER => holds_int64 v
      | FLOAT => holds_double v || holds_int64 v
      | VARCHAR => holds_string v
      | BOOLEAN => holds_bool v
      | TIMESTAMP => holds_int64 v
      end in
    if negb type_ok then
      "Column '" +:+ name c +:+ "' expects " +:+ datatype_to_string (type c)
        +:+ ", got wrong type"
    else "".

(** [class Schema]: the ordered columns and the index of each name. *)
Record Schema := {
  columns_ : list ColumnDef;
  column_indices_ : gmap string nat
}.

(** [Schema()] *)
Definition empty_schema : Schema :=
  {| columns_ := []; column_indices_ := ∅ |}.

(** [Schema::add_column] returns nothing: the result is the schema after
    the call. *)
Definition add_column (s : Schema) (column : ColumnDef) : Schema :=
  {| columns_ := columns_ s ++ [column];
     column_indices_ := <[name column := length (columns_ s)]> (column_indices_ s) |}.

Definition num_columns (s : Schema) : nat := length (columns_ s).

Definition get_column_index (s : Schema) (n : string) : option nat :=
  column_indices_ s !! n.

Definition get_column (s : Schema) (n : string) : option ColumnDef :=
  match get_column_index s n with
  | Some idx => columns_ s !! idx
  | None => None
  end.

Definition has_column (s : Schema) (n : string) : bool :=
  bool_decide (is_Some (column_indices_ s !! n)).

Definition is_empty (s : string) : bool := String.eqb s "".

(** The loop of [validate_row], from index [i], with [n] cells left.
    Both lists are as long as [i + n], so the two lookups succeed. *)
Fixpoint validate_cells (columns : list ColumnDef) (row : Row) (i n : nat) : string :=
  match n with
  | O => ""
  | S n' =>
      match columns !! i, row !! i with
      | Some c, Some v =>
          let error := validate c v in
          if negb (is_empty error) then error
          else validate_cells columns row (S i) n'
      | _, _ => ""
      end
  end.

Definition validate_row (s : Schema) (row : Row) : string :=
  if negb (length row =? length (columns_ s))%nat then
    "Expected " +:+ to_string (Z.of_nat (length (columns_ s)))
      +:+ " columns, got " +:+ to_string (Z.of_nat (length row))
  else validate_cells (columns_ s) row 0 (length row).

(** ** Commits *)

(** A [std::unordered_map<std::string, V>] that the program iterates:
    its entries in iteration order. The keys of a map are distinct
    ([um_wf]); the order is whatever the hash table makes of it. *)
Section UnorderedMap.
Context {V : Type}.

Definition um_keys (m : list (string * V)) : list string := m.*1.

Definition um_wf (m : list (string * V)) : Prop := NoDup (um_keys m).

(** [m.at(k)]; [None] stands for [std::out_of_range]. *)
Fixpoint um_at (m : list (string * V)) (k : string) : option V :=
  match m with
  | [] => None
  | (k', v) :: rest => if String.eqb k' k then Some v else um_at rest k
  end.

(** [m[k] = v] *)
Fixpoint um_assign (m : list (string * V)) (k : string) (v : V) : list (string * V) :=
  match m with
  | [] => [(k, v)]
  | (k', v') :: rest =>
      if String.eqb k' k then (k', v) :: rest else (k', v') :: um_assign rest k v
  end.
End UnorderedMap.

Record Commit := {
  hash : string;
  parent_hash : string;
  message : string;
  timestamp : Z;
  table_data : list (string * list Row);
  table_schemas : list (string * Schema)
}.

Definition is_root (c : Commit) : bool := is_empty (parent_hash c).

(** The line feed, ["\n"] in the source. *)
Definition nl : string := String "010"%char EmptyString.

(** The cells of a row on the stream [oss], from index [i] on. *)
Fixpoint write_cells (oss : string) (cells : list Value) (i : nat) : string :=
  match cells with
  | [] => oss
  | v :: rest =>
      let oss := if (0 <? i)%nat then oss +:+ "," else oss in
      write_cells (oss +:+ value_to_string v) rest (S i)
  end.

Definition write_row (oss : string) (row : Row) : string :=
  write_cells (oss +:+ "row:") row 0 +:+ nl.

(** One turn of the loop over the sorted table names. *)
Definition write_table (data : list (string * list Row))
    (oss : option string) (n : string) : option string :=
  oss ← oss;
  rows ← um_at data n;
  Some (fold_left write_row rows (oss +:+ "table:" +:+ n +:+ nl)).

(** [std::sort] of the table names, by [<] of [std::string]. *)
Definition sort_names (names : list string) : list string :=
  merge_sort String.le names.

Definition compute_commit_hash (commit : Commit) : option string :=
  let oss := "parent:" +:+ parent_hash commit +:+ nl in
  let oss := oss +:+ "message:" +:+ message commit +:+ nl in
  let oss := oss +:+ "timestamp:" +:+ to_string (timestamp commit) +:+ nl in
  let table_names := um_keys (table_data commit) in
  let table_names := sort_names table_names in
  oss ← fold_left (write_table (table_data commit)) table_names (Some oss);
  Some (compute_hash oss).

Definition validate_commit (commit : Commit) : option bool :=
  computed ← compute_commit_hash commit;
  Some (String.eqb computed (hash commit)).

(** Modelled from the spec: [create_commit] is not in the sources, which
    build their commits field by field in [main]. As the spec has it, it
    "builds the Commit, computes and assigns hash last". *)
Definition create_commit (parent msg : string) (time : Z)
    (data : list (string * list Row)) (schemas : list (string * Schema))
    : option Commit :=
  let c := {| hash := ""; parent_hash := parent; message := msg; timestamp := time;
              table_data := data; table_schemas := schemas |} in
  h ← compute_commit_hash c;
  Some {| hash := h; parent_hash := parent; message := msg; timestamp := time;
          table_data := data; table_schemas := schemas |}.

(** *** The canonical serialization, in the words of the specification *)

Fixpoint insert_ascending (n : string) (names : list string) : list string :=
  match names with
  | [] => [n]
  | m :: rest => if String.leb n m then n :: names else m :: insert_ascending n rest
  end.

(** The names in ascending lexicographic order. *)
Definition ascending (names : list string) : list string :=
  foldr insert_ascending [] names.

(** [row:<v0>,<v1>,...] and a line feed. *)
Definition row_line (row : Row) : string :=
  "row:" +:+ String.concat "," (value_to_string <$> row) +:+ nl.

Definition table_lines (data : list (string * list Row)) (n : string) : string :=
  "table:" +:+ n +:+ nl
    +:+ String.concat "" (row_line <$> default [] (um_at data n)).

Definition canonicalize (c : Commit) : string :=
  "parent:" +:+ parent_hash c +:+ nl
    +:+ "message:" +:+ message c +:+ nl
    +:+ "timestamp:" +:+ to_string (timestamp c) +:+ nl
    +:+ String.concat "" (table_lines (table_data c) <$> ascending (um_keys (table_data c))).

(** ** Diffs

    The result types are those of the source ([RowDiff], [TableDiff],
    [CommitDiff]); the function that fills them is not in the sources. *)

Inductive RowDiffType := ADDED | DELETED | MODIFIED.

Record RowDiff := {
  rd_type : RowDiffType;
  old_row : Row;
  new_row : Row
}.

Record TableDiff := {
  table_name : string;
  row_diffs : list RowDiff;
  schema_changed : bool
}.

Record CommitDiff := {
  from_hash : string;
  to_hash : string;
  table_diffs : list TableDiff;
  tables_added : list string;
  tables_dropped : list string
}.

#[global] Instance DataType_eq_dec : EqDecision DataType.
Proof. solve_decision. Defined.

#[global] Instance double_eq_dec : EqDecision double.
Proof. solve_decision. Defined.

#[global] Instance Value_eq_dec : EqDecision Value.
Proof. solve_decision. Defined.

(** *** The diff engine

    [diff] and its helpers are not in the sources: the definitions below
    follow section 4.5 of the specification clause by clause. Where the
    specification leaves a choice open, the comment of the definition
    says which one is taken. *)

(** Modelled from the spec: equality of two columns, missing from the
    sources; "identical name, type, nullability, and primary-key flag". *)
Definition column_equal (a b : ColumnDef) : bool :=
  String.eqb (name a) (name b) && bool_decide (type a = type b)
    && Bool.eqb (is_nullable a) (is_nullable b)
    && Bool.eqb (is_primary_key a) (is_primary_key b).

(** Modelled from the spec: equality of two column lists, missing from
    the sources; "same column count, and for each position [...], in
    order". *)
Fixpoint columns_equal (a b : list ColumnDef) : bool :=
  match a, b with
  | [], [] => true
  | x :: a', y :: b' => column_equal x y && columns_equal a' b'
  | _, _ => false
  end.

(** Modelled from the spec: Schema equality, missing from the sources. *)
Definition schema_equal (a b : Schema) : bool :=
  columns_equal (columns_ a) (columns_ b).

(** Modelled from the spec: [schema_changed], missing from the sources;
    "negation of Schema equality between the two versions". A table
    without a schema on both sides has not changed it. *)
Definition schema_differs (a b : option Schema) : bool :=
  match a, b with
  | Some x, Some y => negb (schema_equal x y)
  | None, None => false
  | _, _ => true
  end.

(** Modelled from the spec: the position of the "declared primary-key
    column", missing from the sources; the first one if several are
    flagged. *)
Fixpoint primary_key_from (i : nat) (cols : list ColumnDef) : option nat :=
  match cols with
  | [] => None
  | c :: rest => if is_primary_key c then Some i else primary_key_from (S i) rest
  end.

(** Modelled from the spec: the primary key of a table, if its schema
    is there and declares one; missing from the sources. *)
Definition primary_key (s : option Schema) : option nat :=
  s ← s; primary_key_from 0 (columns_ s).

(** Modelled from the spec: the matching of two rows, missing from the
    sources; "match rows [...] by equal primary-key cell value using
    ValueModel.equals". A row too short to have the cell has no key. *)
Definition keys_match (pk : nat) (r r' : Row) : bool :=
  match r !! pk, r' !! pk with
  | Some a, Some b => values_equal a b
  | _, _ => false
  end.

(** Modelled from the spec: the comparison of a matched pair, missing
    from the sources; "compare all cells positionally using
    ValueModel.equals". Rows of different lengths differ. *)
Fixpoint rows_same (r r' : Row) : bool :=
  match r, r' with
  | [], [] => true
  | a :: r1, b :: r2 => values_equal a b && rows_same r1 r2
  | _, _ => false
  end.

(** Modelled from the spec: the scan of [from], missing from the
    sources; "DELETED and MODIFIED entries in the order their keys/rows
    appear while scanning from". A row is paired with the first row of
    [to] that has its key. *)
Definition scan_from (pk : nat) (from to : list Row) : list RowDiff :=
  flat_map (fun r =>
    match find (keys_match pk r) to with
    | Some r' =>
        if rows_same r r' then []
        else [{| rd_type := MODIFIED; old_row := r; new_row := r' |}]
    | None => [{| rd_type := DELETED; old_row := r; new_row := [] |}]
    end) from.

(** Modelled from the spec: the scan of [to], missing from the sources;
    "ADDED entries appended afterward in to's row order". *)
Definition scan_to (pk : nat) (from to : list Row) : list RowDiff :=
  flat_map (fun r' =>
    if existsb (fun r => keys_match pk r r') from then []
    else [{| rd_type := ADDED; old_row := []; new_row := r' |}]) to.

(** Modelled from the spec: a multiset of rows with one occurrence of
    [r] less; missing from the sources. *)
Fixpoint remove_one (r : Row) (rows : list Row) : list Row :=
  match rows with
  | [] => []
  | x :: rest => if bool_decide (x = r) then rest else x :: remove_one r rest
  end.

(** Modelled from the spec: the "full-row multiset comparison", missing
    from the sources; the rows of [rows] in excess of their occurrences
    in [others]: "a row value with k occurrences in from and j
    occurrences in to contributes max(0, k - j) DELETED instances". The
    occurrences of a row value are the rows identical to it. *)
Fixpoint unmatched (rows others : list Row) : list Row :=
  match rows with
  | [] => []
  | r :: rest =>
      if bool_decide (r ∈ others) then unmatched rest (remove_one r others)
      else r :: unmatched rest others
  end.

(** Modelled from the spec: the row diffs of a table, missing from the
    sources; by key when a primary key is declared, by multiset
    otherwise. *)
Definition diff_rows (pk : option nat) (from to : list Row) : list RowDiff :=
  match pk with
  | Some k => scan_from k from to ++ scan_to k from to
  | None =>
      ((fun r => {| rd_type := DELETED; old_row := r; new_row := [] |})
         <$> unmatched from to)
      ++ ((fun r => {| rd_type := ADDED; old_row := []; new_row := r |})
         <$> unmatched to from)
  end.

(** Modelled from the spec: whether a table name is present in a
    commit; missing from the sources. *)
Definition has_table (c : Commit) (n : string) : bool :=
  bool_decide (is_Some (um_at (table_data c) n)).

(** Modelled from the spec: the TableDiff of a table present in both
    commits, missing from the sources. The primary key is the one
    declared by the schema of [from]. *)
Definition diff_table (from to : Commit) (n : string) : TableDiff :=
  let schema_from := um_at (table_schemas from) n in
  let schema_to := um_at (table_schemas to) n in
  {| table_name := n;
     row_diffs := diff_rows (primary_key schema_from)
                    (default [] (um_at (table_data from) n))
                    (default [] (um_at (table_data to) n));
     schema_changed := schema_differs schema_from schema_to |}.

(** Modelled from the spec: [diff(from, to)], missing from the sources.
    The tables of a commit are the keys of its [table_data], taken as
    encountered. *)
Definition diff (from to : Commit) : CommitDiff :=
  let names_from := um_keys (table_data from) in
  let names_to := um_keys (table_data to) in
  {| from_hash := hash from;
     to_hash := hash to;
     table_diffs := diff_table from to <$> filter (fun n => has_table to n = true) names_from;
     tables_added := filter (fun n => has_table from n = false) names_to;
     tables_dropped := filter (fun n => has_table to n = false) names_from |}.

(** ** The tokenizer

    [enum class TokenType], [struct Token] and [class Lexer].  A member
    function that changes the lexer returns the lexer after the call
    beside its result.  A [while] loop is a function with a bound on
    the number of its turns: the characters left to read, of which
    every turn reads at least one.

    The character classes are those of the "C" locale (the program
    never calls [setlocale]); a [char] outside 0..127 is in none of
    them.  [int] positions are unbounded integers.  What the platform
    decides is a variable of the section: the text-to-double conversion
    [std::stod], which throws [std::out_of_range] when [strtod] reports
    a range error (for an underflow the C standard leaves that to the
    implementation), and whether plain [char] is signed. *)

Module Tokenizer.

(** The enumerators, in the order of the declaration. *)
Inductive TokenType :=
| INTEGER_LITERAL | FLOAT_LITERAL | STRING_LITERAL | IDENTIFIER
| SELECT | FROM | WHERE | INSERT | INTO | VALUES | UPDATE | BETWEEN | SET | DELETE
| CREATE | TABLE | DROP
| AND | OR | NOT
| NULL_KEYWORD | TRUE_KEYWORD | FALSE_KEYWORD
| PRIMARY | KEY
| INTEGER_TYPE | VARCHAR_TYPE | FLOAT_TYPE | BOOLEAN_TYPE
| ORDER | BY | ASC | DESC | LIMIT | OFFSET
| EQUALS | NOT_EQUALS | LESS_THAN | GREATER_THAN | LESS_EQUAL | GREATER_EQUAL
| PLUS | MINUS | ASTERISK | SLASH
| COMMA | SEMICOLON | LEFT_PAREN | RIGHT_PAREN | DOT
| END_OF_FILE | INVALID.

(** The underlying value of an enumerator, which [>=] and [<=] compare. *)
Definition underlying (t : TokenType) : nat :=
  match t with
  | INTEGER_LITERAL => 0 | FLOAT_LITERAL => 1 | STRING_LITERAL => 2 | IDENTIFIER => 3
  | SELECT => 4 | FROM => 5 | WHERE => 6 | INSERT => 7
  | INTO => 8 | VALUES => 9 | UPDATE => 10 | BETWEEN => 11
  | SET => 12 | DELETE => 13 | CREATE => 14 | TABLE => 15
  | DROP => 16 | AND => 17 | OR => 18 | NOT => 19
  | NULL_KEYWORD => 20 | TRUE_KEYWORD => 21 | FALSE_KEYWORD => 22 | PRIMARY => 23
  | KEY => 24 | INTEGER_TYPE => 25 | VARCHAR_TYPE => 26 | FLOAT_TYPE => 27
  | BOOLEAN_TYPE => 28 | ORDER => 29 | BY => 30 | ASC => 31
  | DESC => 32 | LIMIT => 33 | OFFSET => 34 | EQUALS => 35
  | NOT_EQUALS => 36 | LESS_THAN => 37 | GREATER_THAN => 38 | LESS_EQUAL => 39
  | GREATER_EQUAL => 40 | PLUS => 41 | MINUS => 42 | ASTERISK => 43
  | SLASH => 44 | COMMA => 45 | SEMICOLON => 46 | LEFT_PAREN => 47
  | RIGHT_PAREN => 48 | DOT => 49 | END_OF_FILE => 50 | INVALID => 51
  end%nat.

(** The [default:] case, ["UNKNOWN"], is for a value that is no
    enumerator. *)
Definition token_type_to_string (type : TokenType) : string :=
  match type with
  | INTEGER_LITERAL => "INTEGER_LITERAL"
  | FLOAT_LITERAL => "FLOAT_LITERAL"
  | STRING_LITERAL => "STRING_LITERAL"
  | IDENTIFIER => "IDENTIFIER"
  | SELECT => "SELECT"
  | FROM => "FROM"
  | WHERE => "WHERE"
  | INSERT => "INSERT"
  | BETWEEN => "BETWEEN"
  | INTO => "INTO"
  | VALUES => "VALUES"
  | UPDATE => "UPDATE"
  | SET => "SET"
  | DELETE => "DELETE"
  | CREATE => "CREATE"
  | TABLE => "TABLE"
  | DROP => "DROP"
  | AND => "AND"
  | OR => "OR"
  | NOT => "NOT"
  | NULL_KEYWORD => "NULL"
  | TRUE_KEYWORD => "TRUE"
  | FALSE_KEYWORD => "FALSE"
  | PRIMARY => "PRIMARY"
  | KEY => "KEY"
  | INTEGER_TYPE => "INTEGER_TYPE"
  | VARCHAR_TYPE => "VARCHAR_TYPE"
  | FLOAT_TYPE => "FLOAT_TYPE"
  | BOOLEAN_TYPE => "BOOLEAN_TYPE"
  | ORDER => "ORDER"
  | BY => "BY"
  | ASC => "ASC"
  | DESC => "DESC"
  | LIMIT => "LIMIT"
  | OFFSET => "OFFSET"
  | EQUALS => "EQUALS"
  | NOT_EQUALS => "NOT_EQUALS"
  | LESS_THAN => "LESS_THAN"
  | GREATER_THAN => "GREATER_THAN"
  | LESS_EQUAL => "LESS_EQUAL"
  | GREATER_EQUAL => "GREATER_EQUAL"
  | PLUS => "PLUS"
  | MINUS => "MINUS"
  | ASTERISK => "ASTERISK"
  | SLASH => "SLASH"
  | COMMA => "COMMA"
  | SEMICOLON => "SEMICOLON"
  | LEFT_PAREN => "LEFT_PAREN"
  | RIGHT_PAREN => "RIGHT_PAREN"
  | DOT => "DOT"
  | END_OF_FILE => "EOF"
  | INVALID => "INVALID"
  end.

(** [std::variant<std::monostate, int64_t, double, std::string>] *)
Inductive Literal :=
| LNone
| LInt (n : Z)
| LFloat (d : double)
| LText (s : string).

Record Token := {
  type : TokenType;
  text : string;
  value : Literal;
  line : Z;
  column : Z
}.

(** [Token(t, txt, ln, col)] *)
Definition make_token (t : TokenType) (txt : string) (ln col : Z) : Token :=
  {| type := t; text := txt; value := LNone; line := ln; column := col |}.

(** [token.value = v] *)
Definition set_value (token : Token) (v : Literal) : Token :=
  {| type := type token; text := text token; value := v;
     line := line token; column := column token |}.

(** [Token::is] *)
Definition is_type (token : Token) (t : TokenType) : bool :=
  bool_decide (underlying (type token) = underlying t).

Definition is_keyword (token : Token) : bool :=
  (underlying SELECT <=? underlying (type token))%nat
  && (underlying (type token) <=? underlying OFFSET)%nat.

Definition is_comparison (token : Token) : bool :=
  (underlying EQUALS <=? underlying (type token))%nat
  && (underlying (type token) <=? underlying GREATER_EQUAL)%nat.

(** [Token::to_string] *)
Definition token_to_string (token : Token) : string :=
  let result := token_type_to_string (type token) in
  if negb (String.eqb (text token) "")
     && negb (underlying (type token) =? underlying END_OF_FILE)%nat
  then result +:+ ("('" +:+ text token +:+ "')")
  else result.

(** *** Characters *)

Definition NUL : ascii := "000".
Definition newline : ascii := "010".
Definition tab : ascii := "009".
Definition carriage_return : ascii := "013".
Definition double_quote : ascii := "034".
Definition backslash : ascii := "092".

Definition between (lo hi c : ascii) : bool :=
  (byte_of_ascii lo <=? byte_of_ascii c) && (byte_of_ascii c <=? byte_of_ascii hi).

Definition isdigit (c : ascii) : bool := between "0" "9" c.
Definition isupper (c : ascii) : bool := between "A" "Z" c.
Definition islower (c : ascii) : bool := between "a" "z" c.
Definition isalpha (c : ascii) : bool := isupper c || islower c.
Definition isalnum (c : ascii) : bool := isalpha c || isdigit c.
Definition isxdigit (c : ascii) : bool :=
  isdigit c || between "A" "F" c || between "a" "f" c.

Definition toupper (c : ascii) : ascii :=
  if islower c then ascii_of_N (Z.to_N (byte_of_ascii c - 32)) else c.

Fixpoint string_map (f : ascii -> ascii) (s : string) : string :=
  match s with
  | EmptyString => EmptyString
  | String c rest => String (f c) (string_map f rest)
  end.

(** [s[i]]; beyond the end, where C++ gives no meaning to it, [NUL]. *)
Definition char_at (s : string) (i : nat) : ascii :=
  match String.get i s with
  | Some c => c
  | None => NUL
  end.

(** *** [std::stoll]

    The lexer passes a string that starts with a digit of the base; the
    digits are read up to the first character that is none.  [None] is
    an exception: [std::invalid_argument] when there is no digit,
    [std::out_of_range] when the number is above [LLONG_MAX]. *)

Definition digit_value (c : ascii) : option Z :=
  if isdigit c then Some (byte_of_ascii c - 48)
  else if between "a" "z" c then Some (byte_of_ascii c - 87)
  else if between "A" "Z" c then Some (byte_of_ascii c - 55)
  else None.

Definition digit_in (base : Z) (c : ascii) : option Z :=
  match digit_value c with
  | Some d => if d <? base then Some d else None
  | None => None
  end.

Fixpoint digits_from (base : Z) (acc : Z) (s : string) : Z :=
  match s with
  | EmptyString => acc
  | String c rest =>
      match digit_in base c with
      | Some d => digits_from base (acc * base + d) rest
      | None => acc
      end
  end.

Definition stoll (s : string) (base : Z) : option Z :=
  match s with
  | EmptyString => None
  | String c _ =>
      match digit_in base c with
      | None => None
      | Some _ =>
          let n := digits_from base 0 s in
          if n <? 2 ^ 63 then Some n else None
      end
  end.

(** *** The lexer *)

(** The members of [Lexer] that change.  [keywords_] is assigned once, by
    the constructor, and only searched afterwards: it is the constant
    [keywords_] below. *)
Record Lexer := {
  source_ : string;
  current_ : nat;
  line_ : Z;
  column_ : Z
}.

(** [Lexer(source)] *)
Definition make_lexer (source : string) : Lexer :=
  {| source_ := source; current_ := 0; line_ := 1; column_ := 1 |}.

(** [init_keywords] *)
Definition keywords_ : gmap string TokenType :=
  list_to_map
    [ ("SELECT", SELECT); ("FROM", FROM); ("WHERE", WHERE); ("INSERT", INSERT);
      ("INTO", INTO); ("VALUES", VALUES); ("UPDATE", UPDATE); ("SET", SET);
      ("DELETE", DELETE); ("BETWEEN", BETWEEN);
      ("CREATE", CREATE); ("TABLE", TABLE); ("DROP", DROP);
      ("AND", AND); ("OR", OR); ("NOT", NOT);
      ("NULL", NULL_KEYWORD); ("TRUE", TRUE_KEYWORD); ("FALSE", FALSE_KEYWORD);
      ("PRIMARY", PRIMARY); ("KEY", KEY);
      ("INTEGER", INTEGER_TYPE); ("INT", INTEGER_TYPE);
      ("VARCHAR", VARCHAR_TYPE); ("TEXT", VARCHAR_TYPE);
      ("FLOAT", FLOAT_TYPE); ("DOUBLE", FLOAT_TYPE);
      ("BOOLEAN", BOOLEAN_TYPE); ("BOOL", BOOLEAN_TYPE);
      ("ORDER", ORDER); ("BY", BY); ("ASC", ASC); ("DESC", DESC);
      ("LIMIT", LIMIT); ("OFFSET", OFFSET) ].

Definition is_at_end (lx : Lexer) : bool :=
  (String.length (source_ lx) <=? current_ lx)%nat.

Definition peek (lx : Lexer) : ascii :=
  if is_at_end lx then NUL else char_at (source_ lx) (current_ lx).

Definition peek_next (lx : Lexer) : ascii :=
  if (String.length (source_ lx) <=? current_ lx + 1)%nat then NUL
  else char_at (source_ lx) (current_ lx + 1).

(** [advance]: the character read and the lexer after it. *)
Definition advance (lx : Lexer) : ascii * Lexer :=
  let c := char_at (source_ lx) (current_ lx) in
  (c,
   if Ascii.eqb c newline
   then {| source_ := source_ lx; current_ := S (current_ lx);
           line_ := line_ lx + 1; column_ := 1 |}
   else {| source_ := source_ lx; current_ := S (current_ lx);
           line_ := line_ lx; column_ := column_ lx + 1 |}).

(** [match] *)
Definition match_char (expected : ascii) (lx : Lexer) : bool * Lexer :=
  if is_at_end lx then (false, lx)
  else if negb (Ascii.eqb expected (char_at (source_ lx) (current_ lx))) then (false, lx)
  else (true, snd (advance lx)).

(** The characters left to read: a bound on the number of turns of
    every loop below, each turn of which reads at least one. *)
Definition remaining (lx : Lexer) : nat :=
  String.length (source_ lx) - current_ lx.

(** [while (!is_at_end() && p(peek())) advance();] *)
Fixpoint advance_while (p : ascii -> bool) (fuel : nat) (lx : Lexer) : Lexer :=
  match fuel with
  | O => lx
  | S fuel' =>
      if negb (is_at_end lx) && p (peek lx)
      then advance_while p fuel' (snd (advance lx))
      else lx
  end.

(** The loop that looks for the end of a block comment. *)
Fixpoint skip_block (fuel : nat) (lx : Lexer) : Lexer :=
  match fuel with
  | O => lx
  | S fuel' =>
      if is_at_end lx then lx
      else if Ascii.eqb (peek lx) "*" && Ascii.eqb (peek_next lx) "/"
      then snd (advance (snd (advance lx)))
      else skip_block fuel' (snd (advance lx))
  end.

Definition is_space (c : ascii) : bool :=
  Ascii.eqb c " " || Ascii.eqb c tab || Ascii.eqb c carriage_return
  || Ascii.eqb c newline.

Fixpoint skip_loop (fuel : nat) (lx : Lexer) : Lexer :=
  match fuel with
  | O => lx
  | S fuel' =>
      if is_at_end lx then lx
      else
        let c := peek lx in
        if is_space c then skip_loop fuel' (snd (advance lx))
        else if Ascii.eqb c "-" && Ascii.eqb (peek_next lx) "-"
        then skip_loop fuel'
               (advance_while (fun c => negb (Ascii.eqb c newline)) (remaining lx) lx)
        else if Ascii.eqb c "/" && Ascii.eqb (peek_next lx) "*"
        then
          let lx := snd (advance lx) in
          let lx := snd (advance lx) in
          skip_loop fuel' (skip_block (remaining lx) lx)
        else lx
  end.

Definition skip_whitespace_and_comments (lx : Lexer) : Lexer :=
  skip_loop (remaining lx) lx.

(** The [switch] of [scan_string]: the character an escape stands for. *)
Definition escaped_char (escaped : ascii) : ascii :=
  if Ascii.eqb escaped "n" then newline
  else if Ascii.eqb escaped "t" then tab
  else if Ascii.eqb escaped "r" then carriage_return
  else if Ascii.eqb escaped backslash then backslash
  else if Ascii.eqb escaped "'" then "'"%char
  else if Ascii.eqb escaped double_quote then double_quote
  else escaped.

(** [value += c] *)
Definition push_back (value : string) (c : ascii) : string :=
  value +:+ String c EmptyString.

Fixpoint scan_string_loop (quote : ascii) (fuel : nat) (lx : Lexer) (value : string)
  : Lexer * string :=
  match fuel with
  | O => (lx, value)
  | S fuel' =>
      if negb (is_at_end lx) && negb (Ascii.eqb (peek lx) quote)
      then
        if Ascii.eqb (peek lx) backslash
        then
          let lx := snd (advance lx) in
          if negb (is_at_end lx)
          then
            let '(escaped, lx) := advance lx in
            scan_string_loop quote fuel' lx (push_back value (escaped_char escaped))
          else scan_string_loop quote fuel' lx value
        else
          let '(c, lx) := advance lx in
          scan_string_loop quote fuel' lx (push_back value c)
      else (lx, value)
  end.

Definition scan_string (quote : ascii) (start_line start_column : Z) (lx : Lexer)
  : Token * Lexer :=
  let '(lx, value) := scan_string_loop quote (remaining lx) lx EmptyString in
  if is_at_end lx
  then (make_token INVALID "Unterminated string" start_line start_column, lx)
  else
    let lx := snd (advance lx) in
    (set_value (make_token STRING_LITERAL value start_line start_column) (LText value),
     lx).

(** The loop of [scan_backtick_identifier]: [inl] is the [return] inside
    the loop, at a newline. *)
Fixpoint scan_backtick_loop (fuel : nat) (lx : Lexer) (value : string)
  : Lexer + Lexer * string :=
  match fuel with
  | O => inr (lx, value)
  | S fuel' =>
      if negb (is_at_end lx) && negb (Ascii.eqb (peek lx) "`")
      then
        if Ascii.eqb (peek lx) newline then inl lx
        else
          let '(c, lx) := advance lx in
          scan_backtick_loop fuel' lx (push_back value c)
      else inr (lx, value)
  end.

Definition scan_backtick_identifier (start_line start_column : Z) (lx : Lexer)
  : Token * Lexer :=
  match scan_backtick_loop (remaining lx) lx EmptyString with
  | inl lx =>
      (make_token INVALID "Newline in backtick identifier" start_line start_column, lx)
  | inr (lx, value) =>
      if is_at_end lx
      then (make_token INVALID "Unterminated backtick identifier"
              start_line start_column, lx)
      else
        let lx := snd (advance lx) in
        if String.eqb value ""
        then (make_token INVALID "Empty backtick identifier" start_line start_column, lx)
        else (make_token IDENTIFIER value start_line start_column, lx)
  end.

(** [current_ = start_pos; column_ = start_column;] *)
Definition rewind (start_pos : nat) (start_column : Z) (lx : Lexer) : Lexer :=
  {| source_ := source_ lx; current_ := start_pos;
     line_ := line_ lx; column_ := start_column |}.

(** [source_.substr(start_pos, current_ - start_pos)] *)
Definition text_from (start_pos : nat) (lx : Lexer) : string :=
  substring start_pos (current_ lx - start_pos) (source_ lx).

Definition scan_identifier (start_pos : nat) (start_line start_column : Z) (lx : Lexer)
  : Token * Lexer :=
  let lx := rewind start_pos start_column lx in
  let lx := advance_while (fun c => isalnum c || Ascii.eqb c "_") (remaining lx) lx in
  let text := text_from start_pos lx in
  let upper := string_map toupper text in
  match keywords_ !! upper with
  | Some t => (make_token t text start_line start_column, lx)
  | None => (make_token IDENTIFIER text start_line start_column, lx)
  end.

Section Platform.

Variable stod : string -> option double.
Variable char_is_signed : bool.

(** [static_cast<int>(c)] *)
Definition int_of_char (c : ascii) : Z :=
  if char_is_signed && (128 <=? byte_of_ascii c)
  then byte_of_ascii c - 256
  else byte_of_ascii c.

Definition make_error_token (message : string) (bad_char : ascii) (line col : Z)
  : Token :=
  let error_msg :=
    message +:+ " '" +:+ String bad_char EmptyString +:+ "'" +:+ " (ASCII "
    +:+ to_string (int_of_char bad_char) +:+ ")" in
  make_token INVALID error_msg line col.

(** [None] is the exception of [std::stoll] or [std::stod]. *)
Definition scan_number (start_pos : nat) (start_line start_column : Z) (lx : Lexer)
  : option (Token * Lexer) :=
  let lx := rewind start_pos start_column lx in
  if Ascii.eqb (peek lx) "0"
     && (Ascii.eqb (peek_next lx) "x" || Ascii.eqb (peek_next lx) "X")
  then
    let lx := snd (advance lx) in
    let lx := snd (advance lx) in
    let hex_start := current_ lx in
    let lx := advance_while isxdigit (remaining lx) lx in
    if (current_ lx =? hex_start)%nat
    then Some (make_token INVALID "Invalid hex number" start_line start_column, lx)
    else
      let hex_text := text_from hex_start lx in
      match stoll hex_text 16 with
      | None => None
      | Some value =>
          Some (set_value (make_token INTEGER_LITERAL (text_from start_pos lx)
                             start_line start_column) (LInt value), lx)
      end
  else
    let lx := advance_while isdigit (remaining lx) lx in
    let '(is_float, lx) :=
      if negb (is_at_end lx) && Ascii.eqb (peek lx) "." && isdigit (peek_next lx)
      then
        let lx := snd (advance lx) in
        (true, advance_while isdigit (remaining lx) lx)
      else (false, lx) in
    let text := text_from start_pos lx in
    if is_float : bool
    then
      match stod text with
      | None => None
      | Some d =>
          Some (set_value (make_token FLOAT_LITERAL text start_line start_column)
                  (LFloat d), lx)
      end
    else
      match stoll text 10 with
      | None => None
      | Some n =>
          Some (set_value (make_token INTEGER_LITERAL text start_line start_column)
                  (LInt n), lx)
      end.

Definition scan_token (lx : Lexer) : option (Token * Lexer) :=
  let start_line := line_ lx in
  let start_column := column_ lx in
  let start_pos := current_ lx in
  let '(c, lx) := advance lx in
  let token t txt := Some (make_token t txt start_line start_column, lx) in
  let unexpected tt :=
    Some (make_error_token "Unexpected character" c start_line start_column, lx) in
  if Ascii.eqb c "(" then token LEFT_PAREN "("
  else if Ascii.eqb c ")" then token RIGHT_PAREN ")"
  else if Ascii.eqb c "," then token COMMA ","
  else if Ascii.eqb c ";" then token SEMICOLON ";"
  else if Ascii.eqb c "." then token DOT "."
  else if Ascii.eqb c "+" then token PLUS "+"
  else if Ascii.eqb c "-" then token MINUS "-"
  else if Ascii.eqb c "*" then token ASTERISK "*"
  else if Ascii.eqb c "/" then token SLASH "/"
  else if Ascii.eqb c "=" then token EQUALS "="
  else if Ascii.eqb c "!" then
    let '(matched, lx') := match_char "=" lx in
    if matched : bool
    then Some (make_token NOT_EQUALS "!=" start_line start_column, lx')
    else Some (make_error_token "Unexpected character" c start_line start_column, lx')
  else if Ascii.eqb c "<" then
    let '(matched, lx') := match_char "=" lx in
    if matched : bool
    then Some (make_token LESS_EQUAL "<=" start_line start_column, lx')
    else
      let '(matched, lx') := match_char ">" lx' in
      if matched : bool
      then Some (make_token NOT_EQUALS "<>" start_line start_column, lx')
      else Some (make_token LESS_THAN "<" start_line start_column, lx')
  else if Ascii.eqb c ">" then
    let '(matched, lx') := match_char "=" lx in
    if matched : bool
    then Some (make_token GREATER_EQUAL ">=" start_line start_column, lx')
    else Some (make_token GREATER_THAN ">" start_line start_column, lx')
  else if Ascii.eqb c "`" then
    Some (scan_backtick_identifier start_line start_column lx)
  else if Ascii.eqb c "'" || Ascii.eqb c double_quote then
    Some (scan_string c start_line start_column lx)
  else if isdigit c then scan_number start_pos start_line start_column lx
  else if isalpha c || Ascii.eqb c "_" then
    Some (scan_identifier start_pos start_line start_column lx)
  else unexpected tt.

(** The loop of [tokenize]. *)
Fixpoint tokenize_loop (fuel : nat) (lx : Lexer) (tokens : list Token)
  : option (list Token * Lexer) :=
  match fuel with
  | O => Some (tokens, lx)
  | S fuel' =>
      if is_at_end lx then Some (tokens, lx)
      else
        let lx := skip_whitespace_and_comments lx in
        if is_at_end lx then Some (tokens, lx)
        else
          match scan_token lx with
          | None => None
          | Some (token, lx) => tokenize_loop fuel' lx (tokens ++ [token])
          end
  end.

(** [tokenize]: the tokens and the lexer it leaves; [None] when a
    number literal made [std::stoll] or [std::stod] throw. *)
Definition tokenize (lx : Lexer) : option (list Token * Lexer) :=
  match tokenize_loop (remaining lx) lx [] with
  | None => None
  | Some (tokens, lx) =>
      Some (tokens ++ [make_token END_OF_FILE "" (line_ lx) (column_ lx)], lx)
  end.

(** [Lexer(source).tokenize()] *)
Definition tokens_of (source : string) : option (list Token) :=
  fst <$> tokenize (make_lexer source).

End Platform.

End Tokenizer.

(** ** Definitions used to state the properties *)

(** [commit] with [h] assigned to its [hash]. *)
Definition with_hash (h : string) (c : Commit) : Commit :=
  {| hash := h; parent_hash := parent_hash c; message := message c;
     timestamp := timestamp c; table_data := table_data c;
     table_schemas := table_schemas c |}.

(** The type and nullability rule of a column: Null only when the column
    is nullable; otherwise the kind of the value is that of the declared
    type, a FLOAT column accepting an integer too (and a TIMESTAMP being
    stored as an integer). *)
Definition satisfies (c : ColumnDef) (v : Value) : bool :=
  match v with
  | VNull => is_nullable c
  | VInt _ => bool_decide (type c = INTEGER \/ type c = FLOAT \/ type c = TIMESTAMP)
  | VFloat _ => bool_decide (type c = FLOAT)
  | VText _ => bool_decide (type c = VARCHAR)
  | VBool _ => bool_decide (type c = BOOLEAN)
  end.

(** The first message that is not empty, from the left; the empty string
    when there is none. *)
Fixpoint first_error (errors : list string) : string :=
  match errors with
  | [] => ""
  | e :: rest => if is_empty e then first_error rest else e
  end.

(** The message of [validate_row] about the number of columns. *)
Definition count_error (s : Schema) (row : Row) : string :=
  "Expected " +:+ to_string (Z.of_nat (num_columns s))
    +:+ " columns, got " +:+ to_string (Z.of_nat (length row)).

(** No line feed in [s]. *)
Fixpoint no_nl (s : string) : bool :=
  match s with
  | EmptyString => true
  | String c rest => negb (Ascii.eqb c "010") && no_nl rest
  end.

(** The cells of the row render without a line feed. *)
Definition clean_row (row : Row) : Prop :=
  Forall (fun v => no_nl (value_to_string v) = true) row.



(** The rows of a table with the primary key in column [k]: every row
    has a key cell, every cell equals itself under [values_equal] (it is
    not Null, and not a NaN), and no two rows have equal keys. *)
Definition keyed_rows_ok (k : nat) (rows : list Row) : Prop :=
  Forall (fun r => is_Some (r !! k) /\ Forall (fun v => values_equal v v = true) r) rows
  /\ (forall i j r r', rows !! i = Some r -> rows !! j = Some r' ->
                       keys_match k r r' = true -> i = j).

(** [keyed_rows_ok] for every table of [c] that declares a primary key. *)
Definition keyed_tables_ok (c : Commit) : Prop :=
  forall n rows k,
    um_at (table_data c) n = Some rows ->
    primary_key (um_at (table_schemas c) n) = Some k ->
    keyed_rows_ok k rows.



(** [d] is a NaN, of either sign. *)
Definition is_nan (d : double) : bool :=
  match d with D_nan _ => true | _ => false end.

(** A key that orders the [double]s other than NaN as [<] does: the
    sign class, then the exponent, then the mantissa. *)
Definition key (x : double) : Z * Z * Z :=
  match x with
  | D_zero _ => (0, 0, 0)
  | D_infinity s => (if s then -2 else 2, 0, 0)
  | D_nan _ => (0, 0, 0)
  | D_finite s m e => if s then (-1, - e, - Z.pos m) else (1, e, Z.pos m)
  end.



(** *** Reading a rendered number back *)

(** The digit that [c] stands for. *)
Definition digit_of (c : ascii) : option Z :=
  let b := byte_of_ascii c in
  if (48 <=? b) && (b <=? 57) then Some (b - 48) else None.

(** The number that the decimal digits [t] spell after those of [acc]. *)
Fixpoint read_digits (acc : Z) (t : string) : option Z :=
  match t with
  | EmptyString => Some acc
  | String c rest =>
      match digit_of c with
      | Some d => read_digits (10 * acc + d) rest
      | None => None
      end
  end.

(** A natural number in decimal notation: one digit at least, and no 0
    in front of another digit. *)
Definition read_natural (t : string) : option Z :=
  match t with
  | EmptyString => None
  | String c EmptyString => read_digits 0 t
  | String c _ => if Ascii.eqb c "0" then None else read_digits 0 t
  end.

(** The minus sign in front of a number, and the text after it. *)
Definition read_sign (t : string) : bool * string :=
  match t with
  | EmptyString => (false, t)
  | String c rest => if Ascii.eqb c "-" then (true, rest) else (false, t)
  end.

(** An integer in decimal notation; a minus sign stands only in front of
    a positive number. *)
Definition read_decimal (t : string) : option Z :=
  let (s, u) := read_sign t in
  match read_natural u with
  | Some n => if s then (if 0 <? n then Some (- n) else None) else Some n
  | None => None
  end.

(** The text before the first point, and the text after it. *)
Fixpoint split_point (t : string) : option (string * string) :=
  match t with
  | EmptyString => None
  | String c rest =>
      if Ascii.eqb c "." then Some (EmptyString, rest)
      else match split_point rest with
           | Some (a, b) => Some (String c a, b)
           | None => None
           end
  end.

(** A number with two decimals: a minus sign or none, a natural number,
    a point and two digits. The result is the sign and the number of
    hundredths. *)
Definition read_fixed2 (t : string) : option (bool * Z) :=
  let (s, u) := read_sign t in
  match split_point u with
  | Some (whole, String d1 (String d0 EmptyString)) =>
      match read_natural whole, read_digits 0 (String d1 (String d0 EmptyString)) with
      | Some w, Some f => Some (s, 100 * w + f)
      | _, _ => None
      end
  | _ => None
  end.

(** [h] hundredths are [m * 2 ^ e] rounded to two decimals: no number of
    hundredths is nearer, and [h] is even when another one is as near. *)
Definition nearest_hundredths (m : positive) (e h : Z) : Prop :=
  let d := 2 ^ Z.max 0 (- e) in
  let n := 100 * Z.pos m * 2 ^ Z.max 0 e in
  2 * Z.abs (h * d - n) <= d /\ (2 * Z.abs (h * d - n) = d -> Z.even h = true).

(** A text of digits that does not begin with 0. *)
Definition begins_positive (d : string) : Prop :=
  exists c r k, d = String c r /\ digit_of c = Some k /\ 0 < k.

(** *** What a commit hash depends on *)

(** The three fields at the head of the canonical text. *)
Definition header (c : Commit) : string * string * Z :=
  (parent_hash c, message c, timestamp c).

(** A table as the canonical text shows it: its name and the lines of
    its rows. *)
Definition shown_table (t : string * list Row) : string * list string :=
  (t.1, row_line <$> t.2).

(** What the canonical text shows of the tables: their names in
    ascending order, each with the lines of its rows. *)
Definition shown_tables (c : Commit) : list (string * list string) :=
  (fun n => (n, row_line <$> default [] (um_at (table_data c) n)))
    <$> ascending (um_keys (table_data c)).

(** The text of a shown table. *)
Definition show_table (t : string * list string) : string :=
  "table:" +:+ t.1 +:+ nl +:+ String.concat "" t.2.

(** No line feed in the parent hash, in the message, in the name of a
    table or in the text of a cell. *)
Definition clean_commit (c : Commit) : Prop :=
  no_nl (parent_hash c) = true /\ no_nl (message c) = true
  /\ Forall (fun t => no_nl t.1 = true /\ Forall clean_row t.2) (table_data c).

(** [c'] is [c] with one of its parent hash, message and timestamp
    changed, and the same tables. *)
Definition one_field_changed (c c' : Commit) : Prop :=
  table_data c' = table_data c /\ header c' <> header c
  /\ ((parent_hash c' = parent_hash c /\ message c' = message c)
      \/ (parent_hash c' = parent_hash c /\ timestamp c' = timestamp c)
      \/ (message c' = message c /\ timestamp c' = timestamp c)).

(** The canonical texts of the two commits differ and have the same
    SHA-256 digest. *)
Definition collision (c c' : Commit) : Prop :=
  canonicalize c <> canonicalize c'
  /\ compute_hash (canonicalize c) = compute_hash (canonicalize c').

(** A text that does not go on with the line of a row. *)
Definition not_row (R : string) : Prop :=
  match R with
  | EmptyString => True
  | String c _ => c <> "r"%char
  end.

(** *** Schemas built by [add_column] *)

(** The schema obtained from the empty one by adding the columns in turn. *)
Definition schema_of (cols : list ColumnDef) : Schema :=
  foldl add_column empty_schema cols.

(** The index of the last column called [n]. *)
Fixpoint last_index (n : string) (i : nat) (cols : list ColumnDef) : option nat :=
  match cols with
  | [] => None
  | c :: rest =>
      match last_index n (S i) rest with
      | Some j => Some j
      | None => if String.eqb (name c) n then Some i else None
      end
  end.

(** *** The text of a hash, the cells of a commit *)

(** A digit, or a letter from [a] to [f]. *)
Definition is_hex_digit (c : ascii) : bool :=
  let b := byte_of_ascii c in
  (48 <=? b) && (b <=? 57) || (97 <=? b) && (b <=? 102).

(** [c] with [f] applied to every cell of every row. *)
Definition with_cells (f : Value -> Value) (c : Commit) : Commit :=
  {| hash := hash c; parent_hash := parent_hash c; message := message c;
     timestamp := timestamp c;
     table_data := (fun entry => (entry.1, map (map f) entry.2)) <$> table_data c;
     table_schemas := table_schemas c |}.

(** *** Positions in a source text *)

(** The line and the column of the character at offset [i] of [s], both
    counted from [line] and [column] at offset 0. *)
Fixpoint position_from (line column : Z) (s : string) (i : nat) {struct i} : Z * Z :=
  match i, s with
  | S i', String c rest =>
      if Ascii.eqb c Tokenizer.newline
      then position_from (line + 1) 1 rest i'
      else position_from line (column + 1) rest i'
  | _, _ => (line, column)
  end.

Definition position (s : string) (i : nat) : Z * Z := position_from 1 1 s i.

(** The lexer that has read the first [i] characters of [s]. *)
Definition lexer_at (s : string) (i : nat) : Tokenizer.Lexer :=
  {| Tokenizer.source_ := s; Tokenizer.current_ := i;
     Tokenizer.line_ := fst (position s i);
     Tokenizer.column_ := snd (position s i) |}.

(** A token at offset [i] of [s]. *)
Definition located (s : string) (i : nat) (token : Tokenizer.Token) : Prop :=
  (Tokenizer.line token, Tokenizer.column token) = position s i.

Fixpoint string_forall (p : ascii -> bool) (s : string) : bool :=
  match s with
  | EmptyString => true
  | String c rest => p c && string_forall p rest
  end.

(** A token that is not the last one starts at an offset inside the
    text, at a character that is no white space. *)
Definition token_at (s : string) (i : nat) (token : Tokenizer.Token) : Prop :=
  (i < String.length s)%nat
  /\ Tokenizer.is_space (Tokenizer.char_at s i) = false
  /\ located s i token
  /\ Tokenizer.type token <> Tokenizer.END_OF_FILE.

(** The token that ends the tokens of [s]. *)
Definition end_of_file (s : string) : Tokenizer.Token :=
  Tokenizer.make_token Tokenizer.END_OF_FILE ""
    (fst (position s (String.length s))) (snd (position s (String.length s))).

(** A word: a letter or an underscore, then letters, digits and
    underscores. *)
Definition is_word (w : string) : bool :=
  match w with
  | EmptyString => false
  | String c _ =>
      (Tokenizer.isalpha c || Ascii.eqb c "_")
      && string_forall (fun c => Tokenizer.isalnum c || Ascii.eqb c "_") w
  end.

(** Whether [*/] occurs in [s]. *)
Fixpoint has_block_end (s : string) : bool :=
  match s with
  | EmptyString => false
  | String c rest =>
      (Ascii.eqb c "*"
       && match rest with String d _ => Ascii.eqb d "/" | EmptyString => false end)
      || has_block_end rest
  end.

(** [s] with a backslash put before every backslash and every [quote]. *)
Fixpoint escape (quote : ascii) (s : string) : string :=
  match s with
  | EmptyString => EmptyString
  | String c rest =>
      if Ascii.eqb c Tokenizer.backslash || Ascii.eqb c quote
      then String Tokenizer.backslash (String c (escape quote rest))
      else String c (escape quote rest)
  end.

(** [s] without its first [i] characters. *)
Fixpoint string_drop (i : nat) (s : string) : string :=
  match i, s with
  | S i', String _ rest => string_drop i' rest
  | _, _ => s
  end.

(** A token without its place. *)
Definition unplaced (token : Tokenizer.Token) : Tokenizer.Token :=
  {| Tokenizer.type := Tokenizer.type token; Tokenizer.text := Tokenizer.text token;
     Tokenizer.value := Tokenizer.value token;
     Tokenizer.line := 0; Tokenizer.column := 0 |}.

(** A character of the ASCII range. *)
Definition is_ascii (c : ascii) : bool := byte_of_ascii c <? 128.

(** The lexer that has read [p] and the first [k] characters of [s],
    in the text [p +:+ s]. *)
Definition lexer_after (p s : string) (k : nat) : Tokenizer.Lexer :=
  lexer_at (p +:+ s) (String.length p + k).

(** Two runs of a part of the lexer, one on [s] from [k] and one on
    [p +:+ s] from behind [p], end at the same place of [s]. *)
Definition together (p s : string) (k : nat) (r r' : Tokenizer.Lexer) : Prop :=
  exists j, (k <= j <= String.length s)%nat /\ r = lexer_at s j /\ r' = lexer_after p s j.

(** Two scans give the same token, at different places, and end together. *)
Definition scanned_together (p s : string) (k : nat)
    (r r' : Tokenizer.Token * Tokenizer.Lexer) : Prop :=
  unplaced r.1 = unplaced r'.1 /\ together p s k r.2 r'.2.

(** What [Token::to_string] makes of a token of [tokenize]: the name
    alone for END_OF_FILE and for the literal of the empty string, the
    name and the text for every other one. *)
Definition shown (token : Tokenizer.Token) : Prop :=
  (Tokenizer.type token = Tokenizer.END_OF_FILE
   /\ Tokenizer.token_to_string token = "EOF")
  \/ (Tokenizer.type token = Tokenizer.STRING_LITERAL
      /\ Tokenizer.value token = Tokenizer.LText ""
      /\ Tokenizer.token_to_string token = "STRING_LITERAL")
  \/ (Tokenizer.text token <> ""
      /\ Tokenizer.token_to_string token
         = Tokenizer.token_type_to_string (Tokenizer.type token)
             +:+ "('" +:+ Tokenizer.text token +:+ "')").

(** What a scanner that started at line [l], column [c] and was handed
    the lexer at offset [i] gives back. *)
Definition scanned (s : string) (i : nat) (l c : Z)
    (r : Tokenizer.Token * Tokenizer.Lexer) : Prop :=
  exists j,
    r.2 = lexer_at s j /\ (i <= j <= String.length s)%nat
    /\ Tokenizer.line r.1 = l /\ Tokenizer.column r.1 = c
    /\ Tokenizer.type r.1 <> Tokenizer.END_OF_FILE.

(** ** Sample data: the schema, rows and commits of [main] *)

Definition id_column : ColumnDef :=
  {| name := "id"; type := INTEGER; is_primary_key := true; is_nullable := false |}.
Definition name_column : ColumnDef :=
  {| name := "name"; type := VARCHAR; is_primary_key := false; is_nullable := true |}.
Definition age_column : ColumnDef :=
  {| name := "age"; type := INTEGER; is_primary_key := false; is_nullable := true |}.

(** A second column called "id". *)
Definition text_id_column : ColumnDef :=
  {| name := "id"; type := VARCHAR; is_primary_key := false; is_nullable := true |}.

Definition users_schema : Schema :=
  add_column (add_column (add_column empty_schema id_column) name_column) age_column.

(** Another schema for the same rows: other names, types and flags. *)
Definition retyped_schema : Schema :=
  add_column (add_column empty_schema
    {| name := "key"; type := FLOAT; is_primary_key := false; is_nullable := true |})
    {| name := "label"; type := BOOLEAN; is_primary_key := true; is_nullable := false |}.

Definition neel : Row := [VInt 1; VText "Neel"; VInt 19].
Definition swati : Row := [VInt 2; VText "Swati"; VInt 21].

(** A user without a name: valid, the column is nullable. *)
Definition nameless : Row := [VInt 1; VNull; VInt 19].

(** The first commit of [main], with the given rows, before its hash is
    assigned. *)
Definition with_rows (rows : list Row) : Commit :=
  {| hash := ""; parent_hash := "";
     message := "Initial commit"; timestamp := 1703529600;
     table_data := [("users", rows)];
     table_schemas := [("users", users_schema)] |}.

Definition first : Commit := with_rows [neel].

Definition nameless_commit : Commit := with_rows [nameless].

(** The hash [main] assigns to [first]. *)
Definition first_hash : string :=
  "c50baff800c8973385f462df7c600732cf71b1c662856bdd080be16568000e28".

Definition first_retyped : Commit :=
  {| hash := ""; parent_hash := ""; message := "Initial commit";
     timestamp := 1703529600;
     table_data := [("users", [neel])];
     table_schemas := [("users", retyped_schema)] |}.

(** A user called "NULL": another valid row, which renders as [nameless]
    does. *)
Definition named_null : Row := [VInt 1; VText "NULL"; VInt 19].

(** The hash of [nameless_commit]. *)
Definition nameless_hash : string :=
  "383210d57505b682a5dcc1c8d9c52103457e76907e76bed72ee18b66dc061abc".

(** [nameless_commit], hashed, with the missing name of its row replaced
    by the text "NULL" afterwards. *)
Definition nameless_renamed : Commit :=
  {| hash := nameless_hash; parent_hash := ""; message := "Initial commit";
     timestamp := 1703529600;
     table_data := [("users", [named_null])];
     table_schemas := [("users", users_schema)] |}.

(** A table of two texts, without a primary key, and two of its rows
    that render as the same line. *)
Definition notes_schema : Schema :=
  add_column (add_column empty_schema
    {| name := "title"; type := VARCHAR; is_primary_key := false; is_nullable := true |})
    {| name := "body"; type := VARCHAR; is_primary_key := false; is_nullable := true |}.

Definition note_xy_z : Row := [VText "x,y"; VText "z"].
Definition note_x_yz : Row := [VText "x"; VText "y,z"].

Definition with_notes (rows : list Row) : Commit :=
  {| hash := ""; parent_hash := "";
     message := "Initial commit"; timestamp := 1703529600;
     table_data := [("notes", rows)];
     table_schemas := [("notes", notes_schema)] |}.

(** The first commit, hashed, with its message changed afterwards. *)
Definition first_reworded : Commit :=
  {| hash := first_hash; parent_hash := ""; message := "Initial commit!";
     timestamp := 1703529600;
     table_data := [("users", [neel])];
     table_schemas := [("users", users_schema)] |}.

(** 3.8 and 2.5 as [double]s. *)
Definition d_3_8 : double := D_finite false 8556839292003942 (-51).
Definition d_2_5 : double := D_finite false 5629499534213120 (-51).


(** 2.504 as a [double]. *)
Definition d_2_504 : double := D_finite false 5638506733467861 (-51).

(** A text of two lines. *)
Definition two_lines : string := String "a" (String Tokenizer.newline ",").

(** * Properties *)

(** ** Texts *)

Lemma append_assoc (a b c : string) : (a +:+ b) +:+ c = a +:+ (b +:+ c).
Proof.
  induction a as [|x a IH]; [reflexivity|].
  change (String x ((a +:+ b) +:+ c) = String x (a +:+ (b +:+ c))). by rewrite IH.
Qed.

Lemma append_empty_r (a : string) : a +:+ "" = a.
Proof.
  induction a as [|x a IH]; [reflexivity|].
  change (String x (a +:+ "") = String x a). by rewrite IH.
Qed.

Lemma append_cons (c : ascii) (a b : string) : String c a +:+ b = String c (a +:+ b).
Proof. reflexivity. Qed.

Lemma length_append (a b : string) :
  String.length (a +:+ b) = (String.length a + String.length b)%nat.
Proof.
  induction a as [|c a IH]; [reflexivity|]. rewrite append_cons. cbn. by rewrite IH.
Qed.

Lemma append_cancel_r (a b s : string) : a +:+ s = b +:+ s -> a = b.
Proof.
  revert b. induction a as [|c a IH]; intros [|c' b] H.
  - done.
  - apply (f_equal String.length) in H. rewrite !length_append in H.
    cbn [String.length] in H. lia.
  - apply (f_equal String.length) in H. rewrite !length_append in H.
    cbn [String.length] in H. lia.
  - rewrite !append_cons in H. injection H as -> H. f_equal. by apply IH.
Qed.

(** ** SHA-256 and the hexadecimal text: known answers *)

Example compute_hash_empty :
  compute_hash "" = "e3b0c44298fc1c149afbf4c8996fb92427ae41e4649b934ca495991b7852b855".
Proof. vm_compute. reflexivity. Qed.

Example compute_hash_abc :
  compute_hash "abc" = "ba7816bf8f01cfea414140de5dae2223b00361a396177a9cb410ff61f20015ad".
Proof. vm_compute. reflexivity. Qed.

Example compute_hash_two_blocks :
  compute_hash "abcdbcdecdefdefgefghfghighijhijkijkljklmklmnlmnomnopnopq"
  = "248d6a61d20638b8e5c026930c3e6039a33ce45964ff2167f6ecedd419db06c1".
Proof. vm_compute. reflexivity. Qed.

(** ** [value_to_string] *)

Example value_to_string_main :
  value_to_string <$> [VNull; VInt 19; VFloat d_3_8; VText "Neel"; VBool true]
  = ["NULL"; "19"; "3.80"; "Neel"; "true"].
Proof. vm_compute. reflexivity. Qed.

(** A float is rounded to two decimals on its exact value, a tie going to
    the even digit: 0.125 gives 0.12, and 0.375 gives 0.38. *)
Example fixed2_ties :
  fixed2 (D_finite false 4503599627370496 (-55)) = "0.12"
  /\ fixed2 (D_finite false 6755399441055744 (-54)) = "0.38"
  /\ fixed2 (D_finite true 5629499534213120 (-51)) = "-2.50".
Proof. vm_compute. repeat split. Qed.

(** *** The text of an integer *)

Lemma digit_of_char (k : N) :
  (k < 10)%N -> digit_of (pretty_N_char k) = Some (Z.of_N k).
Proof.
  intros Hk.
  assert (k = 0 \/ k = 1 \/ k = 2 \/ k = 3 \/ k = 4 \/ k = 5 \/ k = 6 \/ k = 7
          \/ k = 8 \/ k = 9)%N as Hcases by lia.
  repeat (destruct Hcases as [-> | Hcases]; [by vm_compute|]). subst. by vm_compute.
Qed.

Lemma read_digits_app (acc : Z) (a b : string) :
  read_digits acc (a +:+ b) = n ← read_digits acc a; read_digits n b.
Proof.
  revert acc. induction a as [|c a IH]; intros acc; [reflexivity|].
  rewrite append_cons. cbn [read_digits]. destruct (digit_of c); [apply IH|reflexivity].
Qed.

(** The digits that [pretty] puts in front of [s] spell [x]. *)
Lemma pretty_N_go_read (x : N) :
  exists d,
    (forall s, pretty_N_go x s = d +:+ s)
    /\ (forall acc, read_digits acc d
                    = Some (acc * 10 ^ Z.of_nat (String.length d) + Z.of_N x))
    /\ ((0 < x)%N -> begins_positive d).
Proof.
  induction (N.lt_wf_0 x) as [x _ IH].
  destruct (decide (x = 0)%N) as [->|Hx].
  - exists "". split; [|split].
    + intros s. by rewrite pretty_N_go_0.
    + intros acc. cbn. f_equal. lia.
    + lia.
  - destruct (IH (x `div` 10)%N) as (d & Hgo & Hval & Hpos).
    { apply N.div_lt; lia. }
    pose proof (digit_of_char (x `mod` 10)%N ltac:(apply N.mod_lt; lia)) as Hc.
    pose proof (N.div_mod x 10 ltac:(lia)) as Hdm.
    exists (d +:+ String (pretty_N_char (x `mod` 10)) ""). split; [|split].
    + intros s. rewrite pretty_N_go_step by lia. by rewrite Hgo, append_assoc.
    + intros acc. rewrite read_digits_app, Hval. cbn [mbind option_bind read_digits].
      rewrite Hc. f_equal. rewrite length_append. cbn [String.length].
      rewrite Nat2Z.inj_add, Z.pow_add_r by lia.
      change (10 ^ Z.of_nat 1) with 10.
      rewrite N2Z.inj_div, N2Z.inj_mod in *. change (Z.of_N 10) with 10 in *.
      pose proof (Z.div_mod (Z.of_N x) 10 ltac:(lia)) as Hz. clear Hdm.
      set (q := Z.of_N x `div` 10) in *. set (r := Z.of_N x `mod` 10) in *.
      clearbody q r. rewrite Hz. ring.
    + intros _. destruct (decide (x `div` 10 = 0)%N) as [Hz|Hnz].
      * rewrite Hz in Hgo. specialize (Hgo ""). rewrite pretty_N_go_0 in Hgo.
        destruct d; [|discriminate Hgo].
        exists (pretty_N_char (x `mod` 10)), "", (Z.of_N (x `mod` 10)).
        split; [reflexivity|]. split; [done|]. lia.
      * apply N.neq_0_lt_0 in Hnz.
        destruct (Hpos Hnz) as (c & r & k & -> & Hk & Hk0).
        exists c, (r +:+ String (pretty_N_char (x `mod` 10)) ""), k. done.
Qed.

Lemma digit_of_not (c : ascii) (k : Z) :
  digit_of c = Some k ->
  Ascii.eqb c "-" = false /\ Ascii.eqb c "." = false /\ (0 < k -> Ascii.eqb c "0" = false).
Proof.
  unfold digit_of, byte_of_ascii. intros H.
  destruct (Ascii.eqb_spec c "-") as [->|_]; [by vm_compute in H|].
  destruct (Ascii.eqb_spec c ".") as [->|_]; [by vm_compute in H|].
  destruct (Ascii.eqb_spec c "0") as [->|_]; [|done].
  vm_compute in H. injection H as <-. split; [done|]. split; [done|]. lia.
Qed.

Lemma split_point_digits (d r : string) (acc v : Z) :
  read_digits acc d = Some v ->
  split_point (d +:+ String "." r) = Some (d, r).
Proof.
  revert acc. induction d as [|c d IH]; intros acc H; [reflexivity|].
  rewrite append_cons. cbn [split_point read_digits] in *.
  destruct (digit_of c) as [k|] eqn:Hc; [|discriminate].
  destruct (digit_of_not c k Hc) as (_ & -> & _). by rewrite (IH _ H).
Qed.

(** The decimal text of a natural number reads as that number, has no
    sign, and ends where a point follows. *)
Lemma to_string_natural (w : Z) :
  0 <= w ->
  read_natural (to_string w) = Some w
  /\ (forall r, read_sign (to_string w +:+ r) = (false, to_string w +:+ r))
  /\ (forall r, split_point (to_string w +:+ String "." r) = Some (to_string w, r)).
Proof.
  intros Hw. unfold to_string. destruct w as [|p|p]; [by vm_compute| |lia].
  change (pretty (Z.pos p)) with (pretty (N.pos p)). unfold pretty, pretty_N.
  destruct (decide (N.pos p = 0)%N) as [E|_]; [discriminate|].
  destruct (pretty_N_go_read (N.pos p)) as (d & Hgo & Hval & Hpos).
  rewrite Hgo, append_empty_r.
  destruct (Hpos ltac:(lia)) as (c & r & k & -> & Hk & Hk0).
  destruct (digit_of_not c k Hk) as (Hminus & _ & Hzero). specialize (Hzero Hk0).
  split; [|split].
  - unfold read_natural. rewrite Hzero, Hval. destruct r; f_equal; lia.
  - intros r'. rewrite append_cons. cbn [read_sign]. by rewrite Hminus.
  - intros r'. by apply (split_point_digits _ _ 0 _ (Hval 0)).
Qed.

Lemma read_decimal_to_string (n : Z) : read_decimal (to_string n) = Some n.
Proof.
  destruct (Z.le_gt_cases 0 n) as [Hn|Hn].
  - destruct (to_string_natural n Hn) as (Hread & Hsign & _).
    unfold read_decimal. specialize (Hsign ""). rewrite append_empty_r in Hsign.
    by rewrite Hsign, Hread.
  - destruct n as [|p|p]; try lia.
    destruct (to_string_natural (Z.pos p) ltac:(lia)) as (Hread & _ & _).
    unfold to_string in *. change (pretty (Z.neg p)) with ("-" +:+ pretty (Z.pos p)).
    unfold read_decimal.
    change (read_sign ("-" +:+ pretty (Z.pos p))) with (true, pretty (Z.pos p)).
    cbn iota. by rewrite Hread.
Qed.

Lemma digit_of_inv (c : ascii) (k : Z) :
  digit_of c = Some k -> 0 <= k < 10 /\ pretty_N_char (Z.to_N k) = c.
Proof.
  destruct c as [[] [] [] [] [] [] [] []]; intros H; vm_compute in H;
    try discriminate H; injection H as <-; (split; [lia | reflexivity]).
Qed.

(** [pretty] writes the digits that [read_digits] reads. *)
Lemma read_digits_pretty (d : string) (acc v : Z) :
  read_digits acc d = Some v -> 0 < acc ->
  0 < v /\ forall s, pretty_N_go (Z.to_N v) s = pretty_N_go (Z.to_N acc) (d +:+ s).
Proof.
  revert acc. induction d as [|c d IH]; intros acc H Hacc.
  - injection H as <-. done.
  - cbn [read_digits] in H. destruct (digit_of c) as [k|] eqn:Hc; [|discriminate].
    destruct (digit_of_inv c k Hc) as [Hk Hchar].
    destruct (IH _ H ltac:(lia)) as [Hv Hgo]. split; [done|].
    intros s. rewrite Hgo, pretty_N_go_step by lia. rewrite append_cons.
    assert (Z.to_N (10 * acc + k) `div` 10 = Z.to_N acc)%N as ->.
    { apply N2Z.inj. rewrite N2Z.inj_div, !Z2N.id by lia. change (Z.of_N 10) with 10.
      symmetry. apply (Z.div_unique _ _ _ k); lia. }
    assert (Z.to_N (10 * acc + k) `mod` 10 = Z.to_N k)%N as ->.
    { apply N2Z.inj. rewrite N2Z.inj_mod, !Z2N.id by lia. change (Z.of_N 10) with 10.
      symmetry. apply (Z.mod_unique _ _ acc); lia. }
    by rewrite Hchar.
Qed.

Lemma read_natural_inv (t : string) (n : Z) :
  read_natural t = Some n -> 0 <= n /\ t = to_string n.
Proof.
  destruct t as [|c r]; [discriminate|]. intros H.
  assert (read_digits 0 (String c r) = Some n /\ (Ascii.eqb c "0" = true -> r = ""))
    as [Hread Hzero].
  { unfold read_natural in H. destruct r; [done|].
    destruct (Ascii.eqb c "0"); [discriminate|done]. }
  cbn [read_digits] in Hread. destruct (digit_of c) as [k|] eqn:Hc; [|discriminate].
  destruct (digit_of_inv c k Hc) as [Hk Hchar]. rewrite Z.mul_0_r, Z.add_0_l in Hread.
  destruct (decide (k = 0)) as [->|Hk0].
  - change (pretty_N_char (Z.to_N 0)) with "0"%char in Hchar. subst c.
    rewrite (Hzero eq_refl) in *. injection Hread as <-. done.
  - destruct (read_digits_pretty r k n Hread ltac:(lia)) as [Hn Hgo]. split; [lia|].
    unfold to_string. destruct n as [|p|p]; try lia.
    change (pretty (Z.pos p)) with (pretty (N.pos p)). unfold pretty, pretty_N.
    destruct (decide (N.pos p = 0)%N) as [E|_]; [discriminate|].
    change (N.pos p) with (Z.to_N (Z.pos p)). rewrite Hgo, append_empty_r.
    rewrite pretty_N_go_step by lia.
    assert (Z.to_N k `div` 10 = 0)%N as ->.
    { apply N.div_small. lia. }
    assert (Z.to_N k `mod` 10 = Z.to_N k)%N as ->.
    { apply N.mod_small. lia. }
    by rewrite pretty_N_go_0, Hchar.
Qed.

(** The decimal notation of an integer is the one text that reads as it. *)
Lemma read_decimal_iff (t : string) (n : Z) :
  read_decimal t = Some n <-> t = to_string n.
Proof.
  split; [|intros ->; apply read_decimal_to_string].
  unfold read_decimal, read_sign. destruct t as [|c r]; [discriminate|].
  destruct (Ascii.eqb_spec c "-") as [->|Hc].
  - destruct (read_natural r) as [m|] eqn:Hm; [|discriminate].
    destruct (Z.ltb_spec 0 m) as [Hpos|]; [|discriminate]. intros [= <-].
    apply read_natural_inv in Hm as [_ ->].
    destruct m as [|p|p]; try lia. reflexivity.
  - destruct (read_natural (String c r)) as [m|] eqn:Hm; [|discriminate].
    intros [= <-]. by apply read_natural_inv in Hm as [_ ->].
Qed.

(** *** The text of a float *)

Lemma round_half_even_nearest (num den : Z) :
  0 <= num -> 0 < den ->
  0 <= round_half_even num den
  /\ 2 * Z.abs (round_half_even num den * den - num) <= den
  /\ (2 * Z.abs (round_half_even num den * den - num) = den ->
      Z.even (round_half_even num den) = true).
Proof.
  intros Hnum Hden. unfold round_half_even.
  pose proof (Z.div_mod num den ltac:(lia)) as Hdm.
  pose proof (Z.mod_pos_bound num den Hden) as Hr.
  assert (0 <= num / den) as Hq by (apply Z.div_pos; lia).
  set (q := num / den) in *. set (r := num mod den) in *. clearbody q r.
  assert (q * den = num - r) as Hqd by lia.
  assert ((q + 1) * den = num - r + den) as Hqd1 by lia.
  destruct (Z.compare_spec (2 * r) den) as [Heq|Hlt|Hgt].
  - destruct (Z.even q) eqn:Hev.
    + rewrite Hqd. split; [lia|]. split; [lia|done].
    + rewrite Hqd1. split; [lia|]. split; [lia|]. intros _.
      rewrite Z.even_add, Hev. reflexivity.
  - rewrite Hqd. split; [lia|]. split; lia.
  - rewrite Hqd1. split; [lia|]. split; lia.
Qed.

Lemma to_string_digit (k : Z) :
  0 <= k < 10 -> exists c, to_string k = String c "" /\ digit_of c = Some k.
Proof.
  intros Hk.
  assert (k = 0 \/ k = 1 \/ k = 2 \/ k = 3 \/ k = 4 \/ k = 5 \/ k = 6 \/ k = 7
          \/ k = 8 \/ k = 9) as Hcases by lia.
  repeat (destruct Hcases as [-> | Hcases]; [eexists; split; by vm_compute|]).
  subst. eexists; split; by vm_compute.
Qed.

Lemma read_sign_text (s : bool) (u : string) :
  read_sign u = (false, u) -> read_sign (sign_text s +:+ u) = (s, u).
Proof. destruct s; [reflexivity | exact id]. Qed.

(** A sign, a natural number, a point and two digits read as the number
    of hundredths they spell. *)
Lemma read_fixed2_text (s : bool) (w f : Z) :
  0 <= w -> 0 <= f < 100 ->
  read_fixed2 (sign_text s +:+ to_string w +:+ "." +:+ two_digits f)
  = Some (s, 100 * w + f).
Proof.
  intros Hw Hf. destruct (to_string_natural w Hw) as (Hread & Hsign & Hsplit).
  destruct (to_string_digit (f / 10)) as (c1 & E1 & H1).
  { split; [apply Z.div_pos; lia | apply Z.div_lt_upper_bound; lia]. }
  destruct (to_string_digit (f mod 10)) as (c0 & E0 & H0).
  { apply Z.mod_pos_bound. lia. }
  unfold read_fixed2, two_digits. rewrite (read_sign_text s _ (Hsign _)).
  change ("." +:+ ?r) with (String "." r). rewrite Hsplit, E1, E0.
  change (String c1 "" +:+ String c0 "") with (String c1 (String c0 "")).
  rewrite Hread. cbn [read_digits]. rewrite H1, H0. do 2 f_equal.
  pose proof (Z.div_mod f 10 ltac:(lia)). lia.
Qed.

(** The text of a finite float reads as its sign and its exact value
    rounded to hundredths. *)
Lemma fixed2_finite (s : bool) (m : positive) (e : Z) :
  exists h, read_fixed2 (fixed2 (D_finite s m e)) = Some (s, h)
            /\ nearest_hundredths m e h.
Proof.
  cbn [fixed2]. cbv zeta.
  set (h := if 0 <=? e then 100 * Z.pos m * 2 ^ e
            else round_half_even (100 * Z.pos m) (2 ^ (- e))).
  assert (0 <= h /\ nearest_hundredths m e h) as [Hh Hnear].
  { unfold h, nearest_hundredths. destruct (Z.leb_spec 0 e) as [He|He].
    - rewrite Z.max_l, Z.max_r by lia. change (2 ^ 0) with 1.
      assert (0 < 2 ^ e) by (apply Z.pow_pos_nonneg; lia). split; [nia|]. split; lia.
    - rewrite Z.max_r, Z.max_l by lia. change (2 ^ 0) with 1. rewrite Z.mul_1_r.
      apply round_half_even_nearest; [lia|]. apply Z.pow_pos_nonneg; lia. }
  exists h. split; [|done].
  rewrite read_fixed2_text.
  - do 2 f_equal. pose proof (Z.div_mod h 100 ltac:(lia)). lia.
  - apply Z.div_pos; lia.
  - apply Z.mod_pos_bound. lia.
Qed.

Lemma split_point_inv (u a b : string) :
  split_point u = Some (a, b) -> u = a +:+ String "." b.
Proof.
  revert a. induction u as [|c u IH]; intros a H; [discriminate|].
  cbn [split_point] in H. destruct (Ascii.eqb_spec c ".") as [->|_].
  - by injection H as <- <-.
  - destruct (split_point u) as [[a' b']|]; [|discriminate].
    injection H as <- <-. rewrite append_cons. f_equal. by apply IH.
Qed.

Lemma to_string_char (k : Z) :
  0 <= k < 10 -> to_string k = String (pretty_N_char (Z.to_N k)) "".
Proof.
  intros Hk.
  assert (k = 0 \/ k = 1 \/ k = 2 \/ k = 3 \/ k = 4 \/ k = 5 \/ k = 6 \/ k = 7
          \/ k = 8 \/ k = 9) as Hcases by lia.
  repeat (destruct Hcases as [-> | Hcases]; [reflexivity|]). by subst.
Qed.

(** A text that reads as a number with two decimals is the sign, the
    decimal notation of the whole part, a point and the two digits. *)
Lemma read_fixed2_inv (t : string) (s : bool) (h : Z) :
  read_fixed2 t = Some (s, h) ->
  0 <= h
  /\ t = sign_text s +:+ to_string (h / 100) +:+ "." +:+ two_digits (h mod 100).
Proof.
  unfold read_fixed2. destruct (read_sign t) as [s' u] eqn:Hsign.
  destruct (split_point u) as [[whole [|d1 [|d0 [|? ?]]]]|] eqn:Hsplit; try discriminate.
  destruct (read_natural whole) as [w|] eqn:Hw; [|discriminate].
  cbn [read_digits]. destruct (digit_of d1) as [k1|] eqn:H1; [|discriminate].
  destruct (digit_of d0) as [k0|] eqn:H0; [|discriminate].
  intros [= -> <-].
  apply read_natural_inv in Hw as [Hw0 ->]. apply split_point_inv in Hsplit.
  destruct (digit_of_inv d1 k1 H1) as [Hk1 Hc1].
  destruct (digit_of_inv d0 k0 H0) as [Hk0 Hc0].
  assert ((100 * w + (10 * (10 * 0 + k1) + k0)) / 100 = w) as ->.
  { symmetry. apply (Z.div_unique _ _ _ (10 * k1 + k0)); lia. }
  assert ((100 * w + (10 * (10 * 0 + k1) + k0)) mod 100 = 10 * k1 + k0) as ->.
  { symmetry. apply (Z.mod_unique _ _ w); lia. }
  split; [lia|]. unfold two_digits.
  assert ((10 * k1 + k0) / 10 = k1) as ->.
  { symmetry. apply (Z.div_unique _ _ _ k0); lia. }
  assert ((10 * k1 + k0) mod 10 = k0) as ->.
  { symmetry. apply (Z.mod_unique _ _ k1); lia. }
  rewrite (to_string_char k1 Hk1), (to_string_char k0 Hk0), Hc1, Hc0.
  assert (t = sign_text s +:+ u) as ->.
  { unfold read_sign in Hsign. destruct t as [|c r]; [by injection Hsign as <- <-|].
    destruct (Ascii.eqb_spec c "-") as [->|_]; by injection Hsign as <- <-. }
  by rewrite Hsplit.
Qed.

(** One number of hundredths only is the rounding of [m * 2 ^ e]. *)
Lemma nearest_hundredths_unique (m : positive) (e h h' : Z) :
  nearest_hundredths m e h -> nearest_hundredths m e h' -> h = h'.
Proof.
  unfold nearest_hundredths. cbv zeta.
  set (d := 2 ^ Z.max 0 (- e)). set (n := 100 * Z.pos m * 2 ^ Z.max 0 e).
  assert (0 < d) as Hd by (apply Z.pow_pos_nonneg; lia). clearbody d n.
  assert (forall a b, a < b ->
            2 * Z.abs (a * d - n) <= d -> 2 * Z.abs (b * d - n) <= d ->
            (2 * Z.abs (a * d - n) = d -> Z.even a = true) ->
            (2 * Z.abs (b * d - n) = d -> Z.even b = true) -> False) as Hlt.
  { intros a b Hab Ha Hb Hea Heb.
    assert ((a + 1) * d <= b * d) as Hmul by (apply Z.mul_le_mono_nonneg_r; lia).
    assert (b * d = a * d + d) as Hbd by lia.
    assert (b = a + 1) as -> by nia.
    specialize (Hea ltac:(lia)). specialize (Heb ltac:(lia)).
    rewrite Z.even_add, Hea in Heb. discriminate Heb. }
  intros [H1 H2] [H1' H2'].
  destruct (Z.lt_trichotomy h h') as [Hlt'|[?|Hgt]]; [|done|].
  - destruct (Hlt h h' Hlt' H1 H1' H2 H2').
  - destruct (Hlt h' h Hgt H1' H1 H2' H2).
Qed.

(** The text of a finite float is the one text that reads as its sign
    and its exact value rounded to hundredths. *)
Lemma fixed2_finite_iff (s : bool) (m : positive) (e : Z) (t : string) :
  fixed2 (D_finite s m e) = t <->
  exists h, read_fixed2 t = Some (s, h) /\ nearest_hundredths m e h.
Proof.
  destruct (fixed2_finite s m e) as (h & Hread & Hnear). split.
  - intros <-. eauto.
  - intros (h' & Hread' & Hnear').
    rewrite (nearest_hundredths_unique m e h' h Hnear' Hnear) in Hread'.
    apply read_fixed2_inv in Hread as [_ ->]. by apply read_fixed2_inv in Hread' as [_ ->].
Qed.

(** The counterexample to C10: the text of an infinite float, and of a
    NaN, is [inf] or [nan] after the sign, which does not read as a
    number with two decimals. *)
Theorem value_to_string_not_two_decimals :
  (forall s, value_to_string (VFloat (D_infinity s)) = (if s then "-inf" else "inf")
             /\ read_fixed2 (value_to_string (VFloat (D_infinity s))) = None)
  /\ (forall s, value_to_string (VFloat (D_nan s)) = (if s then "-nan" else "nan")
                /\ read_fixed2 (value_to_string (VFloat (D_nan s))) = None).
Proof. split; intros []; split; reflexivity. Qed.

(** C10, amended. Whatever alternative a [Value] holds,
    [value_to_string] returns the text of that alternative, and its last
    [return "???"] is never reached: the result does not depend on the
    text written there. Null gives "NULL"; a text, itself; a boolean,
    "true" or "false". An integer gives its decimal notation, the one
    text that reads as the integer. A finite float gives the one text
    that reads as its sign and, with two decimals, its exact value
    rounded to the nearest hundredth, the even one on a tie; a zero
    gives 0.00 after its sign. An infinity and a NaN give [inf] and
    [nan] after their sign, not a number with two decimals. *)
Theorem value_to_string_never_falls_back :
  forall v : Value,
    (forall fallback : string, value_to_string_with fallback v = value_to_string v)
    /\ match v with
       | VNull => value_to_string v = "NULL"
       | VInt n => forall t, value_to_string v = t <-> read_decimal t = Some n
       | VFloat (D_zero s) => value_to_string v = if s then "-0.00" else "0.00"
       | VFloat (D_infinity s) => value_to_string v = if s then "-inf" else "inf"
       | VFloat (D_nan s) => value_to_string v = if s then "-nan" else "nan"
       | VFloat (D_finite s m e) =>
           forall t, value_to_string v = t <->
                     exists h, read_fixed2 t = Some (s, h) /\ nearest_hundredths m e h
       | VText s => value_to_string v = s
       | VBool b => value_to_string v = if b then "true" else "false"
       end.
Proof.
  intros v. split; [by destruct v|].
  destruct v as [|n|[[]|[]|[]|s m e]|s|b]; try reflexivity.
  - intros t. rewrite read_decimal_iff. split; [by intros <- | by intros ->].
  - apply fixed2_finite_iff.
Qed.

(** ** [values_equal] *)

Lemma SFcompare_refl (x : spec_float) : x <> S754_nan -> SFcompare x x = Some Eq.
Proof.
  destruct x as [s| s| |s m e]; simpl; intros Hx; try congruence.
  - destruct s; reflexivity.
  - change (Pos.compare_cont Eq m m) with (Pos.compare m m).
    rewrite Z.compare_refl, Pos.compare_refl. destruct s; reflexivity.
Qed.

Lemma SFcompare_Eq (x y : spec_float) :
  SFcompare x y = Some Eq ->
  x = y \/ exists s s', x = S754_zero s /\ y = S754_zero s'.
Proof.
  destruct x as [[]|[]| |[] m1 e1], y as [[]|[]| |[] m2 e2]; simpl;
    try discriminate; eauto;
    change (Pos.compare_cont Eq m1 m2) with (Pos.compare m1 m2);
    destruct (Z.compare_spec e1 e2); try discriminate;
    destruct (Pos.compare_spec m1 m2); try discriminate; subst; auto.
Qed.

Lemma number_inj (x y : double) : number x = number y -> is_nan x = false -> x = y.
Proof. destruct x, y; simpl; intros H Hx; congruence. Qed.

Lemma number_double_of (x : spec_float) : number (double_of x) = x.
Proof. by destruct x. Qed.

(** [==] on [double]s is the equality of IEEE 754: a NaN equals nothing,
    not even itself, and the two zeros are equal; otherwise two
    [double]s are equal when they are the same. *)
Lemma double_eq_true (x y : double) :
  double_eq x y = true <->
  is_nan x = false /\
  (x = y \/ exists s s', x = D_zero s /\ y = D_zero s').
Proof.
  unfold double_eq, SFeqb. split.
  - destruct (SFcompare (number x) (number y)) as [[]|] eqn:Hc; try discriminate.
    intros _. assert (is_nan x = false) as Hx by (by destruct x).
    split; [done|]. apply SFcompare_Eq in Hc as [Hc|(s & s' & Hs & Hs')].
    + left. by apply number_inj.
    + right. exists s, s'. destruct x, y; simpl in *; try discriminate. split; congruence.
  - intros [Hx [<-|(s & s' & -> & ->)]]; [|reflexivity].
    rewrite SFcompare_refl; [done|]. by destruct x.
Qed.

(** The counterexample to C7: a NaN is not equal to itself, and minus
    zero and zero, two different floats (they render as -0.00 and 0.00),
    are equal. *)
Theorem values_equal_not_structural :
  (forall s, values_equal (VFloat (D_nan s)) (VFloat (D_nan s)) = false)
  /\ VFloat (D_zero true) <> VFloat (D_zero false)
  /\ value_to_string (VFloat (D_zero true)) <> value_to_string (VFloat (D_zero false))
  /\ values_equal (VFloat (D_zero true)) (VFloat (D_zero false)) = true.
Proof. split; [reflexivity|]. split; [discriminate|]. split; [discriminate|reflexivity]. Qed.

(** C7, amended. [values_equal a b] is false as soon as one operand is
    Null (Null against Null included), and false when the two operands
    hold different alternatives. When [a] holds an integer, a text or a
    boolean, it is true exactly when [b] is the same value. Two floats
    are compared with [==], which is not the identity of floats: it
    holds of two identical floats other than NaN, and of two zeros of
    whatever signs. *)
Theorem values_equal_spec (a b : Value) :
  values_equal VNull b = false
  /\ values_equal a VNull = false
  /\ (index a <> index b -> values_equal a b = false)
  /\ (a <> VNull -> holds_double a = false -> (values_equal a b = true <-> a = b))
  /\ (forall x y : double,
        values_equal (VFloat x) (VFloat y) = true <->
        is_nan x = false /\ (x = y \/ exists s s', x = D_zero s /\ y = D_zero s')).
Proof.
  split; [reflexivity|]. split; [by destruct a|]. split; [|split].
  - destruct a, b; simpl; intros H; try reflexivity; congruence.
  - intros Ha Hf.
    destruct a as [|x|f|s|p], b as [|y|g|t|q]; unfold values_equal; simpl;
      try done.
    + rewrite Z.eqb_eq. split; congruence.
    + rewrite String.eqb_eq. split; congruence.
    + destruct p, q; simpl; split; congruence.
  - exact double_eq_true.
Qed.

Lemma values_equal_spec_witness :
  index (VInt 1) <> index (VText "1") /\ values_equal (VInt 1) (VText "1") = false.
Proof.
  assert (index (VInt 1) <> index (VText "1")) as H by discriminate.
  split; [exact H|].
  exact (proj1 (proj2 (proj2 (values_equal_spec (VInt 1) (VText "1")))) H).
Defined.

(** ** [value_less_than] *)

(** *** Right shifts and rounding in [binary_normalize] *)


















(** *** The order of [double]s *)






(** *** [static_cast<double>] of an [int64_t] is monotone *)








(** Beyond 53 bits the conversion rounds: 2^53 + 1 becomes 2^53. *)
Example double_of_int64_rounds :
  double_of_int64 9007199254740993 = double_of_int64 9007199254740992
  /\ double_of_int64 (- 2 ^ 63) = D_finite true 4503599627370496 11.
Proof. by vm_compute. Qed.

(** *** The order of [std::string]s *)

Lemma string_compare_refl (s : string) : String.compare s s = Eq.
Proof.
  pose proof (String.compare_antisym s s) as H.
  destruct (String.compare s s); simpl in H; congruence.
Qed.

Lemma string_lt_le (s t : string) :
  string_lt s t = true <-> String.le s t /\ s <> t.
Proof.
  unfold string_lt, String.ltb, String.le, String.leb.
  destruct (String.compare s t) eqn:Hc; simpl.
  - apply String.compare_eq_iff in Hc. split; [discriminate | tauto].
  - split; [|done]. intros _. split; [done|]. intros ->.
    by rewrite string_compare_refl in Hc.
  - split; [discriminate | tauto].
Qed.

Lemma string_lt_irrefl (s : string) : string_lt s s = false.
Proof. apply not_true_is_false. rewrite string_lt_le. tauto. Qed.

Lemma string_lt_trans (s t u : string) :
  string_lt s t = true -> string_lt t u = true -> string_lt s u = true.
Proof.
  rewrite !string_lt_le. intros [Hst Hne] [Htu Hne']. split.
  - by etrans.
  - intros ->. apply Hne. by apply (anti_symm String.le).
Qed.

Lemma string_lt_asym (s t : string) : string_lt s t = true -> string_lt t s = false.
Proof.
  intros Hst. apply not_true_is_false. intros Hts.
  pose proof (string_lt_trans _ _ _ Hst Hts) as H. by rewrite string_lt_irrefl in H.
Qed.




(** *** [value_less_than] is a strict order *)

Lemma value_less_than_cases (a b : Value) :
  value_less_than a b =
  match a, b with
  | VNull, _ => false
  | _, VNull => true
  | VInt x, VInt y => x <? y
  | VFloat x, VFloat y => double_lt x y
  | VInt x, VFloat y => double_lt (double_of_int64 x) y
  | VFloat x, VInt y => double_lt x (double_of_int64 y)
  | VText s, VText t => string_lt s t
  | VBool p, VBool q => negb p && q
  | _, _ => (index a <? index b)%nat
  end.
Proof. destruct a, b; reflexivity. Qed.








(** ** Schemas *)

Lemma add_column_appends (s : Schema) (c : ColumnDef) :
  columns_ (add_column s c) = columns_ s ++ [c]
  /\ get_column_index (add_column s c) (name c) = Some (num_columns s)
  /\ add_column s c <> s.
Proof.
  split; [reflexivity|]. split.
  - unfold get_column_index. simpl. apply lookup_insert_eq.
  - intros H. apply (f_equal (fun x => length (columns_ x))) in H. simpl in H.
    rewrite length_app in H. simpl in H. lia.
Qed.

(** C1. [add_column] has no result through which to reject a column, and
    does not look for the name: it always appends the column, points
    the name to the new position and so changes the schema. With a
    column "id" in the schema, adding another column "id" leaves both
    columns in the list and makes the name point to the second. *)
Theorem add_column_duplicate_name :
  (forall s c,
     columns_ (add_column s c) = columns_ s ++ [c]
     /\ get_column_index (add_column s c) (name c) = Some (num_columns s)
     /\ add_column s c <> s)
  /\ let s := add_column empty_schema id_column in
     let s' := add_column s text_id_column in
     has_column s (name text_id_column) = true
     /\ s' <> s
     /\ columns_ s' = [id_column; text_id_column]
     /\ get_column_index s "id" = Some 0%nat
     /\ get_column_index s' "id" = Some 1%nat
     /\ get_column s' "id" = Some text_id_column.
Proof.
  split; [exact add_column_appends|].
  intros s s'. split; [by vm_compute|]. split; [apply add_column_appends|].
  split; [reflexivity|]. split; [by vm_compute|]. split; by vm_compute.
Qed.

Lemma is_empty_true (s : string) : is_empty s = true <-> s = "".
Proof. unfold is_empty. apply String.eqb_eq. Qed.

Lemma validate_empty_iff (c : ColumnDef) (v : Value) :
  validate c v = "" <-> satisfies c v = true.
Proof.
  unfold validate.
  destruct c as [n [] pk []], v; simpl; split; intros H;
    try reflexivity; try discriminate; try (by vm_compute in H).
Qed.

Lemma validate_cells_first_error (columns : list ColumnDef) (row : Row) (n i : nat) :
  length columns = (i + n)%nat -> length row = (i + n)%nat ->
  validate_cells columns row i n
  = first_error (zip_with validate (drop i columns) (drop i row)).
Proof.
  revert i. induction n as [|n IH]; intros i Hc Hr.
  - rewrite !drop_ge by lia. reflexivity.
  - simpl.
    destruct (lookup_lt_is_Some_2 columns i) as [c Hci]; [lia|].
    destruct (lookup_lt_is_Some_2 row i) as [v Hvi]; [lia|].
    rewrite Hci, Hvi.
    rewrite (drop_S _ _ _ Hci), (drop_S _ _ _ Hvi). simpl.
    destruct (is_empty (validate c v)); simpl; [|reflexivity].
    apply IH; lia.
Qed.

Lemma first_error_empty (columns : list ColumnDef) (row : Row) :
  length row = length columns ->
  first_error (zip_with validate columns row) = "" <->
  Forall2 (fun c v => satisfies c v = true) columns row.
Proof.
  revert row. induction columns as [|c cs IH]; intros [|v vs] Hlen; simpl in *; try lia.
  - split; [constructor | reflexivity].
  - destruct (is_empty (validate c v)) eqn:He.
    + apply is_empty_true in He. rewrite IH by lia. split.
      * intros H. constructor; [by apply validate_empty_iff | done].
      * intros H. by inversion H.
    + split.
      * intros H. apply is_empty_true in H. congruence.
      * intros H. inversion H; subst.
        assert (validate c v = "") as Hv by (by apply validate_empty_iff).
        apply is_empty_true in Hv. congruence.
Qed.

Lemma first_error_at (errors : list string) (i : nat) (e : string) :
  errors !! i = Some e -> e <> "" ->
  (forall j e', (j < i)%nat -> errors !! j = Some e' -> e' = "") ->
  first_error errors = e.
Proof.
  revert i. induction errors as [|x rest IH]; intros [|i] Hi He Hbefore; simpl in *;
    try discriminate.
  - injection Hi as ->. destruct (is_empty e) eqn:H; [|reflexivity].
    apply is_empty_true in H. contradiction.
  - rewrite (Hbefore 0%nat x) by (lia || reflexivity). simpl.
    apply (IH i); auto. intros j e' Hj Hl. apply (Hbefore (S j)); [lia | done].
Qed.

Example validate_row_main :
  validate_row users_schema neel = ""
  /\ validate_row users_schema [VInt 1; VText "Neel"] = "Expected 3 columns, got 2"
  /\ validate_row users_schema [VNull; VInt 7; VInt 19] = "Column 'id' cannot be NULL".
Proof. by vm_compute. Qed.

(** C8. [validate_row] returns the empty string exactly when the row has
    as many cells as the schema has columns and every cell fits its
    column ([satisfies]: Null only in a nullable column, an integer in an
    INTEGER, FLOAT or TIMESTAMP column, a float in a FLOAT column, a
    text in a VARCHAR column, a boolean in a BOOLEAN column). Otherwise
    it returns the message about the number of columns or, when the
    number is right, the message of the first cell, from the left, that
    does not fit. *)
Theorem validate_row_spec (s : Schema) (row : Row) :
  (validate_row s row = "" <->
     length row = num_columns s
     /\ Forall2 (fun c v => satisfies c v = true) (columns_ s) row)
  /\ validate_row s row =
       (if bool_decide (length row = num_columns s)
        then first_error (zip_with validate (columns_ s) row)
        else count_error s row)
  /\ (forall i c v,
        length row = num_columns s ->
        columns_ s !! i = Some c -> row !! i = Some v -> validate c v <> "" ->
        (forall j c' v', (j < i)%nat -> columns_ s !! j = Some c' -> row !! j = Some v' ->
                         validate c' v' = "") ->
        validate_row s row = validate c v).
Proof.
  assert (validate_row s row =
       (if bool_decide (length row = num_columns s)
        then first_error (zip_with validate (columns_ s) row)
        else count_error s row)) as Hrow.
  { unfold validate_row, num_columns. case_bool_decide as Hlen.
    - rewrite Hlen, Nat.eqb_refl. simpl.
      rewrite <- Hlen. rewrite validate_cells_first_error by (simpl; lia).
      reflexivity.
    - apply Nat.eqb_neq in Hlen. rewrite Hlen. reflexivity. }
  split; [|split; [exact Hrow|]].
  - rewrite Hrow. case_bool_decide as Hlen.
    + rewrite first_error_empty by done. tauto.
    + split; [discriminate | tauto].
  - intros i c v Hlen Hc Hv Hne Hbefore. rewrite Hrow.
    rewrite bool_decide_eq_true_2 by done.
    apply (first_error_at _ i); [|done|].
    + rewrite lookup_zip_with, Hc. simpl. by rewrite Hv.
    + intros j e' Hj. rewrite lookup_zip_with.
      destruct (columns_ s !! j) as [c'|] eqn:Hc'; [|discriminate]. simpl.
      destruct (row !! j) as [v'|] eqn:Hv'; [|discriminate]. simpl.
      intros [= <-]. by apply (Hbefore j).
Qed.

Lemma validate_row_spec_witness :
  validate_row users_schema [VInt 1; VInt 3; VText "x"]
  = "Column 'name' expects VARCHAR, got wrong type".
Proof.
  apply (proj2 (proj2 (validate_row_spec users_schema [VInt 1; VInt 3; VText "x"]))
           1%nat name_column (VInt 3)); try reflexivity.
  - discriminate.
  - intros [|j] c' v' Hj; [|lia]. intros [= <-] [= <-]. reflexivity.
Defined.

(** ** Commits *)

(** *** The stream and the canonical text *)

Lemma concat_empty_cons (x : string) (xs : list string) :
  String.concat "" (x :: xs) = x +:+ String.concat "" xs.
Proof. destruct xs; simpl; [by rewrite append_empty_r | reflexivity]. Qed.

Lemma concat_sep_cons (sep x y : string) (ys : list string) :
  String.concat sep (x :: y :: ys) = x +:+ sep +:+ String.concat sep (y :: ys).
Proof. reflexivity. Qed.

Lemma write_cells_text (cells : list Value) (oss : string) (i : nat) :
  write_cells oss cells i
  = oss +:+ match cells with
            | [] => ""
            | _ => (if (0 <? i)%nat then "," else "")
                     +:+ String.concat "," (value_to_string <$> cells)
            end.
Proof.
  revert oss i. induction cells as [|v rest IH]; intros oss i.
  - simpl. by rewrite append_empty_r.
  - cbn [write_cells]. rewrite IH. cbn [Nat.ltb Nat.leb].
    destruct rest as [|v' rest].
    + simpl. rewrite append_empty_r. destruct i; by rewrite ?append_assoc.
    + rewrite !fmap_cons, concat_sep_cons.
      destruct i; by rewrite ?append_assoc.
Qed.

Lemma write_row_text (oss : string) (row : Row) :
  write_row oss row = oss +:+ row_line row.
Proof.
  unfold write_row, row_line. rewrite write_cells_text.
  destruct row as [|v rest]; [by rewrite !append_assoc|].
  change (0 <? 0)%nat with false. by rewrite !append_assoc.
Qed.

Lemma write_rows_text (rows : list Row) (oss : string) :
  fold_left write_row rows oss = oss +:+ String.concat "" (row_line <$> rows).
Proof.
  revert oss. induction rows as [|r rows IH]; intros oss.
  - simpl. by rewrite append_empty_r.
  - rewrite fmap_cons, concat_empty_cons. simpl. rewrite IH, write_row_text.
    apply append_assoc.
Qed.

Lemma write_table_none (data : list (string * list Row)) (names : list string) :
  fold_left (write_table data) names None = None.
Proof. induction names; simpl; auto. Qed.

Lemma write_tables_text (data : list (string * list Row)) (names : list string) (oss : string) :
  Forall (fun n => is_Some (um_at data n)) names ->
  fold_left (write_table data) names (Some oss)
  = Some (oss +:+ String.concat "" (table_lines data <$> names)).
Proof.
  intros H. revert oss. induction H as [|n names [rows Hn] _ IH]; intros oss.
  - simpl. by rewrite append_empty_r.
  - rewrite fmap_cons, concat_empty_cons. cbn [fold_left].
    unfold write_table at 2. simpl. rewrite Hn. simpl.
    rewrite IH. f_equal. unfold table_lines at 2. rewrite Hn. simpl.
    rewrite write_rows_text. by rewrite !append_assoc.
Qed.

(** *** Maps as lists of entries *)

Lemma um_at_Some_elem {V} (m : list (string * V)) (k : string) (v : V) :
  um_at m k = Some v -> (k, v) ∈ m.
Proof.
  induction m as [|[k' v'] m IH]; simpl; [discriminate|].
  destruct (String.eqb_spec k' k) as [->|Hne].
  - intros [= ->]. left.
  - intros H. right. auto.
Qed.

Lemma um_at_elem {V} (m : list (string * V)) (k : string) (v : V) :
  um_wf m -> (k, v) ∈ m -> um_at m k = Some v.
Proof.
  unfold um_wf, um_keys. induction m as [|[k' v'] m IH]; simpl; intros Hnd Hin.
  - by apply elem_of_nil in Hin.
  - apply NoDup_cons in Hnd as [Hk' Hnd].
    apply elem_of_cons in Hin as [[= -> ->]|Hin].
    + by rewrite String.eqb_refl.
    + destruct (String.eqb_spec k' k) as [->|Hne]; [|auto].
      exfalso. apply Hk'. apply list_elem_of_fmap. by exists (k, v).
Qed.

Lemma um_at_key {V} (m : list (string * V)) (k : string) :
  k ∈ um_keys m -> is_Some (um_at m k).
Proof.
  unfold um_keys. induction m as [|[k' v'] m IH]; simpl; intros Hin.
  - by apply elem_of_nil in Hin.
  - destruct (String.eqb_spec k' k) as [->|Hne]; [eauto|].
    apply elem_of_cons in Hin as [->|Hin]; [done | auto].
Qed.

Lemma um_at_None {V} (m : list (string * V)) (k : string) :
  k ∉ um_keys m -> um_at m k = None.
Proof.
  intros Hk. destruct (um_at m k) as [v|] eqn:H; [|done].
  exfalso. apply Hk. apply um_at_Some_elem in H.
  apply list_elem_of_fmap. by exists (k, v).
Qed.

Lemma um_at_Permutation {V} (m m' : list (string * V)) (k : string) :
  um_wf m -> m ≡ₚ m' -> um_at m k = um_at m' k.
Proof.
  intros Hwf Hp.
  assert (um_wf m') as Hwf' by (unfold um_wf, um_keys in *; by rewrite <- Hp).
  destruct (um_at m k) as [v|] eqn:H.
  - symmetry. apply um_at_elem; [done|]. rewrite <- Hp. by apply um_at_Some_elem.
  - destruct (um_at m' k) as [v|] eqn:H'; [|done].
    apply um_at_Some_elem in H'. rewrite <- Hp in H'.
    apply um_at_elem in H'; [congruence | done].
Qed.

Lemma um_wf_NoDup {V} (m : list (string * V)) : um_wf m -> NoDup m.
Proof. unfold um_wf, um_keys. apply NoDup_fmap_1. Qed.

(** Two maps with the same entries are the same list up to the order of
    iteration. *)
Lemma um_ext {V} (m m' : list (string * V)) :
  um_wf m -> um_wf m' -> (forall k, um_at m k = um_at m' k) -> m ≡ₚ m'.
Proof.
  intros Hwf Hwf' Hsame. apply NoDup_Permutation; [by apply um_wf_NoDup..|].
  intros [k v]. split; intros Hin.
  - apply um_at_Some_elem. rewrite <- Hsame. by apply um_at_elem.
  - apply um_at_Some_elem. rewrite Hsame. by apply um_at_elem.
Qed.

Lemma um_at_assign {V} (m : list (string * V)) (k k' : string) (v : V) :
  um_at (um_assign m k v) k' = if String.eqb k k' then Some v else um_at m k'.
Proof.
  induction m as [|[k0 v0] m IH]; simpl.
  - done.
  - destruct (String.eqb_spec k0 k) as [->|Hne]; simpl.
    + destruct (String.eqb_spec k k'); done.
    + rewrite IH. destruct (String.eqb_spec k0 k') as [->|?]; [|done].
      destruct (String.eqb_spec k k'); [congruence | done].
Qed.

Lemma um_keys_assign {V} (m : list (string * V)) (k : string) (v : V) :
  um_keys (um_assign m k v)
  = if bool_decide (k ∈ um_keys m) then um_keys m else um_keys m ++ [k].
Proof.
  unfold um_keys. induction m as [|[k0 v0] m IH].
  - case_bool_decide as Hin; [by apply elem_of_nil in Hin | done].
  - cbn [um_assign]. destruct (String.eqb_spec k0 k) as [->|Hne].
    + rewrite bool_decide_eq_true_2; [done | left].
    + rewrite !fmap_cons, IH. cbn [fst].
      case_bool_decide as Hin.
      * rewrite bool_decide_eq_true_2; [done | by right].
      * rewrite bool_decide_eq_false_2; [done|].
        intros [?|?]%elem_of_cons; [congruence | done].
Qed.

Lemma um_wf_assign {V} (m : list (string * V)) (k : string) (v : V) :
  um_wf m -> um_wf (um_assign m k v).
Proof.
  unfold um_wf. rewrite um_keys_assign. intros Hwf. case_bool_decide as Hin; [done|].
  apply NoDup_app. split; [done|]. split.
  - intros x Hx [->|?%elem_of_nil]%elem_of_cons; done.
  - apply NoDup_singleton.
Qed.

Lemma um_assign_order {V} (m : list (string * V)) (k1 k2 : string) (v1 v2 : V) :
  k1 <> k2 ->
  forall k, um_at (um_assign (um_assign m k1 v1) k2 v2) k
            = um_at (um_assign (um_assign m k2 v2) k1 v1) k.
Proof.
  intros Hne k. rewrite !um_at_assign.
  destruct (String.eqb_spec k2 k), (String.eqb_spec k1 k); congruence.
Qed.

Lemma um_at_middle {V} (pre post : list (string * V)) (n : string) (v : V) :
  n ∉ um_keys pre -> um_at (pre ++ (n, v) :: post) n = Some v.
Proof.
  unfold um_keys. induction pre as [|[k w] pre IH]; simpl; intros Hn.
  - by rewrite String.eqb_refl.
  - destruct (String.eqb_spec k n) as [->|?]; [|apply IH].
    + exfalso. apply Hn. left.
    + intros ?. apply Hn. by right.
Qed.

Lemma um_at_other {V} (pre post : list (string * V)) (n n' : string) (v v' : V) :
  n' <> n -> um_at (pre ++ (n, v) :: post) n' = um_at (pre ++ (n, v') :: post) n'.
Proof.
  intros Hne. induction pre as [|[k w] pre IH]; simpl.
  - destruct (String.eqb_spec n n'); [congruence | done].
  - by rewrite IH.
Qed.

(** *** Sorting the table names *)

Lemma insert_ascending_Permutation (n : string) (names : list string) :
  insert_ascending n names ≡ₚ n :: names.
Proof.
  induction names as [|m rest IH]; simpl; [done|].
  destruct (String.leb n m); [done|]. rewrite IH. apply Permutation_swap.
Qed.

Lemma ascending_Permutation (names : list string) : ascending names ≡ₚ names.
Proof.
  induction names as [|n rest IH]; simpl; [done|].
  rewrite insert_ascending_Permutation. by f_equiv.
Qed.

Lemma insert_ascending_Sorted (n : string) (names : list string) :
  Sorted String.le names -> Sorted String.le (insert_ascending n names).
Proof.
  induction names as [|m rest IH]; simpl; intros Hs.
  - repeat constructor.
  - destruct (String.leb n m) eqn:Hnm.
    + constructor; [done|]. constructor. unfold String.le. by rewrite Hnm.
    + apply Sorted_inv in Hs as [Hs Hhd]. constructor; [auto|].
      assert (String.le m n) as Hmn.
      { destruct (total String.le m n) as [?|Hle]; [done|].
        unfold String.le in Hle. by rewrite Hnm in Hle. }
      destruct rest as [|m' rest]; simpl.
      * by constructor.
      * destruct (String.leb n m'); constructor; [done|].
        by apply HdRel_inv in Hhd.
Qed.

Lemma ascending_Sorted (names : list string) : Sorted String.le (ascending names).
Proof.
  induction names as [|n rest IH]; simpl; [constructor|].
  by apply insert_ascending_Sorted.
Qed.

Lemma sort_names_ascending (names : list string) : sort_names names = ascending names.
Proof.
  apply (Sorted_unique String.le).
  - apply Sorted_merge_sort, _.
  - apply ascending_Sorted.
  - unfold sort_names. by rewrite merge_sort_Permutation, ascending_Permutation.
Qed.

Lemma ascending_Permutation_eq (l l' : list string) : l ≡ₚ l' -> ascending l = ascending l'.
Proof.
  intros Hp. apply (Sorted_unique String.le); try apply ascending_Sorted.
  by rewrite !ascending_Permutation.
Qed.

Lemma ascending_keys_found (data : list (string * list Row)) :
  Forall (fun n => is_Some (um_at data n)) (ascending (um_keys data)).
Proof.
  apply Forall_forall. intros n Hn. rewrite ascending_Permutation in Hn.
  by apply um_at_key.
Qed.

Lemma ascending_NoDup (names : list string) : NoDup names -> NoDup (ascending names).
Proof. intros H. by rewrite ascending_Permutation. Qed.

(** *** The commit hash *)

Example compute_commit_hash_first :
  compute_commit_hash first = Some first_hash.
Proof. by vm_compute. Qed.

Example canonicalize_first :
  canonicalize first
  = "parent:" +:+ nl +:+ "message:Initial commit" +:+ nl
    +:+ "timestamp:1703529600" +:+ nl
    +:+ "table:users" +:+ nl +:+ "row:1,Neel,19" +:+ nl.
Proof. by vm_compute. Qed.

(** The stream written by [compute_commit_hash] is the canonical text. *)
Lemma compute_commit_hash_text (c : Commit) :
  compute_commit_hash c = Some (compute_hash (canonicalize c)).
Proof.
  unfold compute_commit_hash, canonicalize.
  rewrite sort_names_ascending.
  rewrite write_tables_text by apply ascending_keys_found.
  simpl. by rewrite !append_assoc.
Qed.


Lemma canonicalize_Permutation (c1 c2 : Commit) :
  parent_hash c1 = parent_hash c2 -> message c1 = message c2 ->
  timestamp c1 = timestamp c2 ->
  um_wf (table_data c1) -> table_data c1 ≡ₚ table_data c2 ->
  canonicalize c1 = canonicalize c2.
Proof.
  intros Hp Hm Ht Hwf Hd. unfold canonicalize. rewrite Hp, Hm, Ht.
  do 9 f_equal.
  assert (ascending (um_keys (table_data c1)) = ascending (um_keys (table_data c2))) as ->.
  { apply ascending_Permutation_eq. unfold um_keys. by rewrite Hd. }
  f_equal. apply list_fmap_ext. intros _ n _. unfold table_lines.
  by rewrite (um_at_Permutation _ _ n Hwf Hd).
Qed.

Lemma compute_commit_hash_same_tables (c1 c2 : Commit) :
  parent_hash c1 = parent_hash c2 -> message c1 = message c2 ->
  timestamp c1 = timestamp c2 ->
  um_wf (table_data c1) -> um_wf (table_data c2) ->
  (forall n, um_at (table_data c1) n = um_at (table_data c2) n) ->
  compute_commit_hash c1 = compute_commit_hash c2.
Proof.
  intros Hp Hm Ht Hwf1 Hwf2 Hsame. rewrite !compute_commit_hash_text.
  do 2 f_equal. apply canonicalize_Permutation; try done. by apply um_ext.
Qed.

(** C3. Two commits with the same parent hash, message, timestamp and
    table data have the same canonical text and the same hash, whatever
    their table schemas are. *)
Theorem commit_hash_ignores_schemas (c1 c2 : Commit) :
  parent_hash c1 = parent_hash c2 -> message c1 = message c2 ->
  timestamp c1 = timestamp c2 -> table_data c1 = table_data c2 ->
  canonicalize c1 = canonicalize c2
  /\ compute_commit_hash c1 = compute_commit_hash c2.
Proof.
  intros Hp Hm Ht Hd.
  assert (canonicalize c1 = canonicalize c2) as Hc.
  { unfold canonicalize. by rewrite Hp, Hm, Ht, Hd. }
  split; [done|]. by rewrite !compute_commit_hash_text, Hc.
Qed.

Lemma commit_hash_ignores_schemas_witness :
  table_schemas first <> table_schemas first_retyped
  /\ compute_commit_hash first = compute_commit_hash first_retyped.
Proof.
  split; [by vm_compute|].
  apply (commit_hash_ignores_schemas first first_retyped); reflexivity.
Defined.

(** *** Rows and lines *)

Lemma no_nl_app (a b : string) : no_nl (a +:+ b) = no_nl a && no_nl b.
Proof.
  induction a as [|c a IH]; [reflexivity|].
  change (no_nl (String c (a +:+ b)) = no_nl (String c a) && no_nl b).
  simpl. rewrite IH. by rewrite andb_assoc.
Qed.

Lemma first_line_inj (b1 b2 r1 r2 : string) :
  no_nl b1 = true -> no_nl b2 = true ->
  b1 +:+ nl +:+ r1 = b2 +:+ nl +:+ r2 -> b1 = b2 /\ r1 = r2.
Proof.
  revert b2. induction b1 as [|c b1 IH]; intros [|c' b2] H1 H2 Heq.
  - by injection Heq.
  - injection Heq as <- _. simpl in H2. discriminate.
  - injection Heq as -> _. simpl in H1. discriminate.
  - injection Heq as -> Heq. simpl in H1, H2.
    apply andb_true_iff in H1 as [_ H1]. apply andb_true_iff in H2 as [_ H2].
    destruct (IH b2 H1 H2 Heq) as [-> ->]. done.
Qed.

Lemma no_nl_cells (row : Row) :
  clean_row row -> no_nl (String.concat "," (value_to_string <$> row)) = true.
Proof.
  induction 1 as [|v row Hv Hrow IH]; [reflexivity|].
  destruct row as [|v' row]; [exact Hv|].
  rewrite !fmap_cons, concat_sep_cons, !no_nl_app, Hv.
  rewrite !fmap_cons in IH. by rewrite IH.
Qed.

Lemma row_lines_inj (rows1 rows2 : list Row) (s1 s2 : string) :
  length rows1 = length rows2 ->
  Forall clean_row rows1 -> Forall clean_row rows2 ->
  String.concat "" (row_line <$> rows1) +:+ s1
  = String.concat "" (row_line <$> rows2) +:+ s2 ->
  row_line <$> rows1 = row_line <$> rows2.
Proof.
  revert rows2. induction rows1 as [|r1 rows1 IH]; intros [|r2 rows2] Hlen H1 H2 Heq;
    simpl in Hlen; try lia; [done|].
  apply Forall_cons in H1 as [Hr1 H1]. apply Forall_cons in H2 as [Hr2 H2].
  rewrite !fmap_cons, !concat_empty_cons in Heq. unfold row_line at 1 3 in Heq.
  rewrite !append_assoc in Heq.
  apply (inj (String.app "row:")) in Heq.
  apply first_line_inj in Heq as [Hcells Hrest]; [|by apply no_nl_cells..].
  rewrite !fmap_cons. f_equal.
  - unfold row_line. by rewrite Hcells.
  - apply IH; [lia|done|done|done].
Qed.

Lemma table_lines_inj (f g : string -> string) (n : string) (names : list string) :
  NoDup names -> n ∈ names -> (forall n', n' <> n -> f n' = g n') ->
  String.concat "" (f <$> names) = String.concat "" (g <$> names) ->
  exists rest, f n +:+ rest = g n +:+ rest.
Proof.
  intros Hnd Hin Hother. induction names as [|m names IH]; [by apply elem_of_nil in Hin|].
  apply NoDup_cons in Hnd as [Hm Hnd].
  rewrite !fmap_cons, !concat_empty_cons. intros Heq.
  destruct (decide (m = n)) as [->|Hne].
  - assert (f <$> names = g <$> names) as Hsame.
    { apply list_fmap_ext. intros i n' Hn'. apply Hother. intros Hnn.
      apply Hm. rewrite <- Hnn. by eapply list_elem_of_lookup_2. }
    rewrite Hsame in Heq. eauto.
  - rewrite (Hother m Hne) in Heq. apply (inj (String.app (g m))) in Heq.
    apply IH; [done| |done]. apply elem_of_cons in Hin as [?|?]; [congruence | done].
Qed.

(** Permuting the rows of one table changes the canonical text exactly
    when it changes the sequence of the lines of the rows, provided no
    cell renders with a line feed. *)
Lemma row_order_canonical (c1 c2 : Commit) (pre post : list (string * list Row))
    (n : string) (rows1 rows2 : list Row) :
  parent_hash c1 = parent_hash c2 -> message c1 = message c2 ->
  timestamp c1 = timestamp c2 ->
  table_data c1 = pre ++ (n, rows1) :: post ->
  table_data c2 = pre ++ (n, rows2) :: post ->
  um_wf (table_data c1) ->
  rows1 ≡ₚ rows2 -> Forall clean_row rows1 ->
  canonicalize c1 = canonicalize c2 <-> row_line <$> rows1 = row_line <$> rows2.
Proof.
  intros Hp Hm Ht Hd1 Hd2 Hwf Hperm Hclean.
  assert (um_keys (table_data c1) = um_keys (table_data c2)) as Hkeys.
  { unfold um_keys. rewrite Hd1, Hd2, !fmap_app. done. }
  assert (n ∉ um_keys pre) as Hpre.
  { unfold um_wf, um_keys in *. rewrite Hd1, fmap_app in Hwf.
    apply NoDup_app in Hwf as (_ & Hwf & _). intros Hn. apply (Hwf n Hn). left. }
  assert (forall n', n' <> n ->
            table_lines (table_data c1) n' = table_lines (table_data c2) n') as Hother.
  { intros n' Hne. unfold table_lines. rewrite Hd1, Hd2.
    by rewrite (um_at_other pre post n n' rows1 rows2). }
  assert (forall c rows, table_data c = pre ++ (n, rows) :: post ->
            table_lines (table_data c) n
            = "table:" +:+ n +:+ nl +:+ String.concat "" (row_line <$> rows)) as Hn.
  { intros c rows Hd. unfold table_lines. by rewrite Hd, um_at_middle. }
  unfold canonicalize. rewrite Hp, Hm, Ht, <- Hkeys.
  set (names := ascending (um_keys (table_data c1))).
  split.
  - intros Heq. repeat apply (inj (String.app _)) in Heq.
    apply (table_lines_inj _ _ n) in Heq as [rest Heq]; [| | |done].
    + rewrite (Hn c1 rows1 Hd1), (Hn c2 rows2 Hd2), !append_assoc in Heq.
      repeat apply (inj (String.app _)) in Heq.
      apply row_lines_inj in Heq; [done| by rewrite Hperm |done|by rewrite <- Hperm].
    + apply ascending_NoDup, Hwf.
    + unfold names. rewrite ascending_Permutation, Hd1. unfold um_keys.
      rewrite fmap_app. apply elem_of_app. right. left.
  - intros Hlines. do 10 f_equal. apply list_fmap_ext. intros _ n' _.
    destruct (decide (n' = n)) as [->|Hne]; [|by apply Hother].
    by rewrite (Hn c1 rows1 Hd1), (Hn c2 rows2 Hd2), Hlines.
Qed.

(** The counterexample to C5: the rows ("x,y", "z") and ("x", "y,z") are
    different rows, both valid in their table, and render as the same
    line [row:x,y,z]; exchanging them changes the table and not the
    hash. *)
Lemma row_order_same_hash :
  validate_row notes_schema note_xy_z = ""
  /\ validate_row notes_schema note_x_yz = ""
  /\ [note_xy_z; note_x_yz] ≡ₚ [note_x_yz; note_xy_z]
  /\ [note_xy_z; note_x_yz] <> [note_x_yz; note_xy_z]
  /\ compute_commit_hash (with_notes [note_xy_z; note_x_yz])
     = compute_commit_hash (with_notes [note_x_yz; note_xy_z]).
Proof.
  split; [by vm_compute|]. split; [by vm_compute|].
  split; [apply Permutation_swap|]. split; [discriminate|].
  rewrite !compute_commit_hash_text. reflexivity.
Qed.

(** C5, amended. [compute_commit_hash] always returns a string. Two
    commits with the same parent hash, message and timestamp whose
    tables hold the same rows have the same hash, in whatever order the
    maps iterate, and so in whatever order the tables were assigned.
    The rows of a table are written in their stored order: a permutation
    of the rows of one table changes the hashed text exactly when it
    changes the sequence of the row lines (no cell rendering with a line
    feed), and leaves the hash unchanged when the lines are the same;
    exchanging the rows of Neel and Swati changes the hash. *)
Theorem commit_hash_order :
  (forall c, is_Some (compute_commit_hash c))
  /\ (forall c1 c2,
        parent_hash c1 = parent_hash c2 -> message c1 = message c2 ->
        timestamp c1 = timestamp c2 ->
        um_wf (table_data c1) -> um_wf (table_data c2) ->
        (forall n, um_at (table_data c1) n = um_at (table_data c2) n) ->
        compute_commit_hash c1 = compute_commit_hash c2)
  /\ (forall c1 c2 base k1 rows1 k2 rows2,
        parent_hash c1 = parent_hash c2 -> message c1 = message c2 ->
        timestamp c1 = timestamp c2 -> um_wf base -> k1 <> k2 ->
        table_data c1 = um_assign (um_assign base k1 rows1) k2 rows2 ->
        table_data c2 = um_assign (um_assign base k2 rows2) k1 rows1 ->
        compute_commit_hash c1 = compute_commit_hash c2)
  /\ (forall c1 c2 pre post n rows1 rows2,
        parent_hash c1 = parent_hash c2 -> message c1 = message c2 ->
        timestamp c1 = timestamp c2 ->
        table_data c1 = pre ++ (n, rows1) :: post ->
        table_data c2 = pre ++ (n, rows2) :: post ->
        um_wf (table_data c1) ->
        rows1 ≡ₚ rows2 -> Forall clean_row rows1 ->
        (canonicalize c1 = canonicalize c2 <-> row_line <$> rows1 = row_line <$> rows2)
        /\ (row_line <$> rows1 = row_line <$> rows2 ->
            compute_commit_hash c1 = compute_commit_hash c2))
  /\ compute_commit_hash (with_rows [neel; swati])
     <> compute_commit_hash (with_rows [swati; neel]).
Proof.
  split; [intros c; rewrite compute_commit_hash_text; eauto|].
  split; [exact compute_commit_hash_same_tables|]. split; [|split].
  - intros c1 c2 base k1 rows1 k2 rows2 Hp Hm Ht Hwf Hne Hd1 Hd2.
    apply compute_commit_hash_same_tables; try done.
    + rewrite Hd1. by do 2 apply um_wf_assign.
    + rewrite Hd2. by do 2 apply um_wf_assign.
    + intros n. rewrite Hd1, Hd2. by apply um_assign_order.
  - intros c1 c2 pre post n rows1 rows2 Hp Hm Ht Hd1 Hd2 Hwf Hperm Hclean.
    pose proof (row_order_canonical c1 c2 pre post n rows1 rows2
                  Hp Hm Ht Hd1 Hd2 Hwf Hperm Hclean) as Hiff.
    split; [done|]. intros Hlines. rewrite !compute_commit_hash_text.
    do 2 f_equal. by apply Hiff.
  - by vm_compute.
Qed.

Lemma commit_hash_order_witness :
  let orders : list Row := [[VInt 7; VFloat d_2_5]] in
  let c1 := {| hash := ""; parent_hash := ""; message := "Initial commit";
               timestamp := 1703529600;
               table_data := um_assign (um_assign [] "users" [neel]) "orders" orders;
               table_schemas := [] |} in
  let c2 := {| hash := ""; parent_hash := ""; message := "Initial commit";
               timestamp := 1703529600;
               table_data := um_assign (um_assign [] "orders" orders) "users" [neel];
               table_schemas := [] |} in
  table_data c1 <> table_data c2
  /\ compute_commit_hash c1 = compute_commit_hash c2.
Proof.
  intros orders c1 c2. split; [by vm_compute|].
  apply (proj1 (proj2 (proj2 commit_hash_order)) c1 c2 [] "users" [neel] "orders" orders);
    try reflexivity.
  - apply NoDup_nil_2.
  - discriminate.
Defined.

(** *** [validate_commit] *)

Lemma canonicalize_with_hash (h : string) (c : Commit) :
  canonicalize (with_hash h c) = canonicalize c.
Proof. reflexivity. Qed.

Lemma validate_commit_decide (c : Commit) :
  validate_commit c = Some (bool_decide (compute_commit_hash c = Some (hash c))).
Proof.
  unfold validate_commit. rewrite compute_commit_hash_text. simpl. f_equal.
  destruct (String.eqb_spec (compute_hash (canonicalize c)) (hash c)) as [->|Hne].
  - by rewrite bool_decide_eq_true_2.
  - rewrite bool_decide_eq_false_2; [done|]. congruence.
Qed.

(** *** What the canonical text tells *)

Lemma read_digits_no_nl (d : string) (acc v : Z) :
  read_digits acc d = Some v -> no_nl d = true.
Proof.
  revert acc. induction d as [|c d IH]; intros acc H; [reflexivity|].
  cbn [read_digits no_nl] in *. destruct (digit_of c) as [k|] eqn:Hc; [|discriminate].
  rewrite (IH _ H), andb_true_r.
  destruct (Ascii.eqb_spec c "010") as [->|_]; [by vm_compute in Hc | reflexivity].
Qed.

Lemma no_nl_to_string (n : Z) : no_nl (to_string n) = true.
Proof.
  assert (forall p, no_nl (pretty (N.pos p)) = true) as Hpos.
  { intros p. unfold pretty, pretty_N.
    destruct (decide (N.pos p = 0)%N) as [E|_]; [discriminate|].
    destruct (pretty_N_go_read (N.pos p)) as (d & Hgo & Hval & _).
    rewrite Hgo, append_empty_r. by apply (read_digits_no_nl d 0 _ (Hval 0)). }
  unfold to_string. destruct n as [|p|p]; [reflexivity|apply Hpos|].
  change (pretty (Z.neg p)) with ("-" +:+ pretty (N.pos p)).
  by rewrite no_nl_app, Hpos.
Qed.

Lemma canonicalize_shown (c : Commit) :
  canonicalize c
  = "parent:" +:+ parent_hash c +:+ nl
      +:+ "message:" +:+ message c +:+ nl
      +:+ "timestamp:" +:+ to_string (timestamp c) +:+ nl
      +:+ String.concat "" (show_table <$> shown_tables c).
Proof.
  unfold canonicalize, shown_tables. do 9 f_equal.
  rewrite <- list_fmap_compose. reflexivity.
Qed.

(** The head of the text gives the three fields back. *)
Lemma head_inj (c c' : Commit) (r r' : string) :
  no_nl (parent_hash c) = true -> no_nl (message c) = true ->
  no_nl (parent_hash c') = true -> no_nl (message c') = true ->
  "parent:" +:+ parent_hash c +:+ nl
    +:+ "message:" +:+ message c +:+ nl
    +:+ "timestamp:" +:+ to_string (timestamp c) +:+ nl +:+ r
  = "parent:" +:+ parent_hash c' +:+ nl
    +:+ "message:" +:+ message c' +:+ nl
    +:+ "timestamp:" +:+ to_string (timestamp c') +:+ nl +:+ r' ->
  header c = header c' /\ r = r'.
Proof.
  intros Hp Hm Hp' Hm' H.
  apply (inj (String.app "parent:")) in H.
  apply first_line_inj in H as [HP H]; [|done..].
  apply (inj (String.app "message:")) in H.
  apply first_line_inj in H as [HM H]; [|done..].
  apply (inj (String.app "timestamp:")) in H.
  apply first_line_inj in H as [HT H]; [|apply no_nl_to_string..].
  apply (inj pretty) in HT. unfold header. by rewrite HP, HM, HT.
Qed.

Lemma row_lines_split (rows rows' : list Row) (R R' : string) :
  Forall clean_row rows -> Forall clean_row rows' -> not_row R -> not_row R' ->
  String.concat "" (row_line <$> rows) +:+ R
  = String.concat "" (row_line <$> rows') +:+ R' ->
  row_line <$> rows = row_line <$> rows' /\ R = R'.
Proof.
  revert rows'. induction rows as [|r rows IH]; intros [|r' rows'] H1 H2 HR HR' Heq.
  - done.
  - rewrite fmap_cons, concat_empty_cons in Heq.
    change (R = (row_line r' +:+ String.concat "" (row_line <$> rows')) +:+ R') in Heq.
    subst R. destruct (HR eq_refl).
  - rewrite fmap_cons, concat_empty_cons in Heq.
    change ((row_line r +:+ String.concat "" (row_line <$> rows)) +:+ R = R') in Heq.
    subst R'. destruct (HR' eq_refl).
  - apply Forall_cons in H1 as [Hr H1]. apply Forall_cons in H2 as [Hr' H2].
    rewrite !fmap_cons, !concat_empty_cons in Heq. unfold row_line at 1 3 in Heq.
    rewrite !append_assoc in Heq.
    apply (inj (String.app "row:")) in Heq.
    apply first_line_inj in Heq as [Hcells Hrest]; [|by apply no_nl_cells..].
    destruct (IH rows' H1 H2 HR HR' Hrest) as [Hrows ->].
    split; [|done]. rewrite !fmap_cons. f_equal; [|done].
    unfold row_line. by rewrite Hcells.
Qed.

Lemma not_row_tables (L : list (string * list string)) :
  not_row (String.concat "" (show_table <$> L)).
Proof. destruct L as [|t L]; [exact I|]. rewrite fmap_cons, concat_empty_cons. discriminate. Qed.

Lemma tables_inj (L L' : list (string * list Row)) :
  Forall (fun t => no_nl t.1 = true /\ Forall clean_row t.2) L ->
  Forall (fun t => no_nl t.1 = true /\ Forall clean_row t.2) L' ->
  String.concat "" (show_table <$> (shown_table <$> L))
  = String.concat "" (show_table <$> (shown_table <$> L')) ->
  shown_table <$> L = shown_table <$> L'.
Proof.
  revert L'. induction L as [|[n rows] L IH]; intros [|[n' rows'] L'] H1 H2 Heq.
  - done.
  - rewrite !fmap_cons, concat_empty_cons in Heq. discriminate.
  - rewrite !fmap_cons, concat_empty_cons in Heq. discriminate.
  - apply Forall_cons in H1 as [[Hn Hrows] H1]. apply Forall_cons in H2 as [[Hn' Hrows'] H2].
    rewrite !fmap_cons, !concat_empty_cons in Heq. unfold show_table at 1 3 in Heq.
    cbn [shown_table fst snd] in *. rewrite !append_assoc in Heq.
    apply (inj (String.app "table:")) in Heq.
    apply first_line_inj in Heq as [-> Hrest]; [|done..].
    apply row_lines_split in Hrest as [Hlines Hrest]; [|done|done|apply not_row_tables..].
    rewrite !fmap_cons. f_equal.
    + unfold shown_table. cbn [fst snd]. by rewrite Hlines.
    + by apply IH.
Qed.

Lemma shown_tables_clean (c : Commit) :
  clean_commit c ->
  exists L, shown_tables c = shown_table <$> L
            /\ Forall (fun t => no_nl t.1 = true /\ Forall clean_row t.2) L.
Proof.
  intros (_ & _ & Hclean).
  exists ((fun n => (n, default [] (um_at (table_data c) n)))
            <$> ascending (um_keys (table_data c))).
  split.
  - unfold shown_tables. rewrite <- list_fmap_compose. reflexivity.
  - apply Forall_fmap, Forall_forall. intros n Hn. cbn.
    rewrite ascending_Permutation in Hn. apply um_at_key in Hn as [rows Hrows].
    rewrite Hrows. cbn.
    apply um_at_Some_elem in Hrows.
    by apply (proj1 (Forall_forall _ _) Hclean (n, rows)).
Qed.

(** The canonical text of a commit without line feeds in its texts tells
    its three fields and the lines of its tables, and nothing else. *)
Lemma canonicalize_inj (c c' : Commit) :
  clean_commit c -> clean_commit c' ->
  canonicalize c = canonicalize c' <->
  header c = header c' /\ shown_tables c = shown_tables c'.
Proof.
  intros Hc Hc'. rewrite !canonicalize_shown. split.
  - intros H.
    destruct Hc as (Hp & Hm & Hd), Hc' as (Hp' & Hm' & Hd').
    assert (clean_commit c) as Hc by done. assert (clean_commit c') as Hc' by done.
    apply (head_inj c c') in H as [Hh Ht]; [|done..].
    split; [done|].
    destruct (shown_tables_clean c Hc) as (L & EL & HL).
    destruct (shown_tables_clean c' Hc') as (L' & EL' & HL').
    rewrite EL, EL' in *. by apply tables_inj.
  - intros [[= -> -> ->] ->]. reflexivity.
Qed.

(** A change of one of the three fields alone changes the canonical
    text, whatever the texts hold. *)
Lemma one_field_text (c c' : Commit) :
  one_field_changed c c' -> canonicalize c' <> canonicalize c.
Proof.
  intros (Hd & Hne & Hsame) Heq. apply Hne. unfold header.
  unfold canonicalize in Heq. rewrite Hd in Heq.
  destruct Hsame as [[Hp Hm]|[[Hp Ht]|[Hm Ht]]].
  - rewrite Hp, Hm in *. do 7 apply (inj (String.app _)) in Heq.
    apply append_cancel_r in Heq. apply (inj pretty) in Heq. by rewrite Heq.
  - rewrite Hp, Ht in *. do 4 apply (inj (String.app _)) in Heq.
    apply append_cancel_r in Heq. by rewrite Heq.
  - rewrite Hm, Ht in *. apply (inj (String.app _)) in Heq.
    apply append_cancel_r in Heq. by rewrite Heq.
Qed.

(** *** Detection *)

(** The counterexample to C4: after [create_commit], the Null name of
    the row is replaced by the text "NULL" and the hash is left as it
    was. Both rows are valid, the table data have changed, and
    [validate_commit] still returns true. *)
Lemma validate_commit_mutated_undetected :
  create_commit "" "Initial commit" 1703529600
    [("users", [nameless])] [("users", users_schema)]
  = Some (with_hash nameless_hash nameless_commit)
  /\ validate_row users_schema nameless = ""
  /\ validate_row users_schema named_null = ""
  /\ hash nameless_renamed = hash (with_hash nameless_hash nameless_commit)
  /\ table_data nameless_renamed <> table_data (with_hash nameless_hash nameless_commit)
  /\ validate_commit nameless_renamed = Some true.
Proof.
  split; [by vm_compute|]. split; [by vm_compute|]. split; [by vm_compute|].
  split; [reflexivity|]. split; [discriminate|]. by vm_compute.
Qed.

(** C4, amended. [validate_commit] returns true exactly when
    [compute_commit_hash] returns the stored hash, and always returns.
    It is true once the hash that [compute_commit_hash] returns has been
    assigned, as [create_commit] does. The canonical text of a commit
    without line feeds in its texts tells its parent hash, message and
    timestamp and the lines of its tables, and a change of one of the
    three fields alone changes the text whatever the texts hold. So,
    after a change of a validated commit that keeps its hash,
    [validate_commit] is true exactly when the digest of the canonical
    text is the same; it is false after a change of one of the three
    fields, or of the lines of a table, unless SHA-256 gives the two
    texts the same digest; and a change of the cells that keeps the
    lines is not detected. Changing the message of the first commit of
    [main] is detected. *)
Theorem validate_commit_spec :
  (forall c, validate_commit c = Some true <-> compute_commit_hash c = Some (hash c))
  /\ (forall c, validate_commit c = Some true \/ validate_commit c = Some false)
  /\ (forall c h, compute_commit_hash c = Some h ->
        validate_commit (with_hash h c) = Some true)
  /\ (forall parent msg time data schemas,
        exists c, create_commit parent msg time data schemas = Some c
                  /\ parent_hash c = parent /\ message c = msg /\ timestamp c = time
                  /\ table_data c = data /\ table_schemas c = schemas
                  /\ validate_commit c = Some true)
  /\ (forall c c', clean_commit c -> clean_commit c' ->
        canonicalize c' = canonicalize c <->
        header c' = header c /\ shown_tables c' = shown_tables c)
  /\ (forall c c', one_field_changed c c' -> canonicalize c' <> canonicalize c)
  /\ (forall c c', validate_commit c = Some true -> hash c' = hash c ->
        (validate_commit c' = Some true <->
         compute_hash (canonicalize c') = compute_hash (canonicalize c)))
  /\ (forall c c', validate_commit c = Some true -> hash c' = hash c ->
        one_field_changed c c'
        \/ (clean_commit c /\ clean_commit c'
            /\ (header c' <> header c \/ shown_tables c' <> shown_tables c)) ->
        validate_commit c' = Some false \/ collision c c')
  /\ (forall c c', validate_commit c = Some true -> hash c' = hash c ->
        clean_commit c -> clean_commit c' ->
        header c' = header c -> shown_tables c' = shown_tables c ->
        validate_commit c' = Some true)
  /\ validate_commit first_reworded = Some false.
Proof.
  assert (forall c, validate_commit c = Some true <->
                    compute_commit_hash c = Some (hash c)) as Hiff.
  { intros c. rewrite validate_commit_decide. split.
    - intros [= H]. by apply bool_decide_eq_true in H.
    - intros H. by rewrite bool_decide_eq_true_2. }
  assert (forall c, validate_commit c = Some true \/ validate_commit c = Some false)
    as Htotal.
  { intros c. rewrite validate_commit_decide. destruct (bool_decide _); auto. }
  assert (forall c c', validate_commit c = Some true -> hash c' = hash c ->
            (validate_commit c' = Some true <->
             compute_hash (canonicalize c') = compute_hash (canonicalize c))) as Hsame.
  { intros c c' Hc Hh. apply Hiff in Hc. rewrite compute_commit_hash_text in Hc.
    injection Hc as Hc. rewrite Hiff, compute_commit_hash_text, Hh, <- Hc.
    split; congruence. }
  split; [exact Hiff|]. split; [exact Htotal|].
  split; [|split; [|split; [|split; [|split; [|split; [|split]]]]]].
  - intros c h Hh. apply Hiff. rewrite compute_commit_hash_text in *. exact Hh.
  - intros parent msg time data schemas. unfold create_commit.
    rewrite compute_commit_hash_text. simpl. eexists. split; [reflexivity|].
    repeat (split; [reflexivity|]). apply Hiff.
    by rewrite compute_commit_hash_text.
  - intros c c' Hc Hc'. by apply canonicalize_inj.
  - exact one_field_text.
  - exact Hsame.
  - intros c c' Hc Hh Hchanged.
    assert (canonicalize c' <> canonicalize c) as Hne.
    { destruct Hchanged as [Hone|(Hcl & Hcl' & Hdiff)]; [by apply one_field_text|].
      rewrite (canonicalize_inj c' c Hcl' Hcl). intros [? ?]. by destruct Hdiff. }
    destruct (Htotal c') as [Htrue|Hfalse]; [|by left]. right.
    apply (Hsame c c' Hc Hh) in Htrue. split; congruence.
  - intros c c' Hc Hh Hcl Hcl' Hhead Htables. apply (Hsame c c' Hc Hh). f_equal.
    by apply canonicalize_inj.
  - by vm_compute.
Qed.

Lemma validate_commit_spec_witness :
  validate_commit (with_hash first_hash first) = Some true
  /\ hash first_reworded = hash (with_hash first_hash first)
  /\ one_field_changed (with_hash first_hash first) first_reworded
  /\ (validate_commit first_reworded = Some false
      \/ collision (with_hash first_hash first) first_reworded).
Proof.
  assert (validate_commit (with_hash first_hash first) = Some true) as Hv
    by (by vm_compute).
  assert (one_field_changed (with_hash first_hash first) first_reworded) as Hone.
  { split; [reflexivity|]. split; [discriminate|]. right. left. by split. }
  split; [exact Hv|]. split; [reflexivity|]. split; [exact Hone|].
  apply (proj1 (proj2 (proj2 (proj2 (proj2 (proj2 (proj2 (proj2 validate_commit_spec)))))))
           (with_hash first_hash first) first_reworded Hv eq_refl).
  by left.
Defined.

(** ** Diffs *)

Lemma column_equal_refl (c : ColumnDef) : column_equal c c = true.
Proof.
  unfold column_equal. rewrite String.eqb_refl, bool_decide_eq_true_2 by done.
  by destruct (is_nullable c), (is_primary_key c).
Qed.

Lemma schema_equal_refl (s : Schema) : schema_equal s s = true.
Proof.
  unfold schema_equal. induction (columns_ s) as [|c cs IH]; simpl; [done|].
  by rewrite column_equal_refl, IH.
Qed.

Lemma schema_differs_same (s : option Schema) : schema_differs s s = false.
Proof. destruct s as [s|]; simpl; [|done]. by rewrite schema_equal_refl. Qed.

Lemma unmatched_same (rows : list Row) : unmatched rows rows = [].
Proof.
  induction rows as [|r rows IH]; simpl; [done|].
  rewrite bool_decide_eq_true_2 by left.
  by rewrite bool_decide_eq_true_2.
Qed.

Lemma rows_same_refl (r : Row) :
  Forall (fun v => values_equal v v = true) r -> rows_same r r = true.
Proof. induction 1 as [|v r Hv _ IH]; simpl; [done|]. by rewrite Hv, IH. Qed.

Lemma find_lookup {A} (p : A -> bool) (l : list A) (x : A) :
  find p l = Some x -> p x = true /\ exists j, l !! j = Some x.
Proof.
  induction l as [|y l IH]; simpl; [discriminate|].
  destruct (p y) eqn:Hy.
  - intros [= ->]. split; [done|]. by exists 0%nat.
  - intros H. destruct (IH H) as [Hp [j Hj]]. split; [done|]. by exists (S j).
Qed.

Lemma find_none {A} (p : A -> bool) (l : list A) (x : A) :
  find p l = None -> x ∈ l -> p x = false.
Proof.
  induction l as [|y l IH]; simpl; intros Hf Hin.
  - by apply elem_of_nil in Hin.
  - destruct (p y) eqn:Hy; [discriminate|].
    apply elem_of_cons in Hin as [->|Hin]; auto.
Qed.

Lemma keys_match_self (k : nat) (r : Row) :
  is_Some (r !! k) -> Forall (fun v => values_equal v v = true) r ->
  keys_match k r r = true.
Proof.
  intros [key Hk] Hr. unfold keys_match. rewrite Hk.
  rewrite Forall_forall in Hr. apply Hr. by eapply list_elem_of_lookup_2.
Qed.

Lemma flat_map_nil {A B} (f : A -> list B) (l : list A) :
  (forall x, x ∈ l -> f x = []) -> flat_map f l = [].
Proof.
  induction l as [|x l IH]; simpl; intros H; [done|].
  rewrite (H x) by left. apply IH. intros y Hy. apply H. by right.
Qed.

Lemma scan_from_same (k : nat) (rows : list Row) :
  keyed_rows_ok k rows -> scan_from k rows rows = [].
Proof.
  intros [Hcells Huniq]. apply flat_map_nil. intros r Hr.
  rewrite Forall_forall in Hcells. destruct (Hcells r Hr) as [Hkey Hself].
  destruct (find (keys_match k r) rows) as [r'|] eqn:Hfind.
  - apply find_lookup in Hfind as [Hm [j Hj]].
    apply list_elem_of_lookup in Hr as [i Hi].
    assert (i = j) as -> by eauto. assert (r' = r) as -> by congruence.
    by rewrite rows_same_refl.
  - apply (find_none _ _ r) in Hfind; [|done].
    rewrite keys_match_self in Hfind; done.
Qed.

Lemma scan_to_same (k : nat) (rows : list Row) :
  keyed_rows_ok k rows -> scan_to k rows rows = [].
Proof.
  intros [Hcells _]. apply flat_map_nil. intros r Hr.
  rewrite Forall_forall in Hcells. destruct (Hcells r Hr) as [Hkey Hself].
  assert (existsb (fun r0 => keys_match k r0 r) rows = true) as ->; [|done].
  apply existsb_exists. exists r. split; [by apply list_elem_of_In|].
  by apply keys_match_self.
Qed.

Lemma filter_all {A} (P : A -> Prop) `{!forall x, Decision (P x)} (l : list A) :
  Forall P l -> filter P l = l.
Proof.
  induction 1 as [|x l Hx _ IH]; [done|].
  rewrite filter_cons, decide_True by done. by rewrite IH.
Qed.

Lemma filter_none {A} (P : A -> Prop) `{!forall x, Decision (P x)} (l : list A) :
  Forall (fun x => ~ P x) l -> filter P l = [].
Proof.
  induction 1 as [|x l Hx _ IH]; [done|].
  by rewrite filter_cons, decide_False.
Qed.

Lemma has_table_key (c : Commit) (n : string) :
  n ∈ um_keys (table_data c) -> has_table c n = true.
Proof. intros H. apply bool_decide_eq_true. by apply um_at_key. Qed.

(** The scenarios of the specification: a row added, removed, changed. *)
Example diff_scenarios :
  row_diffs <$> table_diffs (diff (with_rows [neel]) (with_rows [neel; swati]))
    = [[{| rd_type := ADDED; old_row := []; new_row := swati |}]]
  /\ row_diffs <$> table_diffs (diff (with_rows [neel]) (with_rows []))
    = [[{| rd_type := DELETED; old_row := neel; new_row := [] |}]]
  /\ row_diffs <$> table_diffs
       (diff (with_rows [neel]) (with_rows [[VInt 1; VText "Neel2"; VInt 19]]))
    = [[{| rd_type := MODIFIED; old_row := neel;
           new_row := [VInt 1; VText "Neel2"; VInt 19] |}]].
Proof. by vm_compute. Qed.

(** The counterexample to C9: a valid row with a Null cell, in a table
    with a primary key, is MODIFIED in the diff of its commit with
    itself, since Null does not equal Null. *)
Lemma diff_same_commit_modified :
  validate_row users_schema nameless = ""
  /\ table_diffs (diff nameless_commit nameless_commit)
     = [{| table_name := "users";
           row_diffs := [{| rd_type := MODIFIED; old_row := nameless; new_row := nameless |}];
           schema_changed := false |}].
Proof. split; by vm_compute. Qed.

(** C9, amended. When, in every table of [A] whose schema declares a
    primary key, every row has a key cell, every cell equals itself
    under [values_equal] (no Null, no NaN) and no two rows have equal
    keys, [diff A A] has no added table, no dropped table, and one
    TableDiff per table of [A], each without row diffs and with
    [schema_changed] false. *)
Theorem diff_same_commit (A : Commit) :
  keyed_tables_ok A ->
  tables_added (diff A A) = []
  /\ tables_dropped (diff A A) = []
  /\ table_name <$> table_diffs (diff A A) = um_keys (table_data A)
  /\ Forall (fun t => row_diffs t = [] /\ schema_changed t = false)
       (table_diffs (diff A A)).
Proof.
  intros Hok. unfold diff. simpl.
  assert (Forall (fun n => has_table A n = true) (um_keys (table_data A))) as Hall.
  { apply Forall_forall. intros n Hn. by apply has_table_key. }
  rewrite (filter_all _ _ Hall).
  rewrite !filter_none;
    try (eapply Forall_impl; [exact Hall|]; simpl; intros n Hn; congruence).
  split; [done|]. split; [done|]. split.
  - rewrite <- list_fmap_compose. by rewrite list_fmap_id.
  - apply Forall_fmap, Forall_forall. intros n Hn. simpl.
    split; [|apply schema_differs_same].
    destruct (um_at_key _ _ Hn) as [rows Hrows]. rewrite Hrows. simpl.
    destruct (primary_key (um_at (table_schemas A) n)) as [k|] eqn:Hpk; simpl.
    + destruct (Hok n rows k Hrows Hpk) as [? ?].
      rewrite scan_from_same, scan_to_same; done.
    + by rewrite unmatched_same.
Qed.

Lemma diff_same_commit_witness :
  keyed_tables_ok first /\ tables_added (diff first first) = [].
Proof.
  assert (keyed_tables_ok first) as H.
  { intros n rows k. unfold first, with_rows. cbn [table_data table_schemas um_at].
    destruct (String.eqb_spec "users" n) as [<-|Hn]; [|discriminate].
    intros [= <-]. vm_compute. intros [= <-]. split.
    - repeat constructor; eauto.
    - intros [|i] [|j] r r'; simpl; intros; (done || discriminate). }
  split; [exact H|]. apply (diff_same_commit first H).
Defined.

(** * Properties read off the code *)

(** ** Schemas: lookups after [add_column] *)

Lemma schema_of_snoc (cols : list ColumnDef) (c : ColumnDef) :
  schema_of (cols ++ [c]) = add_column (schema_of cols) c.
Proof. unfold schema_of. by rewrite foldl_app. Qed.

Lemma schema_of_columns (cols : list ColumnDef) : columns_ (schema_of cols) = cols.
Proof.
  induction cols as [|c cols IH] using rev_ind; [done|].
  rewrite schema_of_snoc. simpl. by rewrite IH.
Qed.

Lemma last_index_snoc (n : string) (i : nat) (cols : list ColumnDef) (c : ColumnDef) :
  last_index n i (cols ++ [c])
  = if String.eqb (name c) n then Some (i + length cols)%nat else last_index n i cols.
Proof.
  revert i. induction cols as [|d cols IH]; intros i; simpl.
  - rewrite Nat.add_0_r. by destruct (String.eqb (name c) n).
  - rewrite IH. destruct (String.eqb (name c) n); [f_equal; lia | done].
Qed.

Lemma schema_of_index (cols : list ColumnDef) (n : string) :
  get_column_index (schema_of cols) n = last_index n 0 cols.
Proof.
  induction cols as [|c cols IH] using rev_ind; [done|].
  rewrite schema_of_snoc, last_index_snoc. unfold get_column_index in *. simpl.
  rewrite schema_of_columns.
  destruct (String.eqb_spec (name c) n) as [->|Hne].
  - by rewrite lookup_insert_eq.
  - by rewrite lookup_insert_ne.
Qed.

Lemma last_index_Some (n : string) (i j : nat) (cols : list ColumnDef) :
  last_index n i cols = Some j ->
  (i <= j)%nat /\ exists c, cols !! (j - i)%nat = Some c /\ name c = n
  /\ forall k c', (j - i < k)%nat -> cols !! k = Some c' -> name c' <> n.
Proof.
  revert i j. induction cols as [|d cols IH]; intros i j; simpl; [discriminate|].
  destruct (last_index n (S i) cols) as [j'|] eqn:Hrest.
  - intros [= <-]. destruct (IH _ _ Hrest) as (Hle & c & Hc & Hn & Hlast).
    split; [lia|]. exists c. replace (j' - i)%nat with (S (j' - S i)) by lia.
    split; [done|]. split; [done|]. intros [|k] c' Hk; [lia|]. simpl.
    apply Hlast. lia.
  - destruct (String.eqb_spec (name d) n) as [Hd|Hd]; [|discriminate].
    intros [= <-]. split; [lia|]. exists d. rewrite Nat.sub_diag.
    split; [done|]. split; [done|]. intros [|k] c' Hk; [lia|]. simpl. intros Hc'.
    assert (forall i, last_index n i cols = None ->
              forall k c', cols !! k = Some c' -> name c' <> n) as Hnone.
    { clear. induction cols as [|e cols IH]; intros i H k c' Hk; [done|].
      simpl in H. destruct (last_index n (S i) cols) eqn:Hr; [discriminate|].
      destruct (String.eqb_spec (name e) n); [discriminate|].
      destruct k; simpl in Hk; [by injection Hk as <-|]. by eapply IH. }
    by eapply Hnone.
Qed.

Lemma last_index_None (n : string) (i : nat) (cols : list ColumnDef) :
  last_index n i cols = None <-> n ∉ name <$> cols.
Proof.
  revert i. induction cols as [|d cols IH]; intros i; simpl.
  - split; [intros _; apply not_elem_of_nil | done].
  - rewrite not_elem_of_cons, <- (IH (S i)).
    destruct (last_index n (S i) cols); [split; [discriminate | intros [_ ?]; done]|].
    destruct (String.eqb_spec (name d) n) as [Hd|Hd].
    + split; [discriminate | intros [? _]; congruence].
    + split; [intros _; split; [congruence | done] | done].
Qed.

(** The index of a name in a schema built by [add_column]: none when the
    name was not added, and else the index of the last column of that
    name, which [get_column] returns. *)
Lemma schema_of_found (cols : list ColumnDef) (n : string) :
  (get_column_index (schema_of cols) n = None <-> n ∉ name <$> cols)
  /\ (forall i, get_column_index (schema_of cols) n = Some i ->
        exists c, cols !! i = Some c /\ name c = n /\ get_column (schema_of cols) n = Some c
                  /\ forall k c', (i < k)%nat -> cols !! k = Some c' -> name c' <> n).
Proof.
  split.
  - rewrite schema_of_index. apply last_index_None.
  - intros i Hi. pose proof Hi as Hi'. rewrite schema_of_index in Hi'.
    apply last_index_Some in Hi' as (_ & c & Hc & Hn & Hlast).
    rewrite Nat.sub_0_r in Hc, Hlast. exists c. split; [done|]. split; [done|].
    split; [|done]. unfold get_column. by rewrite Hi, schema_of_columns.
Qed.

(** X1: in a schema built by add_column from the empty one, num_columns
    counts the columns added; has_column, get_column_index and get_column
    know exactly the names added; a name added more than once is looked
    up at the last column that has it, which is the one get_column
    returns. *)
Theorem schema_lookup (cols : list ColumnDef) (n : string) :
  let s := schema_of cols in
  num_columns s = length cols
  /\ (has_column s n = true <-> n ∈ name <$> cols)
  /\ (get_column_index s n = None <-> n ∉ name <$> cols)
  /\ (get_column s n = None <-> n ∉ name <$> cols)
  /\ (forall i, get_column_index s n = Some i ->
        exists c, cols !! i = Some c /\ name c = n /\ get_column s n = Some c
                  /\ forall k c', (i < k)%nat -> cols !! k = Some c' -> name c' <> n).
Proof.
  intros s. subst s. destruct (schema_of_found cols n) as [Hnone Hsome].
  split; [unfold num_columns; by rewrite schema_of_columns|].
  split; [|split; [done|split; [|done]]].
  - unfold has_column. fold (get_column_index (schema_of cols) n).
    rewrite bool_decide_eq_true.
    destruct (get_column_index (schema_of cols) n) as [i|] eqn:Hi.
    + split; [|eauto]. intros _. destruct (decide (n ∈ name <$> cols)); [done|].
      apply Hnone in n0. congruence.
    + split; [intros [? ?]; discriminate|]. intros Hin. by apply Hnone in Hin.
  - rewrite <- Hnone. unfold get_column.
    destruct (get_column_index (schema_of cols) n) as [i|] eqn:Hi; [|done].
    destruct (Hsome i eq_refl) as (c & Hc & _). unfold get_column in *.
    rewrite schema_of_columns, Hc. split; discriminate.
Qed.

(** X2: when the names added are distinct, every column is found again by
    its name, at the index it was added at. *)
Theorem schema_lookup_distinct (cols : list ColumnDef) (i : nat) (c : ColumnDef) :
  NoDup (name <$> cols) -> cols !! i = Some c ->
  get_column_index (schema_of cols) (name c) = Some i
  /\ get_column (schema_of cols) (name c) = Some c
  /\ has_column (schema_of cols) (name c) = true.
Proof.
  intros Hnd Hi.
  assert (name c ∈ name <$> cols) as Hin.
  { apply list_elem_of_fmap. exists c. split; [done|]. by eapply list_elem_of_lookup_2. }
  destruct (schema_of_found cols (name c)) as [Hnone Hsome].
  destruct (get_column_index (schema_of cols) (name c)) as [j|] eqn:Hj.
  - destruct (Hsome j eq_refl) as (c' & Hc' & Hn & Hget & _).
    assert (j = i) as ->.
    { eapply NoDup_lookup; [exact Hnd| |].
      - rewrite list_lookup_fmap, Hc'. simpl. by rewrite Hn.
      - by rewrite list_lookup_fmap, Hi. }
    assert (c' = c) as -> by congruence.
    split; [done|]. split; [done|]. unfold has_column.
    fold (get_column_index (schema_of cols) (name c)). rewrite Hj.
    by apply bool_decide_eq_true.
  - exfalso. by apply Hnone in Hin.
Qed.

Lemma schema_lookup_distinct_witness :
  get_column_index (schema_of [id_column; name_column; age_column]) "name" = Some 1%nat.
Proof.
  apply (schema_lookup_distinct [id_column; name_column; age_column] 1 name_column).
  - apply (bool_decide_unpack _). by vm_compute.
  - reflexivity.
Defined.

(** *** [values_equal] as a relation *)

Lemma double_eq_sym (x y : double) : double_eq x y = double_eq y x.
Proof.
  apply eq_true_iff_eq. rewrite !double_eq_true. split.
  - intros [Hx [->|(s & s' & -> & ->)]]; (split; [done|eauto]).
  - intros [Hy [->|(s & s' & -> & ->)]]; (split; [done|eauto]).
Qed.

Lemma double_eq_trans (x y z : double) :
  double_eq x y = true -> double_eq y z = true -> double_eq x z = true.
Proof.
  rewrite !double_eq_true.
  intros [Hx [Hxy|(s & s' & Hs & Hs')]] [Hy [Hyz|(t & t' & Ht & Ht')]];
    (split; [done|]); subst; eauto.
Qed.

(** X3: values_equal is symmetric and transitive, and a value equals
    itself unless it is Null or a NaN. *)
Theorem values_equal_partial_equivalence :
  (forall a b, values_equal a b = values_equal b a)
  /\ (forall a b c, values_equal a b = true -> values_equal b c = true ->
                    values_equal a c = true)
  /\ (forall a, values_equal a a = true <->
                 a <> VNull /\ forall s, a <> VFloat (D_nan s)).
Proof.
  split; [|split].
  - intros [|x|f|s|p] [|y|g|t|q]; try reflexivity; unfold values_equal; simpl.
    + apply Z.eqb_sym.
    + apply double_eq_sym.
    + apply String.eqb_sym.
    + by destruct p, q.
  - intros [|x|f|s|p] [|y|g|t|q] [|z|h|u|r]; unfold values_equal; simpl; try done.
    + intros ->%Z.eqb_eq ->%Z.eqb_eq. apply Z.eqb_refl.
    + apply double_eq_trans.
    + intros ->%String.eqb_eq ->%String.eqb_eq. apply String.eqb_refl.
    + by destruct p, q, r.
  - intros [|x|f|s|p]; unfold values_equal; simpl.
    + split; [discriminate | intros [? _]; done].
    + rewrite Z.eqb_refl. split; [intros _; split; discriminate | done].
    + rewrite double_eq_true. split.
      * intros [Hf _]. split; [discriminate|]. intros s [= ->]. discriminate.
      * intros [_ Hf]. split; [|by left]. destruct f; try reflexivity.
        by destruct (Hf s).
    + rewrite String.eqb_refl. split; [intros _; split; discriminate | done].
    + destruct p; (split; [intros _; split; discriminate | done]).
Qed.

Lemma values_equal_partial_equivalence_witness :
  values_equal (VFloat (D_zero true)) (VFloat d_2_5) = false
  /\ values_equal (VInt 2) (VInt 2) = true.
Proof.
  split; [reflexivity|].
  apply (proj1 (proj2 values_equal_partial_equivalence) (VInt 2) (VInt 2) (VInt 2));
    reflexivity.
Defined.

(** *** Equal, less, greater *)

Lemma double_trichotomy (x y : double) :
  is_nan x = false -> is_nan y = false ->
  (double_lt x y = true /\ double_eq x y = false /\ double_lt y x = false)
  \/ (double_lt x y = false /\ double_eq x y = true /\ double_lt y x = false)
  \/ (double_lt x y = false /\ double_eq x y = false /\ double_lt y x = true).
Proof.
  unfold double_lt, double_eq, SFltb, SFeqb.
  destruct x as [[]|[]|[]|[] m1 e1], y as [[]|[]|[]|[] m2 e2]; simpl; intros Hx Hy;
    try congruence; auto;
    change (Pos.compare_cont Eq m1 m2) with (Pos.compare m1 m2);
    change (Pos.compare_cont Eq m2 m1) with (Pos.compare m2 m1);
    rewrite (Z.compare_antisym e1 e2), (Pos.compare_antisym m1 m2);
    destruct (e1 ?= e2); simpl; auto; destruct (m1 ?= m2)%positive; simpl; auto.
Qed.

Lemma string_trichotomy (s t : string) :
  (string_lt s t = true /\ s <> t /\ string_lt t s = false)
  \/ (string_lt s t = false /\ s = t /\ string_lt t s = false)
  \/ (string_lt s t = false /\ s <> t /\ string_lt t s = true).
Proof.
  destruct (decide (s = t)) as [->|Hne].
  - right. left. by rewrite string_lt_irrefl.
  - destruct (total String.le s t) as [Hle|Hle].
    + left. assert (string_lt s t = true) as H by (by apply string_lt_le).
      split; [done|]. split; [done|]. by apply string_lt_asym.
    + right. right. assert (string_lt t s = true) as H by (by apply string_lt_le).
      split; [by apply string_lt_asym|]. done.
Qed.

(** X4: of two values of the same alternative that equal themselves
    (neither Null nor NaN), exactly one of less, equal and greater holds. *)
Theorem same_kind_trichotomy (a b : Value) :
  index a = index b -> values_equal a a = true -> values_equal b b = true ->
  (value_less_than a b = true /\ values_equal a b = false /\ value_less_than b a = false)
  \/ (value_less_than a b = false /\ values_equal a b = true /\ value_less_than b a = false)
  \/ (value_less_than a b = false /\ values_equal a b = false /\ value_less_than b a = true).
Proof.
  rewrite !value_less_than_cases.
  destruct a as [|x|f|s|p], b as [|y|g|t|q]; try discriminate; intros _;
    unfold values_equal; simpl; try discriminate.
  - intros _ _. destruct (Z.lt_trichotomy x y) as [H|[H|H]].
    + left. split; [by apply Z.ltb_lt|]. split; [apply Z.eqb_neq; lia | apply Z.ltb_ge; lia].
    + right. left. split; [apply Z.ltb_ge; lia|]. split; [by apply Z.eqb_eq | apply Z.ltb_ge; lia].
    + right. right. split; [apply Z.ltb_ge; lia|]. split; [apply Z.eqb_neq; lia | by apply Z.ltb_lt].
  - intros [Hf _]%double_eq_true [Hg _]%double_eq_true. by apply double_trichotomy.
  - intros _ _. destruct (string_trichotomy s t) as [(? & ? & ?)|[(? & ? & ?)|(? & ? & ?)]].
    + left. split; [done|]. split; [by apply String.eqb_neq | done].
    + right. left. split; [done|]. split; [by apply String.eqb_eq | done].
    + right. right. split; [done|]. split; [by apply String.eqb_neq | done].
  - intros _ _. destruct p, q; simpl; auto.
Qed.

Lemma same_kind_trichotomy_witness :
  value_less_than (VText "a") (VText "b") = true
  /\ values_equal (VText "a") (VText "b") = false
  /\ value_less_than (VText "b") (VText "a") = false.
Proof.
  destruct (same_kind_trichotomy (VText "a") (VText "b") eq_refl eq_refl eq_refl)
    as [H|[(H & _)|(H & _)]]; [exact H | discriminate H | discriminate H].
Defined.

(** ** The shape of a hash *)

Lemma blocks_length (fuel : nat) (h ws : list SHA256.word) :
  length h = 8%nat -> length (SHA256.blocks fuel h ws) = 8%nat.
Proof.
  revert h ws. induction fuel as [|fuel IH]; intros h ws Hh; [done|].
  cbn [SHA256.blocks]. destruct ws as [|w ws]; [done|]. by apply IH.
Qed.

Lemma be_bytes_length (n : nat) (x : Z) : length (SHA256.be_bytes n x) = n.
Proof. induction n as [|n IH]; [done|]. cbn [SHA256.be_bytes length]. by rewrite IH. Qed.

Lemma be_bytes_range (n : nat) (x : Z) :
  Forall (fun b => 0 <= b < 256) (SHA256.be_bytes n x).
Proof.
  induction n as [|n IH]; constructor; [|done]. apply Z.mod_pos_bound. lia.
Qed.

Lemma digest_length (msg : list Z) : length (SHA256.digest msg) = 32%nat.
Proof.
  unfold SHA256.digest.
  pose proof (blocks_length (length (SHA256.words_of (SHA256.pad msg))) SHA256.H0
                (SHA256.words_of (SHA256.pad msg)) eq_refl) as Hlen.
  destruct (SHA256.blocks _ _ _) as [|a [|b [|c [|d [|e [|f [|g [|h [|]]]]]]]]];
    try discriminate Hlen.
  cbn [flat_map]. rewrite !length_app, !be_bytes_length. reflexivity.
Qed.

Lemma digest_range (msg : list Z) : Forall (fun b => 0 <= b < 256) (SHA256.digest msg).
Proof.
  unfold SHA256.digest. induction (SHA256.blocks _ _ _) as [|w ws IH]; [constructor|].
  cbn [flat_map]. apply Forall_app. split; [apply be_bytes_range | done].
Qed.

Lemma hex_digit_lowercase (d : Z) : 0 <= d < 16 -> is_hex_digit (hex_digit d) = true.
Proof.
  intros Hd.
  assert (d = 0 \/ d = 1 \/ d = 2 \/ d = 3 \/ d = 4 \/ d = 5 \/ d = 6 \/ d = 7 \/ d = 8
          \/ d = 9 \/ d = 10 \/ d = 11 \/ d = 12 \/ d = 13 \/ d = 14 \/ d = 15)
    as Hcases by lia.
  repeat (destruct Hcases as [-> | Hcases]; [reflexivity|]). by subst.
Qed.

Lemma hex_bytes_shape (bs : list Z) :
  Forall (fun b => 0 <= b < 256) bs ->
  String.length (hex_bytes bs) = (2 * length bs)%nat
  /\ string_forall is_hex_digit (hex_bytes bs) = true.
Proof.
  induction 1 as [|b bs Hb _ [IHlen IHall]]; [done|].
  cbn [hex_bytes]. unfold hex_byte.
  change (String ?x (String ?y "") +:+ ?r) with (String x (String y r)).
  cbn [String.length string_forall length]. rewrite IHlen, IHall. split; [lia|].
  rewrite !hex_digit_lowercase; [done| |].
  - apply Z.mod_pos_bound. lia.
  - split; [apply Z.div_pos; lia | apply Z.div_lt_upper_bound; lia].
Qed.

(** X5: compute_hash returns 64 characters, each a digit or a letter
    from a to f, whatever the data. *)
Theorem compute_hash_shape (data : string) :
  String.length (compute_hash data) = 64%nat
  /\ string_forall is_hex_digit (compute_hash data) = true.
Proof.
  unfold compute_hash.
  destruct (hex_bytes_shape (SHA256.digest (bytes_of_string data))) as [Hlen Hall].
  { apply digest_range. }
  by rewrite digest_length in Hlen.
Qed.

(** ** What the text of a value tells *)

(** X24: value_to_string tells apart two values of the same alternative,
    except two Floats: these have the same text as soon as they agree
    to two decimals, as 2.5 and 2.504 do. *)
Theorem value_to_string_same_kind :
  (forall a b, index a = index b -> holds_double a = false ->
               value_to_string a = value_to_string b -> a = b)
  /\ values_equal (VFloat d_2_5) (VFloat d_2_504) = false
  /\ value_to_string (VFloat d_2_5) = value_to_string (VFloat d_2_504).
Proof.
  split; [|split; reflexivity].
  intros [|x|f|s|p] [|y|g|t|q] Hi Hd; try discriminate Hi; try discriminate Hd.
  - reflexivity.
  - intros H. f_equal. by apply (inj pretty).
  - intros H. change (s = t) in H. by rewrite H.
  - by destruct p, q.
Qed.

Lemma value_to_string_same_kind_witness : VInt 7 = VInt 7.
Proof.
  apply (proj1 value_to_string_same_kind (VInt 7) (VInt 7)); reflexivity.
Defined.

(** ** The commit hash and the cells *)

Section Cells.

Variable f : Value -> Value.
Hypothesis f_text : forall v, value_to_string (f v) = value_to_string v.

Lemma write_cells_map (oss : string) (cells : list Value) (i : nat) :
  write_cells oss (map f cells) i = write_cells oss cells i.
Proof.
  revert oss i. induction cells as [|v cells IH]; intros oss i; [reflexivity|].
  cbn [map write_cells]. by rewrite f_text, IH.
Qed.

Lemma write_rows_map (rows : list Row) (oss : string) :
  fold_left write_row (map (map f) rows) oss = fold_left write_row rows oss.
Proof.
  revert oss. induction rows as [|row rows IH]; intros oss; [reflexivity|].
  cbn [map fold_left]. unfold write_row at 2 4. by rewrite write_cells_map, IH.
Qed.

Lemma um_at_map_cells (data : list (string * list Row)) (n : string) :
  um_at ((fun entry => (entry.1, map (map f) entry.2)) <$> data) n
  = map (map f) <$> um_at data n.
Proof.
  induction data as [|[k rows] data IH]; [reflexivity|].
  cbn [fmap list_fmap um_at fst snd]. by destruct (String.eqb k n).
Qed.

Lemma write_table_map (data : list (string * list Row)) (oss : option string)
    (n : string) :
  write_table ((fun entry => (entry.1, map (map f) entry.2)) <$> data) oss n
  = write_table data oss n.
Proof.
  unfold write_table. destruct oss as [oss|]; [|reflexivity]. cbn.
  rewrite um_at_map_cells. destruct (um_at data n) as [rows|]; [|reflexivity]. cbn.
  by rewrite write_rows_map.
Qed.

Lemma write_tables_map (data : list (string * list Row)) (names : list string)
    (oss : option string) :
  fold_left (write_table ((fun entry => (entry.1, map (map f) entry.2)) <$> data))
    names oss
  = fold_left (write_table data) names oss.
Proof.
  revert oss. induction names as [|n names IH]; intros oss; [reflexivity|].
  cbn [fold_left]. by rewrite write_table_map, IH.
Qed.

Lemma compute_commit_hash_with_cells (c : Commit) :
  compute_commit_hash (with_cells f c) = compute_commit_hash c.
Proof.
  unfold compute_commit_hash, with_cells.
  cbn [parent_hash message timestamp table_data].
  rewrite write_tables_map. unfold um_keys. by rewrite <- list_fmap_compose.
Qed.

End Cells.

(** X25: compute_commit_hash, and with it validate_commit, sees a cell
    only through value_to_string: changing cells to others with the
    same text, of whatever alternative, changes neither. *)
Theorem commit_hash_sees_text_only (f : Value -> Value) (c : Commit) :
  (forall v, value_to_string (f v) = value_to_string v) ->
  compute_commit_hash (with_cells f c) = compute_commit_hash c
  /\ validate_commit (with_cells f c) = validate_commit c.
Proof.
  intros Hf. unfold validate_commit.
  by rewrite (compute_commit_hash_with_cells f Hf c).
Qed.

Lemma commit_hash_sees_text_only_witness :
  compute_commit_hash (with_cells (fun v => VText (value_to_string v)) first)
  = compute_commit_hash first.
Proof.
  apply (commit_hash_sees_text_only (fun v => VText (value_to_string v)) first).
  reflexivity.
Defined.

Import Tokenizer.

(** ** The tokenizer *)

(** *** Characters of a string *)

Lemma char_at_cons (c : ascii) (s : string) (i : nat) :
  char_at (String c s) (S i) = char_at s i.
Proof. reflexivity. Qed.

Lemma position_from_S (s : string) (i : nat) (l c : Z) :
  (i < String.length s)%nat ->
  position_from l c s (S i) =
  if Ascii.eqb (char_at s i) newline
  then (fst (position_from l c s i) + 1, 1)
  else (fst (position_from l c s i), snd (position_from l c s i) + 1).
Proof.
  revert i l c. induction s as [|a s IH]; intros i l c Hi; simpl in Hi; [lia|].
  destruct i as [|i].
  - cbn. destruct (Ascii.eqb a newline); reflexivity.
  - rewrite char_at_cons.
    change (position_from l c (String a s) (S (S i)))
      with (if Ascii.eqb a newline then position_from (l + 1) 1 s (S i)
            else position_from l (c + 1) s (S i)).
    change (position_from l c (String a s) (S i))
      with (if Ascii.eqb a newline then position_from (l + 1) 1 s i
            else position_from l (c + 1) s i).
    destruct (Ascii.eqb a newline); apply IH; lia.
Qed.

Lemma position_S (s : string) (i : nat) :
  (i < String.length s)%nat ->
  position s (S i) =
  if Ascii.eqb (char_at s i) newline
  then (fst (position s i) + 1, 1)
  else (fst (position s i), snd (position s i) + 1).
Proof. apply position_from_S. Qed.

(** *** One character *)

Lemma is_at_end_lexer_at (s : string) (i : nat) :
  is_at_end (lexer_at s i) = (String.length s <=? i)%nat.
Proof. reflexivity. Qed.

Lemma is_at_end_false (s : string) (i : nat) :
  (i < String.length s)%nat -> is_at_end (lexer_at s i) = false.
Proof. intros Hi. rewrite is_at_end_lexer_at. apply Nat.leb_gt. lia. Qed.

Lemma is_at_end_true (s : string) (i : nat) :
  (String.length s <= i)%nat -> is_at_end (lexer_at s i) = true.
Proof. intros Hi. rewrite is_at_end_lexer_at. by apply Nat.leb_le. Qed.

Lemma peek_lexer_at (s : string) (i : nat) :
  (i < String.length s)%nat -> peek (lexer_at s i) = char_at s i.
Proof. intros Hi. unfold peek. by rewrite is_at_end_false. Qed.

Lemma advance_lexer_at (s : string) (i : nat) :
  (i < String.length s)%nat ->
  advance (lexer_at s i) = (char_at s i, lexer_at s (S i)).
Proof.
  intros Hi. unfold advance, lexer_at. cbn [source_ current_ line_ column_].
  rewrite (position_S s i Hi). by destruct (Ascii.eqb (char_at s i) newline).
Qed.

Lemma remaining_lexer_at (s : string) (i : nat) :
  remaining (lexer_at s i) = (String.length s - i)%nat.
Proof. reflexivity. Qed.

Lemma source_lexer_at (s : string) (i : nat) : source_ (lexer_at s i) = s.
Proof. reflexivity. Qed.

Lemma current_lexer_at (s : string) (i : nat) : current_ (lexer_at s i) = i.
Proof. reflexivity. Qed.

Lemma make_lexer_at (s : string) : make_lexer s = lexer_at s 0.
Proof. reflexivity. Qed.

(** [current_ = start_pos; column_ = start_column;] after one character
    that is no newline brings the lexer back in front of it. *)
Lemma rewind_lexer_at (s : string) (i : nat) :
  (i < String.length s)%nat -> char_at s i <> newline ->
  rewind i (snd (position s i)) (lexer_at s (S i)) = lexer_at s i.
Proof.
  intros Hi Hc. unfold rewind, lexer_at. cbn [source_ current_ line_ column_].
  rewrite (position_S s i Hi).
  destruct (Ascii.eqb_spec (char_at s i) newline) as [E|_]; [done|reflexivity].
Qed.

(** *** The loops *)

(** The loop stops at the first character from [i] on that fails [p]. *)
Lemma advance_while_spec (p : ascii -> bool) (s : string) (fuel i : nat) :
  (i <= String.length s)%nat -> (String.length s - i <= fuel)%nat ->
  exists j,
    advance_while p fuel (lexer_at s i) = lexer_at s j
    /\ (i <= j <= String.length s)%nat
    /\ (forall k, (i <= k < j)%nat -> p (char_at s k) = true)
    /\ (j = String.length s \/ p (char_at s j) = false).
Proof.
  revert i. induction fuel as [|fuel IH]; intros i Hi Hfuel.
  - exists i. repeat split; [lia|lia|intros; lia|left; lia].
  - cbn [advance_while].
    destruct (decide (i < String.length s)%nat) as [Hlt|Hge].
    + rewrite (is_at_end_false s i Hlt), (peek_lexer_at s i Hlt). cbn [negb andb].
      destruct (p (char_at s i)) eqn:Hp.
      * rewrite (advance_lexer_at s i Hlt). cbn [snd].
        destruct (IH (S i)) as (j & Hj & Hij & Hall & Hstop); [lia|lia|].
        exists j. split; [done|]. split; [lia|]. split; [|done].
        intros k Hk. destruct (decide (k = i)) as [->|]; [done|]. apply Hall. lia.
      * exists i. repeat split; [lia|lia|intros; lia|by right].
    + rewrite (is_at_end_true s i) by lia. cbn [negb andb].
      exists i. repeat split; [lia|lia|intros; lia|left; lia].
Qed.

(** When [k] characters pass [p] and the next does not, the loop reads
    exactly these. *)
Lemma advance_while_run (p : ascii -> bool) (s : string) (fuel i k : nat) :
  (i + k <= String.length s)%nat -> (String.length s - i <= fuel)%nat ->
  (forall n, (i <= n < i + k)%nat -> p (char_at s n) = true) ->
  ((i + k)%nat = String.length s \/ p (char_at s (i + k)) = false) ->
  advance_while p fuel (lexer_at s i) = lexer_at s (i + k).
Proof.
  intros Hik Hfuel Hall Hstop.
  destruct (advance_while_spec p s fuel i) as (j & -> & Hij & Hall' & Hstop'); [lia|lia|].
  f_equal.
  destruct (decide (j < i + k)%nat) as [Hlt|Hge].
  - destruct Hstop' as [->|Hj]; [lia|]. rewrite Hall in Hj by lia. discriminate.
  - destruct (decide (i + k < j)%nat) as [Hlt|Hge']; [|lia].
    destruct Hstop as [E|Hk]; [lia|]. rewrite Hall' in Hk by lia. discriminate.
Qed.

Lemma peek_next_lexer_at (s : string) (i : nat) :
  (S i < String.length s)%nat -> peek_next (lexer_at s i) = char_at s (S i).
Proof.
  intros Hi. unfold peek_next. rewrite source_lexer_at, current_lexer_at.
  destruct (Nat.leb_spec (String.length s) (i + 1)); [lia|].
  by replace (i + 1)%nat with (S i) by lia.
Qed.

Lemma peek_next_end (s : string) (i : nat) :
  (String.length s <= S i)%nat -> peek_next (lexer_at s i) = NUL.
Proof.
  intros Hi. unfold peek_next. rewrite source_lexer_at, current_lexer_at.
  destruct (Nat.leb_spec (String.length s) (i + 1)); [done|lia].
Qed.

(** A character of [peek_next] that is not [NUL] was read from the text. *)
Lemma peek_next_char (s : string) (i : nat) (c : ascii) :
  peek_next (lexer_at s i) = c -> c <> NUL ->
  (S i < String.length s)%nat /\ char_at s (S i) = c.
Proof.
  intros Hc Hnul. destruct (decide (S i < String.length s)%nat) as [Hlt|Hge].
  - by rewrite peek_next_lexer_at in Hc.
  - rewrite peek_next_end in Hc by lia. congruence.
Qed.


(** The loop stops behind the first [*/] from [i] on, or at the end. *)
Lemma skip_block_spec (s : string) (fuel i : nat) :
  (i <= String.length s)%nat -> (String.length s - i <= fuel)%nat ->
  exists j,
    skip_block fuel (lexer_at s i) = lexer_at s j
    /\ (i <= j <= String.length s)%nat
    /\ (j = String.length s
        \/ exists k, j = S (S k) /\ (i <= k)%nat
                     /\ char_at s k = "*"%char /\ char_at s (S k) = "/"%char).
Proof.
  revert i. induction fuel as [|fuel IH]; intros i Hi Hfuel.
  - exists i. split; [done|]. split; [lia|]. left. lia.
  - cbn [skip_block].
    destruct (decide (i < String.length s)%nat) as [Hlt|Hge].
    + rewrite (is_at_end_false s i Hlt), (peek_lexer_at s i Hlt).
      destruct (Ascii.eqb (char_at s i) "*" && Ascii.eqb (peek_next (lexer_at s i)) "/")
        eqn:Hclose.
      * apply andb_true_iff in Hclose as [Hstar Hnext].
        apply Ascii.eqb_eq in Hstar, Hnext.
        apply peek_next_char in Hnext as [Hlt' Hslash]; [|discriminate].
        rewrite (advance_lexer_at s i Hlt). cbn [snd].
        rewrite (advance_lexer_at s (S i) Hlt'). cbn [snd].
        exists (S (S i)). split; [done|]. split; [lia|]. right. by exists i.
      * rewrite (advance_lexer_at s i Hlt). cbn [snd].
        destruct (IH (S i)) as (j & Hj & Hij & Hstop); [lia|lia|].
        exists j. split; [done|]. split; [lia|].
        destruct Hstop as [E|(k & ? & ? & ?)]; [by left|]. right. exists k.
        split; [done|]. split; [lia|done].
    + rewrite (is_at_end_true s i) by lia. exists i. split; [done|]. split; [lia|].
      left. lia.
Qed.

(** A closing [*/] is never found when the text has none from [i] on. *)
Lemma skip_block_unterminated (s : string) (fuel i : nat) :
  (i <= String.length s)%nat -> (String.length s - i <= fuel)%nat ->
  (forall k, (i <= k)%nat -> (S k < String.length s)%nat ->
             char_at s k = "*"%char -> char_at s (S k) <> "/"%char) ->
  skip_block fuel (lexer_at s i) = lexer_at s (String.length s).
Proof.
  revert i. induction fuel as [|fuel IH]; intros i Hi Hfuel Hnone.
  - cbn [skip_block]. f_equal. lia.
  - cbn [skip_block].
    destruct (decide (i < String.length s)%nat) as [Hlt|Hge].
    + rewrite (is_at_end_false s i Hlt), (peek_lexer_at s i Hlt).
      destruct (Ascii.eqb (char_at s i) "*" && Ascii.eqb (peek_next (lexer_at s i)) "/")
        eqn:Hclose.
      * exfalso. apply andb_true_iff in Hclose as [Hstar Hnext].
        apply Ascii.eqb_eq in Hstar.
        unfold peek_next in Hnext. rewrite source_lexer_at, current_lexer_at in Hnext.
        destruct (Nat.leb_spec (String.length s) (i + 1)); [discriminate|].
        apply Ascii.eqb_eq in Hnext. replace (i + 1)%nat with (S i) in Hnext by lia.
        apply (Hnone i); [lia|lia|done|done].
      * rewrite (advance_lexer_at s i Hlt). cbn [snd].
        apply IH; [lia|lia|]. intros k Hk. apply Hnone. lia.
    + rewrite (is_at_end_true s i) by lia. f_equal. lia.
Qed.

(** What [skip_whitespace_and_comments] stops in front of. *)
Lemma skip_loop_spec (s : string) (fuel i : nat) :
  (i <= String.length s)%nat -> (String.length s - i <= fuel)%nat ->
  exists j,
    skip_loop fuel (lexer_at s i) = lexer_at s j
    /\ (i <= j <= String.length s)%nat
    /\ (j = String.length s
        \/ (is_space (char_at s j) = false
            /\ Ascii.eqb (char_at s j) "-" && Ascii.eqb (peek_next (lexer_at s j)) "-"
               = false
            /\ Ascii.eqb (char_at s j) "/" && Ascii.eqb (peek_next (lexer_at s j)) "*"
               = false)).
Proof.
  revert i. induction fuel as [|fuel IH]; intros i Hi Hfuel.
  - exists i. repeat split; [lia|lia|left; lia].
  - cbn [skip_loop].
    destruct (decide (i < String.length s)%nat) as [Hlt|Hge].
    2:{ rewrite (is_at_end_true s i) by lia. exists i. repeat split; [lia|lia|left; lia]. }
    rewrite (is_at_end_false s i Hlt), (peek_lexer_at s i Hlt).
    destruct (is_space (char_at s i)) eqn:Hspace.
    { rewrite (advance_lexer_at s i Hlt). cbn [snd].
      destruct (IH (S i)) as (j & Hj & Hij & Hstop); [lia|lia|].
      exists j. split; [done|]. split; [lia|done]. }
    destruct (Ascii.eqb (char_at s i) "-" && Ascii.eqb (peek_next (lexer_at s i)) "-")
      eqn:Hline.
    { apply andb_true_iff in Hline as [Hc _]. apply Ascii.eqb_eq in Hc.
      rewrite remaining_lexer_at.
      assert (advance_while (fun c => negb (Ascii.eqb c newline))
                (String.length s - i) (lexer_at s i)
              = advance_while (fun c => negb (Ascii.eqb c newline))
                  (String.length s - S i) (lexer_at s (S i))) as ->.
      { replace (String.length s - i)%nat with (S (String.length s - S i)) by lia.
        cbn [advance_while].
        rewrite (is_at_end_false s i Hlt), (peek_lexer_at s i Hlt), Hc.
        cbn [negb andb Ascii.eqb]. by rewrite (advance_lexer_at s i Hlt). }
      destruct (advance_while_spec (fun c => negb (Ascii.eqb c newline)) s
                  (String.length s - S i) (S i)) as (m & -> & Him & _); [lia|lia|].
      destruct (IH m) as (j & Hj & Hmj & Hstop); [lia|lia|].
      exists j. split; [done|]. split; [lia|done]. }
    destruct (Ascii.eqb (char_at s i) "/" && Ascii.eqb (peek_next (lexer_at s i)) "*")
      eqn:Hblock.
    { apply andb_true_iff in Hblock as [_ Hnext]. apply Ascii.eqb_eq in Hnext.
      apply peek_next_char in Hnext as [Hlt' _]; [|discriminate].
      rewrite (advance_lexer_at s i Hlt). cbn [snd].
      rewrite (advance_lexer_at s (S i) Hlt'). cbn [snd].
      rewrite remaining_lexer_at.
      destruct (skip_block_spec s (String.length s - S (S i)) (S (S i)))
        as (m & -> & Him & _); [lia|lia|].
      destruct (IH m) as (j & Hj & Hmj & Hstop); [lia|lia|].
      exists j. split; [done|]. split; [lia|done]. }
    exists i. split; [done|]. split; [lia|]. by right.
Qed.

Lemma skip_whitespace_and_comments_spec (s : string) (i : nat) :
  (i <= String.length s)%nat ->
  exists j,
    skip_whitespace_and_comments (lexer_at s i) = lexer_at s j
    /\ (i <= j <= String.length s)%nat
    /\ (j = String.length s \/ is_space (char_at s j) = false).
Proof.
  intros Hi. unfold skip_whitespace_and_comments. rewrite remaining_lexer_at.
  destruct (skip_loop_spec s (String.length s - i) i) as (j & Hj & Hij & Hstop);
    [lia|lia|].
  exists j. split; [done|]. split; [done|].
  destruct Hstop as [E|(E & _)]; [by left | by right].
Qed.

(** *** The scanners *)

Lemma scan_string_loop_spec (quote : ascii) (s : string) (fuel i : nat) (v : string) :
  (i <= String.length s)%nat -> (String.length s - i <= fuel)%nat ->
  exists j v',
    scan_string_loop quote fuel (lexer_at s i) v = (lexer_at s j, v')
    /\ (i <= j <= String.length s)%nat
    /\ (forall k, (i <= k < j)%nat -> char_at s k <> quote \/ (i < k)%nat)
    /\ (j = String.length s \/ char_at s j = quote).
Proof.
  revert i v. induction fuel as [|fuel IH]; intros i v Hi Hfuel.
  - exists i, v. repeat split; [lia|lia|intros; lia|left; lia].
  - cbn [scan_string_loop].
    destruct (decide (i < String.length s)%nat) as [Hlt|Hge].
    2:{ rewrite (is_at_end_true s i) by lia. cbn [negb andb].
        exists i, v. repeat split; [lia|lia|intros; lia|left; lia]. }
    rewrite (is_at_end_false s i Hlt), (peek_lexer_at s i Hlt). cbn [negb andb].
    destruct (Ascii.eqb_spec (char_at s i) quote) as [Hq|Hq]; cbn [negb].
    { exists i, v. repeat split; [lia|lia|intros; lia|by right]. }
    rewrite (advance_lexer_at s i Hlt). cbn [snd].
    destruct (Ascii.eqb (char_at s i) backslash).
    + destruct (decide (S i < String.length s)%nat) as [Hlt'|Hge'].
      * rewrite (is_at_end_false s (S i) Hlt'), (advance_lexer_at s (S i) Hlt').
        cbn [negb].
        destruct (IH (S (S i)) (push_back v (escaped_char (char_at s (S i)))))
          as (j & v' & Hj & Hij & Hall & Hstop); [lia|lia|].
        exists j, v'. split; [done|]. split; [lia|]. split; [|done].
        intros k Hk. destruct (decide (k = i)) as [->|]; [by left | right; lia].
      * rewrite (is_at_end_true s (S i)) by lia. cbn [negb].
        destruct (IH (S i) v) as (j & v' & Hj & Hij & Hall & Hstop); [lia|lia|].
        exists j, v'. split; [done|]. split; [lia|]. split; [|done].
        intros k Hk. destruct (decide (k = i)) as [->|]; [by left | right; lia].
    + destruct (IH (S i) (push_back v (char_at s i)))
        as (j & v' & Hj & Hij & Hall & Hstop); [lia|lia|].
      exists j, v'. split; [done|]. split; [lia|]. split; [|done].
      intros k Hk. destruct (decide (k = i)) as [->|]; [by left | right; lia].
Qed.

Lemma scanned_token (s : string) (i j : nat) (l c : Z) (t : TokenType) (txt : string) :
  (i <= j <= String.length s)%nat -> t <> END_OF_FILE ->
  scanned s i l c (make_token t txt l c, lexer_at s j).
Proof. intros Hi Ht. exists j. repeat split; [lia|lia|done]. Qed.

Lemma scanned_set_value (s : string) (i : nat) (l c : Z) (tok : Token) (lx : Lexer)
    (v : Literal) :
  scanned s i l c (tok, lx) -> scanned s i l c (set_value tok v, lx).
Proof. intros (j & Hj). by exists j. Qed.

Lemma scanned_mono (s : string) (i i' : nat) (l c : Z) (r : Token * Lexer) :
  (i <= i')%nat -> scanned s i' l c r -> scanned s i l c r.
Proof.
  intros Hi (j & ? & ? & ?). exists j. split; [done|]. split; [lia|done].
Qed.

Lemma scan_string_spec (quote : ascii) (s : string) (i : nat) (l c : Z) :
  (i <= String.length s)%nat ->
  scanned s i l c (scan_string quote l c (lexer_at s i)).
Proof.
  intros Hi. unfold scan_string. rewrite remaining_lexer_at.
  destruct (scan_string_loop_spec quote s (String.length s - i) i EmptyString)
    as (j & v & -> & Hij & _ & _); [lia|lia|].
  destruct (decide (j < String.length s)%nat) as [Hlt|Hge].
  - rewrite (is_at_end_false s j Hlt), (advance_lexer_at s j Hlt). cbn [snd].
    apply scanned_set_value, scanned_token; [lia|discriminate].
  - rewrite (is_at_end_true s j) by lia. apply scanned_token; [lia|discriminate].
Qed.

(** The loop stops at a newline, which is the [return] inside it, at the
    closing backtick, or at the end. *)
Lemma scan_backtick_loop_spec (s : string) (fuel i : nat) (v : string) :
  (i <= String.length s)%nat -> (String.length s - i <= fuel)%nat ->
  exists j,
    (i <= j <= String.length s)%nat
    /\ ((scan_backtick_loop fuel (lexer_at s i) v = inl (lexer_at s j)
         /\ (j < String.length s)%nat /\ char_at s j = newline)
        \/ (exists v', scan_backtick_loop fuel (lexer_at s i) v = inr (lexer_at s j, v')
                       /\ (j = String.length s \/ char_at s j = "`"%char))).
Proof.
  revert i v. induction fuel as [|fuel IH]; intros i v Hi Hfuel.
  - exists i. split; [lia|]. right. exists v. split; [done|]. left. lia.
  - cbn [scan_backtick_loop].
    destruct (decide (i < String.length s)%nat) as [Hlt|Hge].
    2:{ rewrite (is_at_end_true s i) by lia. cbn [negb andb].
        exists i. split; [lia|]. right. exists v. split; [done|]. left. lia. }
    rewrite (is_at_end_false s i Hlt), (peek_lexer_at s i Hlt). cbn [negb andb].
    destruct (Ascii.eqb_spec (char_at s i) "`") as [Hq|Hq]; cbn [negb].
    { exists i. split; [lia|]. right. exists v. split; [done|]. by right. }
    destruct (Ascii.eqb_spec (char_at s i) newline) as [Hn|Hn].
    { exists i. split; [lia|]. by left. }
    rewrite (advance_lexer_at s i Hlt).
    destruct (IH (S i) (push_back v (char_at s i))) as (j & Hij & Hj); [lia|lia|].
    exists j. split; [lia|done].
Qed.

Lemma scan_backtick_identifier_spec (s : string) (i : nat) (l c : Z) :
  (i <= String.length s)%nat ->
  scanned s i l c (scan_backtick_identifier l c (lexer_at s i)).
Proof.
  intros Hi. unfold scan_backtick_identifier. rewrite remaining_lexer_at.
  destruct (scan_backtick_loop_spec s (String.length s - i) i EmptyString)
    as (j & Hij & [(-> & _) | (v & -> & _)]); [lia|lia| |].
  - apply (scanned_mono s i j); [lia|]. apply scanned_token; [lia|discriminate].
  - apply (scanned_mono s i j); [lia|].
    destruct (decide (j < String.length s)%nat) as [Hlt|Hge].
    + rewrite (is_at_end_false s j Hlt), (advance_lexer_at s j Hlt). cbn [snd].
      apply (scanned_mono s j (S j)); [lia|].
      destruct (String.eqb v ""); apply scanned_token; (lia || discriminate).
    + rewrite (is_at_end_true s j) by lia. apply scanned_token; [lia|discriminate].
Qed.

Lemma keyword_not_end_of_file (w : string) : keywords_ !! w <> Some END_OF_FILE.
Proof.
  intros Hw.
  assert (map_Forall (fun _ t => t <> END_OF_FILE) keywords_) as Hall.
  { apply map_Forall_to_list. vm_compute.
    repeat (apply Forall_cons; split; [discriminate|]). apply Forall_nil_2. }
  by apply (Hall w END_OF_FILE).
Qed.

Lemma isdigit_not_newline (c : ascii) : isdigit c = true -> c <> newline.
Proof. intros Hc ->. discriminate. Qed.

Lemma word_char_not_newline (c : ascii) :
  isalpha c || Ascii.eqb c "_" = true -> c <> newline.
Proof. intros Hc ->. discriminate. Qed.

Lemma isalpha_isalnum (c : ascii) : isalpha c = true -> isalnum c = true.
Proof. unfold isalnum. by intros ->. Qed.

Lemma scan_identifier_spec (s : string) (i : nat) :
  (i < String.length s)%nat ->
  isalpha (char_at s i) || Ascii.eqb (char_at s i) "_" = true ->
  scanned s (S i) (fst (position s i)) (snd (position s i))
    (scan_identifier i (fst (position s i)) (snd (position s i)) (lexer_at s (S i))).
Proof.
  intros Hi Hc. unfold scan_identifier.
  rewrite rewind_lexer_at by (done || by apply word_char_not_newline).
  rewrite remaining_lexer_at.
  destruct (advance_while_spec (fun c => isalnum c || Ascii.eqb c "_") s
              (String.length s - i) i) as (j & -> & Hij & _ & Hstop); [lia|lia|].
  assert (S i <= j)%nat as Hj.
  { destruct (decide (j = i)) as [->|]; [|lia]. destruct Hstop as [E|Hstop]; [lia|].
    exfalso. apply orb_true_iff in Hc as [Hc|Hc].
    - by rewrite (isalpha_isalnum _ Hc) in Hstop.
    - rewrite Hc in Hstop. by rewrite orb_true_r in Hstop. }
  destruct (keywords_ !! _) as [t|] eqn:Ht.
  - apply (scanned_mono s (S i) j); [lia|]. apply scanned_token; [lia|].
    intros ->. by apply keyword_not_end_of_file in Ht.
  - apply (scanned_mono s (S i) j); [lia|]. apply scanned_token; [lia|discriminate].
Qed.

Section Scanners.

Variable stod : string -> option double.
Variable char_is_signed : bool.

Lemma scan_number_spec (s : string) (i : nat) (r : Token * Lexer) :
  (i < String.length s)%nat -> isdigit (char_at s i) = true ->
  scan_number stod i (fst (position s i)) (snd (position s i)) (lexer_at s (S i))
  = Some r ->
  scanned s (S i) (fst (position s i)) (snd (position s i)) r.
Proof.
  intros Hi Hc. unfold scan_number.
  rewrite rewind_lexer_at by (done || by apply isdigit_not_newline).
  rewrite (peek_lexer_at s i Hi).
  destruct (Ascii.eqb (char_at s i) "0"
            && (Ascii.eqb (peek_next (lexer_at s i)) "x"
                || Ascii.eqb (peek_next (lexer_at s i)) "X")) eqn:Hhex.
  - assert (S i < String.length s)%nat as Hi'.
    { apply andb_true_iff in Hhex as [_ Hx]. apply orb_true_iff in Hx as [Hx|Hx];
        apply Ascii.eqb_eq in Hx; by apply peek_next_char in Hx as [? _]. }
    rewrite (advance_lexer_at s i Hi). cbn [snd].
    rewrite (advance_lexer_at s (S i) Hi'). cbn [snd].
    rewrite remaining_lexer_at, current_lexer_at.
    destruct (advance_while_spec isxdigit s (String.length s - S (S i)) (S (S i)))
      as (j & -> & Hij & _ & _); [lia|lia|].
    rewrite current_lexer_at.
    destruct (j =? S (S i))%nat.
    + intros [= <-]. apply (scanned_mono s (S i) j); [lia|].
      apply scanned_token; [lia|discriminate].
    + destruct (stoll _ 16); [|discriminate]. intros [= <-].
      apply (scanned_mono s (S i) j); [lia|].
      apply scanned_set_value, scanned_token; [lia|discriminate].
  - rewrite remaining_lexer_at.
    destruct (advance_while_spec isdigit s (String.length s - i) i)
      as (j & -> & Hij & _ & Hstop); [lia|lia|].
    assert (S i <= j)%nat as Hj.
    { destruct (decide (j = i)) as [->|]; [|lia]. destruct Hstop as [E|Hstop]; [lia|].
      congruence. }
    destruct (negb (is_at_end (lexer_at s j)) && Ascii.eqb (peek (lexer_at s j)) "."
              && isdigit (peek_next (lexer_at s j))) eqn:Hfloat.
    + assert (j < String.length s)%nat as Hj'.
      { apply andb_true_iff in Hfloat as [Hf _]. apply andb_true_iff in Hf as [Hf _].
        rewrite is_at_end_lexer_at in Hf. apply negb_true_iff, Nat.leb_gt in Hf. lia. }
      rewrite (advance_lexer_at s j Hj'). cbn [snd]. rewrite remaining_lexer_at.
      destruct (advance_while_spec isdigit s (String.length s - S j) (S j))
        as (m & -> & Hjm & _ & _); [lia|lia|].
      destruct (stod _); [|discriminate]. intros [= <-].
      apply (scanned_mono s (S i) m); [lia|].
      apply scanned_set_value, scanned_token; [lia|discriminate].
    + destruct (stoll _ 10); [|discriminate]. intros [= <-].
      apply (scanned_mono s (S i) j); [lia|].
      apply scanned_set_value, scanned_token; [lia|discriminate].
Qed.

Lemma match_char_spec (expected : ascii) (s : string) (i : nat) :
  (i <= String.length s)%nat ->
  exists b j, match_char expected (lexer_at s i) = (b, lexer_at s j)
              /\ (i <= j <= String.length s)%nat.
Proof.
  intros Hi. unfold match_char.
  destruct (decide (i < String.length s)%nat) as [Hlt|Hge].
  - rewrite (is_at_end_false s i Hlt), source_lexer_at, current_lexer_at.
    destruct (Ascii.eqb expected (char_at s i)); cbn [negb].
    + rewrite (advance_lexer_at s i Hlt). exists true, (S i). split; [done|lia].
    + exists false, i. split; [done|lia].
  - rewrite (is_at_end_true s i) by lia. exists false, i. split; [done|lia].
Qed.

Lemma make_error_token_scanned (s : string) (i : nat) (l c : Z) (m : string)
    (bad : ascii) :
  (i <= String.length s)%nat ->
  scanned s i l c (make_error_token char_is_signed m bad l c, lexer_at s i).
Proof. intros Hi. apply scanned_token; [lia|discriminate]. Qed.

(** [scan_token] reads at least one character, stays inside the text
    and stamps the token with the position it started at. *)
Lemma scan_token_spec (s : string) (i : nat) (r : Token * Lexer) :
  (i < String.length s)%nat ->
  scan_token stod char_is_signed (lexer_at s i) = Some r ->
  scanned s (S i) (fst (position s i)) (snd (position s i)) r.
Proof.
  intros Hi. unfold scan_token. rewrite (advance_lexer_at s i Hi).
  cbn [line_ column_ current_ lexer_at].
  fold (lexer_at s (S i)).
  set (l := fst (position s i)). set (c := snd (position s i)).
  repeat match goal with
  | |- context [if Ascii.eqb (char_at s i) ?d then Some (make_token _ _ _ _, _) else _] =>
      destruct (Ascii.eqb (char_at s i) d);
      [intros [= <-]; apply scanned_token; [lia|discriminate]|]
  end.
  destruct (Ascii.eqb (char_at s i) "!").
  { destruct (match_char_spec "=" s (S i)) as (b & j & -> & Hj); [lia|].
    destruct b; intros [= <-]; apply (scanned_mono s (S i) j); try lia.
    - apply scanned_token; [lia|discriminate].
    - apply make_error_token_scanned. lia. }
  destruct (Ascii.eqb (char_at s i) "<").
  { destruct (match_char_spec "=" s (S i)) as (b & j & -> & Hj); [lia|].
    destruct b.
    - intros [= <-]; apply (scanned_mono s (S i) j); try lia.
      apply scanned_token; [lia|discriminate].
    - destruct (match_char_spec ">" s j) as (b' & j' & -> & Hj'); [lia|].
      destruct b'; intros [= <-]; apply (scanned_mono s (S i) j'); try lia;
        apply scanned_token; (lia || discriminate). }
  destruct (Ascii.eqb (char_at s i) ">").
  { destruct (match_char_spec "=" s (S i)) as (b & j & -> & Hj); [lia|].
    destruct b; intros [= <-]; apply (scanned_mono s (S i) j); try lia;
      apply scanned_token; (lia || discriminate). }
  destruct (Ascii.eqb (char_at s i) "`").
  { intros [= <-]. apply scan_backtick_identifier_spec. lia. }
  destruct (Ascii.eqb (char_at s i) "'" || Ascii.eqb (char_at s i) double_quote).
  { intros [= <-]. apply scan_string_spec. lia. }
  destruct (isdigit (char_at s i)) eqn:Hdigit.
  { by apply scan_number_spec. }
  destruct (isalpha (char_at s i) || Ascii.eqb (char_at s i) "_") eqn:Hword.
  { intros [= <-]. by apply scan_identifier_spec. }
  intros [= <-]. apply make_error_token_scanned. lia.
Qed.

(** Only a number literal makes [scan_token] throw. *)
Lemma scan_token_None (lx : Lexer) :
  scan_token stod char_is_signed lx = None ->
  isdigit (char_at (source_ lx) (current_ lx)) = true.
Proof.
  unfold scan_token, advance.
  set (c := char_at (source_ lx) (current_ lx)).
  set (lx' := if Ascii.eqb c newline then _ else _).
  repeat match goal with
  | |- context [if Ascii.eqb c ?d then Some _ else _] =>
      destruct (Ascii.eqb c d); [discriminate|]
  end.
  destruct (Ascii.eqb c "!").
  { destruct (match_char "=" lx') as [[] ?]; discriminate. }
  destruct (Ascii.eqb c "<").
  { destruct (match_char "=" lx') as [[] lx'']; [discriminate|].
    destruct (match_char ">" lx'') as [[] ?]; discriminate. }
  destruct (Ascii.eqb c ">").
  { destruct (match_char "=" lx') as [[] ?]; discriminate. }
  destruct (Ascii.eqb c "`"); [discriminate|].
  destruct (Ascii.eqb c "'" || Ascii.eqb c double_quote); [discriminate|].
  destruct (isdigit c); [done|].
  destruct (isalpha c || Ascii.eqb c "_"); discriminate.
Qed.

End Scanners.

(** *** [tokenize] *)

Lemma string_forall_char_at (p : ascii -> bool) (s : string) (i : nat) :
  string_forall p s = true -> (i < String.length s)%nat -> p (char_at s i) = true.
Proof.
  revert i. induction s as [|c s IH]; intros i Hs Hi; simpl in Hi; [lia|].
  cbn [string_forall] in Hs. apply andb_true_iff in Hs as [Hc Hs].
  destruct i as [|i]; [done|]. rewrite char_at_cons. apply IH; [done|lia].
Qed.

Section Loop.

Variable stod : string -> option double.
Variable char_is_signed : bool.

Lemma tokenize_loop_spec (s : string) (fuel i : nat) (tokens res : list Token)
    (lx' : Lexer) :
  (i <= String.length s)%nat -> (String.length s - i <= fuel)%nat ->
  tokenize_loop stod char_is_signed fuel (lexer_at s i) tokens = Some (res, lx') ->
  lx' = lexer_at s (String.length s)
  /\ exists offsets new,
       res = tokens ++ new
       /\ Forall2 (token_at s) offsets new
       /\ StronglySorted lt offsets
       /\ Forall (fun k => (i <= k)%nat) offsets.
Proof.
  revert i tokens. induction fuel as [|fuel IH]; intros i tokens Hi Hfuel.
  - cbn [tokenize_loop]. intros [= <- <-]. split; [f_equal; lia|].
    exists [], []. rewrite app_nil_r. repeat split; constructor.
  - cbn [tokenize_loop].
    destruct (decide (i < String.length s)%nat) as [Hlt|Hge].
    2:{ rewrite (is_at_end_true s i) by lia. intros [= <- <-]. split; [f_equal; lia|].
        exists [], []. rewrite app_nil_r. repeat split; constructor. }
    rewrite (is_at_end_false s i Hlt).
    destruct (skip_whitespace_and_comments_spec s i) as (j & -> & Hij & Hstop); [lia|].
    destruct (decide (j < String.length s)%nat) as [Hlt'|Hge'].
    2:{ rewrite (is_at_end_true s j) by lia. intros [= <- <-]. split; [f_equal; lia|].
        exists [], []. rewrite app_nil_r. repeat split; constructor. }
    rewrite (is_at_end_false s j Hlt').
    destruct (scan_token stod char_is_signed (lexer_at s j)) as [[tok lx1]|] eqn:Hscan;
      [|discriminate].
    apply scan_token_spec in Hscan as (m & Hm & Hjm & Hline & Hcol & Htype); [|done].
    cbn [fst snd] in Hm, Hline, Hcol, Htype. subst lx1. intros Hloop.
    apply IH in Hloop as (-> & offsets & new & -> & Hall & Hsorted & Hfrom); [|lia|lia].
    split; [done|]. exists (j :: offsets), (tok :: new).
    split; [by rewrite <- app_assoc|]. split; [|split].
    + constructor; [|done]. unfold token_at, located.
      split; [done|]. split; [by destruct Hstop as [E|E]; [lia|]|].
      split; [|done]. rewrite Hline, Hcol. by destruct (position s j).
    + constructor; [done|]. eapply Forall_impl; [exact Hfrom|]. cbn. lia.
    + constructor; [lia|]. eapply Forall_impl; [exact Hfrom|]. cbn. lia.
Qed.

Lemma tokenize_spec (s : string) (tokens : list Token) (lx' : Lexer) :
  tokenize stod char_is_signed (make_lexer s) = Some (tokens, lx') ->
  lx' = lexer_at s (String.length s)
  /\ exists offsets body,
       tokens = body ++ [end_of_file s]
       /\ Forall2 (token_at s) offsets body
       /\ StronglySorted lt offsets.
Proof.
  unfold tokenize. rewrite make_lexer_at, remaining_lexer_at.
  destruct (tokenize_loop _ _ _ _ _) as [[body lx]|] eqn:Hloop; [|discriminate].
  apply tokenize_loop_spec in Hloop as (-> & offsets & new & -> & Hall & Hsorted & _);
    [|lia|lia].
  intros [= <- <-]. split; [done|]. by exists offsets, new.
Qed.

(** The loop goes on to the end of the text unless a number literal
    throws. *)
Lemma tokenize_loop_Some (s : string) (fuel i : nat) (tokens : list Token) :
  (forall k, (k < String.length s)%nat -> isdigit (char_at s k) = false) ->
  (i <= String.length s)%nat ->
  is_Some (tokenize_loop stod char_is_signed fuel (lexer_at s i) tokens).
Proof.
  intros Hnone. revert i tokens. induction fuel as [|fuel IH]; intros i tokens Hi.
  - by eexists.
  - cbn [tokenize_loop].
    destruct (is_at_end (lexer_at s i)); [by eexists|].
    destruct (skip_whitespace_and_comments_spec s i) as (j & -> & Hij & _); [lia|].
    destruct (decide (j < String.length s)%nat) as [Hlt|Hge].
    2:{ rewrite (is_at_end_true s j) by lia. by eexists. }
    rewrite (is_at_end_false s j Hlt).
    destruct (scan_token stod char_is_signed (lexer_at s j)) as [[tok lx1]|] eqn:Hscan.
    + apply scan_token_spec in Hscan as (m & Hm & Hjm & _); [|done].
      cbn [snd] in Hm. subst lx1. apply IH. lia.
    + apply scan_token_None in Hscan. rewrite source_lexer_at, current_lexer_at in Hscan.
      rewrite Hnone in Hscan by done. discriminate.
Qed.

End Loop.

(** X8: tokenize reads the whole text and ends the tokens with the only
    END_OF_FILE token, which carries the position of the end of the text. *)
Theorem tokenize_end_of_file (stod : string -> option double) (char_is_signed : bool)
    (source : string) (tokens : list Token) (lx' : Lexer) :
  tokenize stod char_is_signed (make_lexer source) = Some (tokens, lx') ->
  lx' = lexer_at source (String.length source)
  /\ exists body,
       tokens = body ++ [end_of_file source]
       /\ Forall (fun token => type token <> END_OF_FILE) body.
Proof.
  intros Htok. apply tokenize_spec in Htok as (-> & offsets & body & -> & Hall & _).
  split; [done|]. exists body. split; [done|].
  clear -Hall. induction Hall as [|i tok offsets body Htok _ IH]; constructor; [|done].
  by destruct Htok as (_ & _ & _ & Htype).
Qed.

Lemma tokenize_end_of_file_witness :
  exists body,
    [make_token IDENTIFIER "a" 1 1; make_token COMMA "," 2 1; make_token END_OF_FILE "" 2 2]
    = body ++ [end_of_file two_lines]
    /\ Forall (fun token => type token <> END_OF_FILE) body.
Proof.
  apply (tokenize_end_of_file (fun _ => None) true two_lines _ (lexer_at two_lines 3)).
  reflexivity.
Defined.

(** X9: every token carries the line and the column of the place where it
    starts; the places go strictly forward, none is white space, and
    the last one is the end of the text. *)
Theorem tokenize_positions (stod : string -> option double) (char_is_signed : bool)
    (source : string) (tokens : list Token) :
  tokens_of stod char_is_signed source = Some tokens ->
  exists offsets,
    Forall2 (located source) (offsets ++ [String.length source]) tokens
    /\ StronglySorted lt (offsets ++ [String.length source])
    /\ Forall (fun i => is_space (char_at source i) = false) offsets.
Proof.
  unfold tokens_of.
  destruct (tokenize _ _ _) as [[tokens' lx']|] eqn:Htok; [|discriminate].
  cbn. intros [= <-].
  apply tokenize_spec in Htok as (_ & offsets & body & -> & Hall & Hsorted).
  exists offsets. split; [|split].
  - apply Forall2_app.
    + eapply Forall2_impl; [exact Hall|]. by intros i tok (_ & _ & Hloc & _).
    + constructor; [|constructor]. unfold located, end_of_file. cbn.
      by destruct (position source (String.length source)).
  - assert (Forall (fun i => (i < String.length source)%nat) offsets) as Hlt.
    { clear -Hall. induction Hall as [|i tok offsets body Htok _ IH]; constructor; [|done].
      by destruct Htok as (Hi & _). }
    clear -Hsorted Hlt. induction Hsorted as [|i offsets Hs IH Hi]; cbn.
    + repeat constructor.
    + apply Forall_cons in Hlt as [Hi' Hlt]. constructor; [by apply IH|].
      apply Forall_app. split; [done|]. by constructor.
  - clear -Hall. induction Hall as [|i tok offsets body Htok _ IH]; constructor; [|done].
    by destruct Htok as (_ & Hsp & _).
Qed.

Lemma tokenize_positions_witness :
  exists offsets,
    Forall2 (located two_lines) (offsets ++ [3%nat])
      [make_token IDENTIFIER "a" 1 1; make_token COMMA "," 2 1;
       make_token END_OF_FILE "" 2 2]
    /\ StronglySorted lt (offsets ++ [3%nat])
    /\ Forall (fun i => is_space (char_at two_lines i) = false) offsets.
Proof.
  apply (tokenize_positions (fun _ => None) true two_lines).
  reflexivity.
Defined.

(** X10: tokenize throws only for a number literal: on a text without a
    digit it returns. *)
Theorem tokenize_throws_only_on_numbers (stod : string -> option double)
    (char_is_signed : bool) (source : string) :
  string_forall (fun c => negb (isdigit c)) source = true ->
  is_Some (tokens_of stod char_is_signed source).
Proof.
  intros Hnone. unfold tokens_of, tokenize.
  destruct (tokenize_loop_Some stod char_is_signed source
              (remaining (make_lexer source)) 0 []) as [[body lx] Hloop].
  - intros k Hk. apply negb_true_iff.
    by apply (string_forall_char_at (fun c => negb (isdigit c))).
  - lia.
  - rewrite make_lexer_at in *. rewrite Hloop. by eexists.
Qed.

Lemma tokenize_throws_only_on_numbers_witness :
  is_Some (tokens_of (fun _ => None) true "SELECT @ FROM users").
Proof.
  apply (tokenize_throws_only_on_numbers (fun _ => None) true "SELECT @ FROM users").
  reflexivity.
Defined.

(** *** Texts of one token *)

Lemma char_at_append_l (a b : string) (i : nat) :
  (i < String.length a)%nat -> char_at (a +:+ b) i = char_at a i.
Proof.
  revert i. induction a as [|c a IH]; intros i Hi; cbn in Hi; [lia|].
  rewrite append_cons. destruct i as [|i]; [reflexivity|].
  rewrite !char_at_cons. apply IH. lia.
Qed.

Lemma char_at_append_r (a b : string) (i : nat) :
  char_at (a +:+ b) (String.length a + i) = char_at b i.
Proof.
  induction a as [|c a IH]; [reflexivity|]. rewrite append_cons. cbn [String.length].
  change (S (String.length a) + i)%nat with (S (String.length a + i)).
  by rewrite char_at_cons.
Qed.

Lemma substring_full (s : string) : substring 0 (String.length s) s = s.
Proof. induction s as [|c s IH]; [reflexivity|]. cbn. by rewrite IH. Qed.

Lemma substring_prefix (a b : string) : substring 0 (String.length a) (a +:+ b) = a.
Proof.
  induction a as [|c a IH]; [by destruct b|]. rewrite append_cons. cbn. by rewrite IH.
Qed.

Lemma substring_cons (c : ascii) (s : string) (i n : nat) :
  substring (S i) n (String c s) = substring i n s.
Proof. reflexivity. Qed.

Lemma position_no_newline (s : string) (i : nat) :
  (i <= String.length s)%nat ->
  (forall k, (k < i)%nat -> char_at s k <> newline) ->
  position s i = (1, 1 + Z.of_nat i).
Proof.
  induction i as [|i IH]; intros Hi Hnl; [reflexivity|].
  rewrite position_S by lia. rewrite IH by (lia || (intros; apply Hnl; lia)).
  destruct (Ascii.eqb_spec (char_at s i) newline) as [E|_].
  - by apply Hnl in E; [|lia].
  - cbn [fst snd]. f_equal. lia.
Qed.

Lemma end_of_file_no_newline (s : string) :
  string_forall (fun c => negb (Ascii.eqb c newline)) s = true ->
  end_of_file s = make_token END_OF_FILE "" 1 (1 + Z.of_nat (String.length s)).
Proof.
  intros Hs. unfold end_of_file. rewrite position_no_newline; [done|lia|].
  intros k Hk E.
  pose proof (string_forall_char_at _ s k Hs Hk) as Hc. cbn in Hc.
  rewrite E in Hc. discriminate.
Qed.

Lemma string_forall_impl (p q : ascii -> bool) (s : string) :
  (forall c, p c = true -> q c = true) ->
  string_forall p s = true -> string_forall q s = true.
Proof.
  intros Hpq. induction s as [|c s IH]; [done|]. cbn [string_forall].
  intros [Hc Hs]%andb_true_iff. apply andb_true_iff. auto.
Qed.

(** The lexer stays where it is in front of a character that is neither
    white space nor the start of a comment. *)
Lemma skip_stays (s : string) (i : nat) :
  (i < String.length s)%nat ->
  is_space (char_at s i) = false ->
  Ascii.eqb (char_at s i) "-" && Ascii.eqb (peek_next (lexer_at s i)) "-" = false ->
  Ascii.eqb (char_at s i) "/" && Ascii.eqb (peek_next (lexer_at s i)) "*" = false ->
  skip_whitespace_and_comments (lexer_at s i) = lexer_at s i.
Proof.
  intros Hi Hspace Hline Hblock. unfold skip_whitespace_and_comments.
  rewrite remaining_lexer_at.
  replace (String.length s - i)%nat with (S (String.length s - S i)) by lia.
  cbn [skip_loop].
  by rewrite (is_at_end_false s i Hi), (peek_lexer_at s i Hi), Hspace, Hline, Hblock.
Qed.

Lemma isalpha_not_digit (c : ascii) : isalpha c = true -> isdigit c = false.
Proof. destruct c as [[] [] [] [] [] [] [] []]; vm_compute; congruence. Qed.

Section OneToken.

Variable stod : string -> option double.
Variable char_is_signed : bool.

Lemma tokenize_loop_end (s : string) (fuel : nat) (tokens : list Token) :
  tokenize_loop stod char_is_signed fuel (lexer_at s (String.length s)) tokens
  = Some (tokens, lexer_at s (String.length s)).
Proof.
  destruct fuel as [|fuel]; [reflexivity|]. cbn [tokenize_loop].
  by rewrite is_at_end_true.
Qed.

Lemma tokenize_loop_step (s : string) (fuel i : nat) (tokens : list Token) :
  (i < String.length s)%nat ->
  skip_whitespace_and_comments (lexer_at s i) = lexer_at s i ->
  tokenize_loop stod char_is_signed (S fuel) (lexer_at s i) tokens
  = match scan_token stod char_is_signed (lexer_at s i) with
    | None => None
    | Some (token, lx) => tokenize_loop stod char_is_signed fuel lx (tokens ++ [token])
    end.
Proof.
  intros Hi Hskip. cbn [tokenize_loop].
  by rewrite (is_at_end_false s i Hi), Hskip, (is_at_end_false s i Hi).
Qed.

(** A text that is one token from its first character to its last. *)
Lemma tokens_of_single (s : string) (token : Token) :
  (0 < String.length s)%nat ->
  skip_whitespace_and_comments (lexer_at s 0) = lexer_at s 0 ->
  scan_token stod char_is_signed (lexer_at s 0)
  = Some (token, lexer_at s (String.length s)) ->
  tokens_of stod char_is_signed s = Some [token; end_of_file s].
Proof.
  intros Hlen Hskip Hscan. unfold tokens_of, tokenize.
  rewrite make_lexer_at, remaining_lexer_at.
  replace (String.length s - 0)%nat with (S (String.length s - 1)) by lia.
  rewrite tokenize_loop_step, Hscan, tokenize_loop_end by done. reflexivity.
Qed.

Lemma tokens_of_throws (s : string) :
  (0 < String.length s)%nat ->
  skip_whitespace_and_comments (lexer_at s 0) = lexer_at s 0 ->
  scan_token stod char_is_signed (lexer_at s 0) = None ->
  tokens_of stod char_is_signed s = None.
Proof.
  intros Hlen Hskip Hscan. unfold tokens_of, tokenize.
  rewrite make_lexer_at, remaining_lexer_at.
  replace (String.length s - 0)%nat with (S (String.length s - 1)) by lia.
  by rewrite tokenize_loop_step, Hscan by done.
Qed.

(** [scan_token] by the class of the first character. *)
Lemma scan_token_digit (s : string) (i : nat) :
  (i < String.length s)%nat -> isdigit (char_at s i) = true ->
  scan_token stod char_is_signed (lexer_at s i)
  = scan_number stod i (fst (position s i)) (snd (position s i)) (lexer_at s (S i)).
Proof.
  intros Hi Hc. unfold scan_token. rewrite (advance_lexer_at s i Hi).
  cbn [line_ column_ current_ lexer_at]. fold (lexer_at s (S i)).
  repeat match goal with
  | |- context [Ascii.eqb (char_at s i) ?d] =>
      destruct (Ascii.eqb_spec (char_at s i) d) as [E|_];
      [rewrite E in Hc; discriminate Hc|]
  end.
  cbn [orb]. by rewrite Hc.
Qed.

Lemma scan_token_word (s : string) (i : nat) :
  (i < String.length s)%nat -> isalpha (char_at s i) || Ascii.eqb (char_at s i) "_" = true ->
  scan_token stod char_is_signed (lexer_at s i)
  = Some (scan_identifier i (fst (position s i)) (snd (position s i)) (lexer_at s (S i))).
Proof.
  intros Hi Hc. unfold scan_token. rewrite (advance_lexer_at s i Hi).
  cbn [line_ column_ current_ lexer_at]. fold (lexer_at s (S i)).
  assert (isdigit (char_at s i) = false) as Hd.
  { apply orb_true_iff in Hc as [Hc|Hc].
    - by apply isalpha_not_digit.
    - apply Ascii.eqb_eq in Hc. by rewrite Hc. }
  rewrite Hd, Hc.
  repeat match goal with
  | |- context [if Ascii.eqb (char_at s i) ?d then _ else _] =>
      destruct (Ascii.eqb_spec (char_at s i) d) as [E|_];
      [rewrite E in Hc; discriminate Hc|]
  end.
  destruct (Ascii.eqb_spec (char_at s i) "'") as [E|_];
    [rewrite E in Hc; discriminate Hc|].
  destruct (Ascii.eqb_spec (char_at s i) double_quote) as [E|_];
    [rewrite E in Hc; discriminate Hc|].
  reflexivity.
Qed.

Lemma scan_token_quote (s : string) (i : nat) :
  (i < String.length s)%nat ->
  char_at s i = "'"%char \/ char_at s i = double_quote ->
  scan_token stod char_is_signed (lexer_at s i)
  = Some (scan_string (char_at s i) (fst (position s i)) (snd (position s i))
            (lexer_at s (S i))).
Proof.
  intros Hi Hc. unfold scan_token. rewrite (advance_lexer_at s i Hi).
  cbn [line_ column_ current_ lexer_at]. fold (lexer_at s (S i)).
  by destruct Hc as [-> | ->].
Qed.

Lemma scan_token_backtick (s : string) (i : nat) :
  (i < String.length s)%nat -> char_at s i = "`"%char ->
  scan_token stod char_is_signed (lexer_at s i)
  = Some (scan_backtick_identifier (fst (position s i)) (snd (position s i))
            (lexer_at s (S i))).
Proof.
  intros Hi Hc. unfold scan_token. rewrite (advance_lexer_at s i Hi).
  cbn [line_ column_ current_ lexer_at]. fold (lexer_at s (S i)).
  by rewrite Hc.
Qed.

Lemma scan_token_minus (s : string) (i : nat) :
  (i < String.length s)%nat -> char_at s i = "-"%char ->
  scan_token stod char_is_signed (lexer_at s i)
  = Some (make_token MINUS "-" (fst (position s i)) (snd (position s i)),
          lexer_at s (S i)).
Proof.
  intros Hi Hc. unfold scan_token. rewrite (advance_lexer_at s i Hi).
  cbn [line_ column_ current_ lexer_at]. fold (lexer_at s (S i)).
  by rewrite Hc.
Qed.

(** A run of digits up to the end of the text. *)
Lemma scan_number_digits (s : string) (i : nat) :
  (i < String.length s)%nat ->
  (forall k, (i <= k < String.length s)%nat -> isdigit (char_at s k) = true) ->
  scan_number stod i (fst (position s i)) (snd (position s i)) (lexer_at s (S i))
  = match stoll (substring i (String.length s - i) s) 10 with
    | None => None
    | Some n =>
        Some (set_value (make_token INTEGER_LITERAL
                           (substring i (String.length s - i) s)
                           (fst (position s i)) (snd (position s i))) (LInt n),
              lexer_at s (String.length s))
    end.
Proof.
  intros Hi Hall. unfold scan_number.
  rewrite rewind_lexer_at by (done || apply isdigit_not_newline, Hall; lia).
  assert (Ascii.eqb (peek_next (lexer_at s i)) "x"
          || Ascii.eqb (peek_next (lexer_at s i)) "X" = false) as ->.
  { destruct (decide (S i < String.length s)%nat) as [Hlt|Hge].
    - rewrite peek_next_lexer_at by done.
      pose proof (Hall (S i) ltac:(lia)) as Hd.
      destruct (Ascii.eqb_spec (char_at s (S i)) "x") as [E|_];
        [rewrite E in Hd; discriminate Hd|].
      destruct (Ascii.eqb_spec (char_at s (S i)) "X") as [E|_];
        [rewrite E in Hd; discriminate Hd|]. reflexivity.
    - by rewrite peek_next_end by lia. }
  rewrite andb_false_r, remaining_lexer_at.
  rewrite (advance_while_run isdigit s (String.length s - i) i (String.length s - i));
    [|lia|lia|intros n Hn; apply Hall; lia|left; lia].
  replace (i + (String.length s - i))%nat with (String.length s) by lia.
  rewrite is_at_end_true by lia. cbn [negb andb]. unfold text_from.
  by rewrite source_lexer_at, current_lexer_at.
Qed.

End OneToken.

(** *** Token types *)

(** X6: token_type_to_string gives every token type a name of its own,
    and never UNKNOWN. *)
Theorem token_type_to_string_injective (a b : TokenType) :
  (token_type_to_string a = token_type_to_string b <-> a = b)
  /\ token_type_to_string a <> "UNKNOWN".
Proof.
  split; [split|].
  - destruct a, b; intros H; (reflexivity || discriminate H).
  - by intros ->.
  - by destruct a.
Qed.

(** X7: is_keyword holds exactly for the token types of the keyword
    table. *)
Theorem is_keyword_table (token : Token) :
  is_keyword token = true <-> exists word, keywords_ !! word = Some (type token).
Proof.
  unfold is_keyword. split.
  - destruct (type token); intros H; try (vm_compute in H; discriminate H); clear H;
      match goal with
      | |- exists _, _ = Some ?t =>
          first [ exists (token_type_to_string t); vm_compute; reflexivity
                | exists "INTEGER"; vm_compute; reflexivity
                | exists "VARCHAR"; vm_compute; reflexivity
                | exists "FLOAT"; vm_compute; reflexivity
                | exists "BOOLEAN"; vm_compute; reflexivity ]
      end.
  - intros [word Hword].
    assert (map_Forall (fun _ t => (underlying SELECT <=? underlying t)%nat
                                   && (underlying t <=? underlying OFFSET)%nat = true)
              keywords_) as Hall.
    { apply map_Forall_to_list. vm_compute.
      repeat (apply Forall_cons; split; [reflexivity|]). apply Forall_nil_2. }
    by apply (Hall word).
Qed.

(** *** Integers *)

Lemma digit_in_digit (c : ascii) :
  isdigit c = true -> digit_in 10 c = Some (byte_of_ascii c - 48).
Proof.
  intros Hc. unfold digit_in, digit_value. rewrite Hc.
  unfold isdigit, between in Hc. apply andb_true_iff in Hc as [H0 H9].
  apply Z.leb_le in H0, H9. change (byte_of_ascii "9") with 57 in H9.
  destruct (Z.ltb_spec (byte_of_ascii c - 48) 10); [done|lia].
Qed.

Lemma string_forall_app (p : ascii -> bool) (a b : string) :
  string_forall p (a +:+ b) = string_forall p a && string_forall p b.
Proof.
  induction a as [|c a IH]; [reflexivity|]. rewrite append_cons. cbn [string_forall].
  by rewrite IH, andb_assoc.
Qed.

Lemma digits_from_app (acc : Z) (d r : string) :
  string_forall isdigit d = true ->
  digits_from 10 acc (d +:+ r) = digits_from 10 (digits_from 10 acc d) r.
Proof.
  revert acc. induction d as [|c d IH]; intros acc Hd; [reflexivity|].
  cbn [string_forall] in Hd. apply andb_true_iff in Hd as [Hc Hd].
  rewrite append_cons. cbn [digits_from]. rewrite (digit_in_digit c Hc). by apply IH.
Qed.

Lemma pretty_N_char_digit (m : N) :
  (m < 10)%N ->
  isdigit (pretty_N_char m) = true
  /\ byte_of_ascii (pretty_N_char m) - 48 = Z.of_N m.
Proof.
  intros Hm.
  assert (m = 0 \/ m = 1 \/ m = 2 \/ m = 3 \/ m = 4 \/ m = 5 \/ m = 6 \/ m = 7
          \/ m = 8 \/ m = 9)%N as Hcases by lia.
  repeat (destruct Hcases as [-> | Hcases]; [by vm_compute|]). subst. by vm_compute.
Qed.

(** The digits that [pretty] puts in front of [s] spell [x]. *)
Lemma pretty_N_go_digits (x : N) :
  exists d,
    (forall s, pretty_N_go x s = d +:+ s)
    /\ string_forall isdigit d = true
    /\ (forall acc, digits_from 10 acc d
                    = acc * 10 ^ Z.of_nat (String.length d) + Z.of_N x)
    /\ ((0 < x)%N -> d <> "").
Proof.
  induction (N.lt_wf_0 x) as [x _ IH].
  destruct (decide (x = 0)%N) as [->|Hx].
  - exists "". split; [|split; [|split]].
    + intros s. by rewrite pretty_N_go_0.
    + reflexivity.
    + intros acc. cbn. lia.
    + lia.
  - destruct (IH (x `div` 10)%N) as (d & Hgo & Hd & Hval & _).
    { apply N.div_lt; lia. }
    destruct (pretty_N_char_digit (x `mod` 10)%N) as [Hc Hcv].
    { apply N.mod_lt. lia. }
    exists (d +:+ String (pretty_N_char (x `mod` 10)) ""). split; [|split; [|split]].
    + intros s. rewrite pretty_N_go_step by lia. by rewrite Hgo, append_assoc.
    + rewrite string_forall_app, Hd. cbn [string_forall]. by rewrite Hc.
    + intros acc. rewrite digits_from_app by done. cbn [digits_from].
      rewrite (digit_in_digit _ Hc), Hval, Hcv, length_append. cbn [String.length].
      rewrite Nat2Z.inj_add, Z.pow_add_r by lia.
      change (10 ^ Z.of_nat 1) with 10.
      pose proof (N.div_mod x 10 ltac:(lia)) as Hdm.
      rewrite N2Z.inj_div, N2Z.inj_mod in *.
      change (Z.of_N 10) with 10 in *.
      pose proof (Z.div_mod (Z.of_N x) 10 ltac:(lia)). lia.
    + intros _. by destruct d.
Qed.

Lemma to_string_digits (n : Z) :
  0 <= n ->
  string_forall isdigit (to_string n) = true
  /\ (0 < String.length (to_string n))%nat
  /\ digits_from 10 0 (to_string n) = n.
Proof.
  intros Hn. unfold to_string. destruct n as [|p|p]; [by vm_compute| |lia].
  change (pretty (Z.pos p)) with (pretty (N.pos p)). unfold pretty, pretty_N.
  destruct (decide (N.pos p = 0)%N) as [E|_]; [discriminate|].
  destruct (pretty_N_go_digits (N.pos p)) as (d & Hgo & Hd & Hval & Hne).
  rewrite Hgo, append_empty_r. split; [done|]. split.
  - destruct d; [by destruct Hne|cbn; lia].
  - rewrite Hval. cbn. lia.
Qed.

Lemma stoll_digits (d : string) :
  string_forall isdigit d = true -> (0 < String.length d)%nat ->
  stoll d 10 = if digits_from 10 0 d <? 2 ^ 63 then Some (digits_from 10 0 d) else None.
Proof.
  intros Hd Hlen. destruct d as [|c d]; [cbn in Hlen; lia|].
  unfold stoll. cbn [string_forall] in Hd. apply andb_true_iff in Hd as [Hc _].
  by rewrite (digit_in_digit c Hc).
Qed.

Lemma digit_not_newline (d : string) :
  string_forall isdigit d = true ->
  string_forall (fun c => negb (Ascii.eqb c newline)) d = true.
Proof.
  apply string_forall_impl. intros c Hc.
  destruct (Ascii.eqb_spec c newline) as [->|_]; [discriminate|done].
Qed.

Lemma digit_first (c : ascii) :
  isdigit c = true ->
  is_space c = false /\ Ascii.eqb c "-" = false /\ Ascii.eqb c "/" = false.
Proof.
  intros Hc. unfold is_space.
  repeat match goal with
  | |- context [Ascii.eqb c ?d] =>
      destruct (Ascii.eqb_spec c d) as [E|_]; [rewrite E in Hc; discriminate Hc|]
  end. done.
Qed.

Section Digits.

Variable stod : string -> option double.
Variable char_is_signed : bool.

(** A text of digits only is one integer literal, or makes [std::stoll]
    throw. *)
Lemma tokens_of_digits (d : string) :
  string_forall isdigit d = true -> (0 < String.length d)%nat ->
  tokens_of stod char_is_signed d
  = if digits_from 10 0 d <? 2 ^ 63
    then Some [set_value (make_token INTEGER_LITERAL d 1 1) (LInt (digits_from 10 0 d));
               make_token END_OF_FILE "" 1 (1 + Z.of_nat (String.length d))]
    else None.
Proof.
  intros Hd Hlen.
  pose proof (string_forall_char_at isdigit d 0 Hd Hlen) as Hc.
  destruct (digit_first _ Hc) as (Hsp & Hminus & Hslash).
  assert (skip_whitespace_and_comments (lexer_at d 0) = lexer_at d 0) as Hskip.
  { apply skip_stays; [done|done|by rewrite Hminus|by rewrite Hslash]. }
  pose proof (scan_token_digit stod char_is_signed d 0 Hlen Hc) as Hscan.
  rewrite scan_number_digits in Hscan;
    [|done|intros k Hk; apply (string_forall_char_at isdigit); [done|lia]].
  rewrite Nat.sub_0_r, substring_full, stoll_digits in Hscan by done.
  destruct (digits_from 10 0 d <? 2 ^ 63).
  - rewrite (tokens_of_single stod char_is_signed d _ Hlen Hskip Hscan).
    by rewrite end_of_file_no_newline by by apply digit_not_newline.
  - by apply tokens_of_throws.
Qed.

(** A minus sign and digits: two tokens, or an exception. *)
Lemma tokens_of_minus_digits (d : string) :
  string_forall isdigit d = true -> (0 < String.length d)%nat ->
  tokens_of stod char_is_signed (String "-" d)
  = if digits_from 10 0 d <? 2 ^ 63
    then Some [make_token MINUS "-" 1 1;
               set_value (make_token INTEGER_LITERAL d 1 2) (LInt (digits_from 10 0 d));
               make_token END_OF_FILE "" 1 (2 + Z.of_nat (String.length d))]
    else None.
Proof.
  intros Hd Hlen. set (s := String "-" d).
  assert (String.length s = S (String.length d)) as Hs by reflexivity.
  assert (forall k, (1 <= k < String.length s)%nat -> isdigit (char_at s k) = true)
    as Hall.
  { intros [|k] Hk; [lia|]. unfold s. rewrite char_at_cons.
    apply (string_forall_char_at isdigit); [done|lia]. }
  pose proof (Hall 1%nat ltac:(lia)) as Hc.
  destruct (digit_first _ Hc) as (Hsp & Hminus & Hslash).
  assert (skip_whitespace_and_comments (lexer_at s 0) = lexer_at s 0) as Hskip0.
  { apply skip_stays; [lia|done| |done].
    rewrite peek_next_lexer_at by lia. by rewrite Hminus, andb_false_r. }
  assert (skip_whitespace_and_comments (lexer_at s 1) = lexer_at s 1) as Hskip1.
  { apply skip_stays; [lia|done|by rewrite Hminus|by rewrite Hslash]. }
  assert (position s 1 = (1, 2)) as Hpos by reflexivity.
  pose proof (scan_token_digit stod char_is_signed s 1 ltac:(lia) Hc) as Hscan.
  rewrite scan_number_digits in Hscan by (lia || done).
  rewrite Hpos, Hs in Hscan. cbn [fst snd] in Hscan.
  replace (S (String.length d) - 1)%nat with (String.length d) in Hscan by lia.
  change (substring 1 (String.length d) s) with (substring 0 (String.length d) d)
    in Hscan.
  rewrite substring_full, stoll_digits in Hscan by done.
  unfold tokens_of, tokenize. rewrite make_lexer_at, remaining_lexer_at, Hs.
  rewrite Nat.sub_0_r.
  rewrite tokenize_loop_step by (lia || done).
  rewrite scan_token_minus by (lia || done).
  destruct (String.length d) as [|n] eqn:Hn; [lia|].
  rewrite tokenize_loop_step by (lia || done). rewrite Hscan.
  destruct (digits_from 10 0 d <? 2 ^ 63); [|done].
  replace (S (S n)) with (String.length s) by lia.
  rewrite tokenize_loop_end. cbn [fmap option_fmap option_map fst app].
  change (make_token END_OF_FILE "" (line_ (lexer_at s (String.length s)))
            (column_ (lexer_at s (String.length s)))) with (end_of_file s).
  rewrite end_of_file_no_newline.
  - rewrite Hs. change (position s 0) with (1, 1). cbn [fst snd].
    by replace (1 + Z.of_nat (S (S n))) with (2 + Z.of_nat (S n)) by lia.
  - unfold s. cbn [string_forall]. by rewrite digit_not_newline.
Qed.

End Digits.

(** X11: the text of an integer value is tokenized back to the integer:
    one INTEGER_LITERAL for a non-negative one, MINUS and the literal of
    the magnitude for a negative one; when the digits say a number above
    the largest int64_t, as for the smallest int64_t, tokenize throws. *)
Theorem tokenize_value_to_string (stod : string -> option double) (char_is_signed : bool)
    (n : Z) :
  tokens_of stod char_is_signed (value_to_string (VInt n))
  = if 0 <=? n
    then
      if n <? 2 ^ 63
      then Some [set_value (make_token INTEGER_LITERAL (to_string n) 1 1) (LInt n);
                 make_token END_OF_FILE "" 1
                   (1 + Z.of_nat (String.length (to_string n)))]
      else None
    else
      if - n <? 2 ^ 63
      then Some [make_token MINUS "-" 1 1;
                 set_value (make_token INTEGER_LITERAL (to_string (- n)) 1 2)
                   (LInt (- n));
                 make_token END_OF_FILE "" 1
                   (2 + Z.of_nat (String.length (to_string (- n))))]
      else None.
Proof.
  change (value_to_string (VInt n)) with (to_string n).
  destruct (Z.leb_spec 0 n) as [Hn|Hn].
  - destruct (to_string_digits n Hn) as (Hd & Hlen & Hval).
    by rewrite tokens_of_digits, Hval.
  - destruct n as [|p|p]; try lia.
    destruct (to_string_digits (Z.pos p) ltac:(lia)) as (Hd & Hlen & Hval).
    change (to_string (Z.neg p)) with (String "-" (to_string (Z.pos p))).
    change (- Z.neg p) with (Z.pos p).
    by rewrite tokens_of_minus_digits, Hval.
Qed.

(** *** Words *)

Lemma word_first (c : ascii) :
  isalpha c || Ascii.eqb c "_" = true ->
  is_space c = false /\ Ascii.eqb c "-" = false /\ Ascii.eqb c "/" = false.
Proof.
  intros Hc. unfold is_space.
  repeat match goal with
  | |- context [Ascii.eqb c ?d] =>
      destruct (Ascii.eqb_spec c d) as [E|_]; [rewrite E in Hc; discriminate Hc|]
  end. done.
Qed.

Lemma word_not_newline (w : string) :
  string_forall (fun c => isalnum c || Ascii.eqb c "_") w = true ->
  string_forall (fun c => negb (Ascii.eqb c newline)) w = true.
Proof.
  apply string_forall_impl. intros c Hc.
  destruct (Ascii.eqb_spec c newline) as [->|_]; [discriminate|done].
Qed.

(** X12: a word is one token, whole and with its own spelling: the
    keyword that its upper-case form names in the table, whatever the
    case of its letters, and an IDENTIFIER otherwise. *)
Theorem tokenize_word (stod : string -> option double) (char_is_signed : bool)
    (w : string) :
  is_word w = true ->
  tokens_of stod char_is_signed w
  = Some [make_token (default IDENTIFIER (keywords_ !! string_map toupper w)) w 1 1;
          make_token END_OF_FILE "" 1 (1 + Z.of_nat (String.length w))].
Proof.
  intros Hw. destruct w as [|c w'] eqn:Ew; [discriminate|]. rewrite <- Ew in *.
  unfold is_word in Hw. rewrite Ew in Hw at 1. apply andb_true_iff in Hw as [Hc Hall].
  assert (0 < String.length w)%nat as Hlen by (rewrite Ew; cbn; lia).
  assert (char_at w 0 = c) as Hc0 by (by rewrite Ew).
  rewrite <- Hc0 in Hc.
  destruct (word_first _ Hc) as (Hsp & Hminus & Hslash).
  assert (skip_whitespace_and_comments (lexer_at w 0) = lexer_at w 0) as Hskip.
  { apply skip_stays; [done|done|by rewrite Hminus|by rewrite Hslash]. }
  rewrite <- (end_of_file_no_newline w) by by apply word_not_newline.
  apply tokens_of_single; [done|done|].
  rewrite scan_token_word by done. unfold scan_identifier.
  rewrite rewind_lexer_at by (done || by apply word_char_not_newline).
  rewrite remaining_lexer_at.
  rewrite (advance_while_run _ w (String.length w - 0) 0 (String.length w));
    [|lia|lia| |left; lia].
  2:{ intros n Hn. apply (string_forall_char_at _ w n Hall). lia. }
  unfold text_from. rewrite source_lexer_at, current_lexer_at.
  rewrite Nat.add_0_l, Nat.sub_0_r, substring_full.
  by destruct (keywords_ !! string_map toupper w).
Qed.

Lemma tokenize_word_witness :
  tokens_of (fun _ => None) true "Select"
  = Some [make_token SELECT "Select" 1 1; make_token END_OF_FILE "" 1 7].
Proof. apply (tokenize_word (fun _ => None) true "Select"). reflexivity. Defined.

(** *** String literals *)

Lemma substring_0_r (s : string) (i : nat) : substring i 0 s = "".
Proof.
  revert s. induction i as [|i IH]; intros s; [by destruct s|].
  destruct s as [|c s]; [reflexivity|]. apply IH.
Qed.

Lemma substring_S (s : string) (i k : nat) :
  (i < String.length s)%nat ->
  substring i (S k) s = String (char_at s i) (substring (S i) k s).
Proof.
  revert i. induction s as [|c s IH]; intros i Hi; cbn in Hi; [lia|].
  destruct i as [|i].
  - cbn. by destruct s, k.
  - rewrite !substring_cons, char_at_cons. apply IH. lia.
Qed.

Lemma push_back_append (v : string) (c : ascii) (r : string) :
  push_back v c +:+ r = v +:+ String c r.
Proof. unfold push_back. by rewrite append_assoc. Qed.

(** Characters that are neither the quote nor a backslash go to the
    value as they are. *)
Lemma scan_string_loop_plain (quote : ascii) (s : string) (k fuel i : nat) (v : string) :
  (i + k <= String.length s)%nat -> (String.length s - i <= fuel)%nat ->
  (forall n, (i <= n < i + k)%nat ->
             char_at s n <> quote /\ char_at s n <> backslash) ->
  ((i + k)%nat = String.length s \/ char_at s (i + k) = quote) ->
  scan_string_loop quote fuel (lexer_at s i) v
  = (lexer_at s (i + k), v +:+ substring i k s).
Proof.
  revert fuel i v. induction k as [|k IH]; intros fuel i v Hik Hfuel Hplain Hstop.
  - rewrite Nat.add_0_r in *. rewrite substring_0_r, append_empty_r.
    destruct fuel as [|fuel]; [reflexivity|]. cbn [scan_string_loop].
    destruct Hstop as [E|Hq].
    + by rewrite is_at_end_true by lia.
    + destruct (decide (i < String.length s)%nat) as [Hlt|Hge].
      * rewrite (is_at_end_false s i Hlt), (peek_lexer_at s i Hlt), Hq.
        by rewrite Ascii.eqb_refl.
      * by rewrite is_at_end_true by lia.
  - destruct fuel as [|fuel]; [lia|]. cbn [scan_string_loop].
    assert (i < String.length s)%nat as Hlt by lia.
    destruct (Hplain i ltac:(lia)) as [Hq Hb].
    rewrite (is_at_end_false s i Hlt), (peek_lexer_at s i Hlt).
    apply Ascii.eqb_neq in Hq, Hb. rewrite Hq, Hb. cbn [negb andb].
    rewrite (advance_lexer_at s i Hlt).
    rewrite (IH fuel (S i)); [|lia|lia|intros n Hn; apply Hplain; lia|].
    + replace (S i + k)%nat with (i + S k)%nat by lia.
      by rewrite push_back_append, <- substring_S.
    + by replace (S i + k)%nat with (i + S k)%nat by lia.
Qed.

Lemma string_forall_and (p q : ascii -> bool) (s : string) :
  string_forall (fun c => p c && q c) s = true ->
  string_forall p s = true /\ string_forall q s = true.
Proof.
  intros Hs. split; revert Hs; apply string_forall_impl; intros c Hc;
    by apply andb_true_iff in Hc as [? ?].
Qed.

(** X13: between two quotes of the same kind, a text without that quote
    and without a backslash is a STRING_LITERAL that holds it, line
    breaks included. *)
Theorem tokenize_string_literal (stod : string -> option double) (char_is_signed : bool)
    (quote : ascii) (body : string) :
  quote = "'"%char \/ quote = double_quote ->
  string_forall (fun c => negb (Ascii.eqb c quote) && negb (Ascii.eqb c backslash)) body
  = true ->
  tokens_of stod char_is_signed (String quote (body +:+ String quote ""))
  = Some [set_value (make_token STRING_LITERAL body 1 1) (LText body);
          end_of_file (String quote (body +:+ String quote ""))].
Proof.
  intros Hquote Hbody. set (s := String quote (body +:+ String quote "")).
  assert (String.length s = S (S (String.length body))) as Hs.
  { unfold s. cbn [String.length]. rewrite length_append. cbn. lia. }
  assert (forall n, (n < String.length body)%nat -> char_at s (S n) = char_at body n)
    as Hin.
  { intros n Hn. unfold s. rewrite char_at_cons. by apply char_at_append_l. }
  assert (char_at s (S (String.length body)) = quote) as Hclose.
  { unfold s. rewrite char_at_cons.
    rewrite <- (Nat.add_0_r (String.length body)). by rewrite char_at_append_r. }
  assert (is_space quote = false /\ Ascii.eqb quote "-" = false
          /\ Ascii.eqb quote "/" = false) as (Hsp & Hminus & Hslash).
  { by destruct Hquote as [-> | ->]. }
  apply tokens_of_single; [lia| |].
  { apply skip_stays; [lia|done| |]; change (char_at s 0) with quote.
    - by rewrite Hminus.
    - by rewrite Hslash. }
  rewrite scan_token_quote by (lia || done). change (char_at s 0) with quote.
  change (position s 0) with (1, 1). cbn [fst snd].
  unfold scan_string. rewrite remaining_lexer_at.
  rewrite (scan_string_loop_plain quote s (String.length body)); [|lia|lia| |by right].
  2:{ intros n Hn. destruct n as [|n]; [lia|]. rewrite Hin by lia.
      pose proof (string_forall_char_at _ body n Hbody ltac:(lia)) as Hc. cbn in Hc.
      apply andb_true_iff in Hc as [Hq Hb].
      split; apply Ascii.eqb_neq; by apply negb_true_iff. }
  rewrite (is_at_end_false s (1 + String.length body)) by lia.
  rewrite (advance_lexer_at s (1 + String.length body)) by lia. cbn [snd].
  change (substring 1 (String.length body) s)
    with (substring 0 (String.length body) (body +:+ String quote "")).
  rewrite substring_prefix. change ("" +:+ body) with body.
  do 3 f_equal. lia.
Qed.

Lemma tokenize_string_literal_witness :
  tokens_of (fun _ => None) true "'Neel'"
  = Some [set_value (make_token STRING_LITERAL "Neel" 1 1) (LText "Neel");
          make_token END_OF_FILE "" 1 7].
Proof.
  apply (tokenize_string_literal (fun _ => None) true "'" "Neel"); [by left|reflexivity].
Defined.

(** X14: a quote that is never closed gives one INVALID token,
    Unterminated string, at the place of the quote, and no exception. *)
Theorem tokenize_unterminated_string (stod : string -> option double)
    (char_is_signed : bool) (quote : ascii) (body : string) :
  quote = "'"%char \/ quote = double_quote ->
  string_forall (fun c => negb (Ascii.eqb c quote)) body = true ->
  tokens_of stod char_is_signed (String quote body)
  = Some [make_token INVALID "Unterminated string" 1 1;
          end_of_file (String quote body)].
Proof.
  intros Hquote Hbody. set (s := String quote body).
  assert (String.length s = S (String.length body)) as Hs by reflexivity.
  assert (is_space quote = false /\ Ascii.eqb quote "-" = false
          /\ Ascii.eqb quote "/" = false) as (Hsp & Hminus & Hslash).
  { by destruct Hquote as [-> | ->]. }
  apply tokens_of_single; [lia| |].
  { apply skip_stays; [lia|done| |]; change (char_at s 0) with quote.
    - by rewrite Hminus.
    - by rewrite Hslash. }
  rewrite scan_token_quote by (lia || done). change (char_at s 0) with quote.
  change (position s 0) with (1, 1). cbn [fst snd].
  unfold scan_string. rewrite remaining_lexer_at.
  destruct (scan_string_loop_spec quote s (String.length s - 1) 1 "")
    as (j & v & -> & Hj & _ & Hstop); [lia|lia|].
  assert (j = String.length s) as ->.
  { destruct Hstop as [E|Hq]; [done|]. destruct (decide (j < String.length s)%nat); [|lia].
    exfalso. destruct j as [|j]; [lia|]. unfold s in Hq. rewrite char_at_cons in Hq.
    pose proof (string_forall_char_at _ body j Hbody ltac:(lia)) as Hc. cbn in Hc.
    rewrite Hq, Ascii.eqb_refl in Hc. discriminate. }
  by rewrite is_at_end_true.
Qed.

Lemma tokenize_unterminated_string_witness :
  tokens_of (fun _ => None) true "'Neel"
  = Some [make_token INVALID "Unterminated string" 1 1; make_token END_OF_FILE "" 1 6].
Proof.
  apply (tokenize_unterminated_string (fun _ => None) true "'" "Neel"); [by left|].
  reflexivity.
Defined.

(** *** Comments *)

Lemma has_block_end_false (b : string) (k : nat) :
  has_block_end b = false -> (S k < String.length b)%nat ->
  char_at b k = "*"%char -> char_at b (S k) <> "/"%char.
Proof.
  revert k. induction b as [|c b IH]; intros k Hb Hk; cbn in Hk; [lia|].
  cbn [has_block_end] in Hb. apply orb_false_iff in Hb as [Hc Hb].
  destruct k as [|k].
  - intros Hstar Hslash. change (char_at (String c b) 0) with c in Hstar.
    rewrite char_at_cons in Hslash. subst c. destruct b as [|d b]; [cbn in Hk; lia|].
    change (char_at (String d b) 0) with d in Hslash. subst d. discriminate.
  - rewrite !char_at_cons. apply IH; [done|lia].
Qed.

Lemma skip_loop_end (s : string) (fuel : nat) :
  skip_loop fuel (lexer_at s (String.length s)) = lexer_at s (String.length s).
Proof. destruct fuel; [reflexivity|]. cbn [skip_loop]. by rewrite is_at_end_true. Qed.

Lemma skip_loop_block (s : string) (fuel i : nat) :
  (S i < String.length s)%nat -> char_at s i = "/"%char -> char_at s (S i) = "*"%char ->
  skip_loop (S fuel) (lexer_at s i)
  = skip_loop fuel (skip_block (remaining (lexer_at s (S (S i)))) (lexer_at s (S (S i)))).
Proof.
  intros Hi Hslash Hstar. cbn [skip_loop].
  rewrite (is_at_end_false s i), (peek_lexer_at s i) by lia.
  rewrite (peek_next_lexer_at s i) by lia. rewrite Hslash, Hstar.
  cbn [is_space Ascii.eqb Bool.eqb orb andb].
  rewrite (advance_lexer_at s i) by lia. cbn [snd].
  by rewrite (advance_lexer_at s (S i)) by lia.
Qed.

(** X15: a block comment that is never closed swallows the rest of the
    text: no token but END_OF_FILE, no INVALID token, no exception. *)
Theorem tokenize_unterminated_comment (stod : string -> option double)
    (char_is_signed : bool) (body : string) :
  has_block_end body = false ->
  tokens_of stod char_is_signed (String "/" (String "*" body))
  = Some [end_of_file (String "/" (String "*" body))].
Proof.
  intros Hbody. set (s := String "/" (String "*" body)).
  assert (String.length s = S (S (String.length body))) as Hs by reflexivity.
  unfold tokens_of, tokenize. rewrite make_lexer_at, remaining_lexer_at.
  rewrite Nat.sub_0_r, Hs. cbn [tokenize_loop].
  rewrite (is_at_end_false s 0) by lia.
  assert (skip_whitespace_and_comments (lexer_at s 0) = lexer_at s (String.length s))
    as ->.
  { unfold skip_whitespace_and_comments. rewrite remaining_lexer_at, Nat.sub_0_r, Hs.
    rewrite skip_loop_block; [|lia|done|done].
    rewrite remaining_lexer_at, skip_block_unterminated; [apply skip_loop_end|lia|lia|].
    intros k Hk Hk'. destruct k as [|[|k]]; [lia|lia|]. unfold s.
    rewrite !char_at_cons. apply has_block_end_false; [done|lia]. }
  by rewrite is_at_end_true.
Qed.

Lemma tokenize_unterminated_comment_witness :
  tokens_of (fun _ => None) true "/* 1 * 2 / 3"
  = Some [make_token END_OF_FILE "" 1 13].
Proof.
  apply (tokenize_unterminated_comment (fun _ => None) true " 1 * 2 / 3"). reflexivity.
Defined.

(** *** Quoted identifiers *)

Lemma scan_backtick_loop_plain (s : string) (k fuel i : nat) (v : string) :
  (i + k <= String.length s)%nat -> (String.length s - i <= fuel)%nat ->
  (forall n, (i <= n < i + k)%nat ->
             char_at s n <> "`"%char /\ char_at s n <> newline) ->
  ((i + k)%nat = String.length s \/ char_at s (i + k) = "`"%char) ->
  scan_backtick_loop fuel (lexer_at s i) v
  = inr (lexer_at s (i + k), v +:+ substring i k s).
Proof.
  revert fuel i v. induction k as [|k IH]; intros fuel i v Hik Hfuel Hplain Hstop.
  - rewrite Nat.add_0_r in *. rewrite substring_0_r, append_empty_r.
    destruct fuel as [|fuel]; [reflexivity|]. cbn [scan_backtick_loop].
    destruct Hstop as [E|Hq].
    + by rewrite is_at_end_true by lia.
    + destruct (decide (i < String.length s)%nat) as [Hlt|Hge].
      * by rewrite (is_at_end_false s i Hlt), (peek_lexer_at s i Hlt), Hq.
      * by rewrite is_at_end_true by lia.
  - destruct fuel as [|fuel]; [lia|]. cbn [scan_backtick_loop].
    assert (i < String.length s)%nat as Hlt by lia.
    destruct (Hplain i ltac:(lia)) as [Hq Hb].
    rewrite (is_at_end_false s i Hlt), (peek_lexer_at s i Hlt).
    apply Ascii.eqb_neq in Hq, Hb. rewrite Hq, Hb. cbn [negb andb].
    rewrite (advance_lexer_at s i Hlt).
    rewrite (IH fuel (S i)); [|lia|lia|intros n Hn; apply Hplain; lia|].
    + replace (S i + k)%nat with (i + S k)%nat by lia.
      by rewrite push_back_append, <- substring_S.
    + by replace (S i + k)%nat with (i + S k)%nat by lia.
Qed.

(** X16: between backticks, a text that is not empty and has no backtick
    and no line break is an IDENTIFIER with that text, also when it
    spells a keyword or has characters no word has. *)
Theorem tokenize_backtick_identifier (stod : string -> option double)
    (char_is_signed : bool) (body : string) :
  body <> "" ->
  string_forall (fun c => negb (Ascii.eqb c "`") && negb (Ascii.eqb c newline)) body
  = true ->
  tokens_of stod char_is_signed (String "`" (body +:+ "`"))
  = Some [make_token IDENTIFIER body 1 1;
          make_token END_OF_FILE "" 1 (3 + Z.of_nat (String.length body))].
Proof.
  intros Hne Hbody. set (s := String "`" (body +:+ "`")).
  assert (String.length s = S (S (String.length body))) as Hs.
  { unfold s. cbn [String.length]. rewrite length_append. cbn. lia. }
  assert (forall n, (n < String.length body)%nat -> char_at s (S n) = char_at body n)
    as Hin.
  { intros n Hn. unfold s. rewrite char_at_cons. by apply char_at_append_l. }
  assert (char_at s (S (String.length body)) = "`"%char) as Hclose.
  { unfold s. rewrite char_at_cons.
    rewrite <- (Nat.add_0_r (String.length body)). by rewrite char_at_append_r. }
  assert (make_token END_OF_FILE "" 1 (3 + Z.of_nat (String.length body))
          = end_of_file s) as ->.
  { rewrite end_of_file_no_newline.
    - rewrite Hs. f_equal. lia.
    - unfold s. cbn [string_forall]. rewrite string_forall_app.
      apply string_forall_and in Hbody as [_ ->]. reflexivity. }
  apply tokens_of_single; [lia|by apply skip_stays; [lia|..]|].
  rewrite scan_token_backtick by (lia || done).
  change (position s 0) with (1, 1). cbn [fst snd].
  unfold scan_backtick_identifier. rewrite remaining_lexer_at.
  rewrite (scan_backtick_loop_plain s (String.length body)); [|lia|lia| |by right].
  2:{ intros n Hn. destruct n as [|n]; [lia|]. rewrite Hin by lia.
      pose proof (string_forall_char_at _ body n Hbody ltac:(lia)) as Hc. cbn in Hc.
      apply andb_true_iff in Hc as [Hq Hb].
      split; apply Ascii.eqb_neq; by apply negb_true_iff. }
  rewrite (is_at_end_false s (1 + String.length body)) by lia.
  rewrite (advance_lexer_at s (1 + String.length body)) by lia. cbn [snd].
  change (substring 1 (String.length body) s)
    with (substring 0 (String.length body) (body +:+ "`")).
  rewrite substring_prefix. change ("" +:+ body) with body.
  destruct (String.eqb_spec body "") as [E|_]; [done|].
  do 3 f_equal. lia.
Qed.

Lemma tokenize_backtick_identifier_witness :
  tokens_of (fun _ => None) true "`select`"
  = Some [make_token IDENTIFIER "select" 1 1; make_token END_OF_FILE "" 1 9].
Proof.
  apply (tokenize_backtick_identifier (fun _ => None) true "select"); [done|reflexivity].
Defined.

(** *** Number literals *)

Lemma isxdigit_not_newline (h : string) :
  string_forall isxdigit h = true ->
  string_forall (fun c => negb (Ascii.eqb c newline)) h = true.
Proof.
  apply string_forall_impl. intros c Hc.
  destruct (Ascii.eqb_spec c newline) as [->|_]; [discriminate|done].
Qed.

(** X17: 0x or 0X and hexadecimal digits are one INTEGER_LITERAL whose
    text keeps the prefix and whose value is read from the digits alone,
    in base 16; without a digit the token is INVALID, and when
    std::stoll throws, so does tokenize. *)
Theorem tokenize_hex_literal (stod : string -> option double) (char_is_signed : bool)
    (x : ascii) (h : string) :
  x = "x"%char \/ x = "X"%char ->
  string_forall isxdigit h = true ->
  tokens_of stod char_is_signed (String "0" (String x h))
  = if String.eqb h ""
    then Some [make_token INVALID "Invalid hex number" 1 1;
               make_token END_OF_FILE "" 1 3]
    else
      match stoll h 16 with
      | None => None
      | Some n =>
          Some [set_value (make_token INTEGER_LITERAL (String "0" (String x h)) 1 1)
                  (LInt n);
                make_token END_OF_FILE "" 1 (3 + Z.of_nat (String.length h))]
      end.
Proof.
  intros Hx Hh. set (s := String "0" (String x h)).
  assert (String.length s = S (S (String.length h))) as Hs by reflexivity.
  assert (skip_whitespace_and_comments (lexer_at s 0) = lexer_at s 0) as Hskip.
  { by apply skip_stays; [lia|..]. }
  assert (end_of_file s
          = make_token END_OF_FILE "" 1 (3 + Z.of_nat (String.length h))) as Heof.
  { rewrite end_of_file_no_newline.
    - rewrite Hs. f_equal. lia.
    - unfold s. cbn [string_forall]. rewrite isxdigit_not_newline by done.
      by destruct Hx as [-> | ->]. }
  assert (scan_token stod char_is_signed (lexer_at s 0)
          = if String.eqb h ""
            then Some (make_token INVALID "Invalid hex number" 1 1,
                       lexer_at s (String.length s))
            else
              match stoll h 16 with
              | None => None
              | Some n =>
                  Some (set_value (make_token INTEGER_LITERAL s 1 1) (LInt n),
                        lexer_at s (String.length s))
              end) as Hscan.
  { rewrite scan_token_digit by (lia || done).
    unfold scan_number. rewrite (rewind_lexer_at s 0) by (lia || done).
    change (position s 0) with (1, 1). cbn [fst snd].
    rewrite (peek_lexer_at s 0), (peek_next_lexer_at s 0) by lia.
    change (char_at s 0) with "0"%char. change (char_at s 1) with x.
    assert (Ascii.eqb "0" "0" && (Ascii.eqb x "x" || Ascii.eqb x "X") = true) as ->.
    { by destruct Hx as [-> | ->]. }
    rewrite (advance_lexer_at s 0) by lia. cbn [snd].
    rewrite (advance_lexer_at s 1) by lia. cbn [snd].
    rewrite remaining_lexer_at, current_lexer_at.
    rewrite (advance_while_run isxdigit s _ 2 (String.length h));
      [|lia|lia| |left; lia].
    2:{ intros n Hn. destruct n as [|[|n]]; [lia|lia|]. unfold s.
        rewrite !char_at_cons. apply (string_forall_char_at isxdigit); [done|lia]. }
    rewrite current_lexer_at. unfold text_from.
    rewrite source_lexer_at, current_lexer_at.
    replace (2 + String.length h)%nat with (String.length s) by lia.
    rewrite Nat.sub_0_r, substring_full.
    replace (String.length s - 2)%nat with (String.length h) by lia.
    change (substring 2 (String.length h) s) with (substring 0 (String.length h) h).
    rewrite substring_full.
    destruct h as [|c h']; [reflexivity|].
    destruct (Nat.eqb_spec (String.length s) 2) as [E|_];
      [rewrite Hs in E; cbn [String.length] in E; lia|].
    reflexivity. }
  destruct h as [|c h'].
  - change (make_token END_OF_FILE "" 1 3)
      with (make_token END_OF_FILE "" 1 (3 + Z.of_nat (String.length ""))).
    rewrite <- Heof. apply tokens_of_single; [lia|done|exact Hscan].
  - change (String.eqb (String c h') "") with false in *. cbn match in *.
    destruct (stoll (String c h') 16) as [n|].
    + rewrite <- Heof. apply tokens_of_single; [lia|done|done].
    + apply tokens_of_throws; [lia|done|done].
Qed.

Lemma tokenize_hex_literal_witness :
  tokens_of (fun _ => None) true "0xFF"
  = Some [set_value (make_token INTEGER_LITERAL "0xFF" 1 1) (LInt 255);
          make_token END_OF_FILE "" 1 5].
Proof.
  apply (tokenize_hex_literal (fun _ => None) true "x" "FF"); [by left|reflexivity].
Defined.

(** X18: digits, a point and digits are one FLOAT_LITERAL whose value is
    what std::stod makes of the whole text; when std::stod throws, so does
    tokenize. *)
Theorem tokenize_float_literal (stod : string -> option double) (char_is_signed : bool)
    (a b : string) :
  string_forall isdigit a = true -> a <> "" ->
  string_forall isdigit b = true -> b <> "" ->
  tokens_of stod char_is_signed (a +:+ String "." b)
  = match stod (a +:+ String "." b) with
    | None => None
    | Some d =>
        Some [set_value (make_token FLOAT_LITERAL (a +:+ String "." b) 1 1) (LFloat d);
              make_token END_OF_FILE "" 1
                (2 + Z.of_nat (String.length a) + Z.of_nat (String.length b))]
    end.
Proof.
  intros Ha Hane Hb Hbne. set (s := a +:+ String "." b).
  assert (0 < String.length a)%nat as Hla by (destruct a; [done|cbn; lia]).
  assert (0 < String.length b)%nat as Hlb by (destruct b; [done|cbn; lia]).
  assert (String.length s = (String.length a + S (String.length b))%nat) as Hs.
  { unfold s. by rewrite length_append. }
  assert (forall n, (n < String.length a)%nat -> isdigit (char_at s n) = true) as Hina.
  { intros n Hn. unfold s. rewrite char_at_append_l by done.
    by apply (string_forall_char_at isdigit). }
  assert (char_at s (String.length a) = "."%char) as Hpoint.
  { unfold s. rewrite <- (Nat.add_0_r (String.length a)). by rewrite char_at_append_r. }
  assert (forall n, (n < String.length b)%nat ->
                    isdigit (char_at s (String.length a + S n)) = true) as Hinb.
  { intros n Hn. unfold s. rewrite char_at_append_r, char_at_cons.
    by apply (string_forall_char_at isdigit). }
  pose proof (Hina 0%nat Hla) as Hc.
  destruct (digit_first _ Hc) as (Hsp & Hminus & Hslash).
  assert (skip_whitespace_and_comments (lexer_at s 0) = lexer_at s 0) as Hskip.
  { apply skip_stays; [lia|done|by rewrite Hminus|by rewrite Hslash]. }
  assert (end_of_file s
          = make_token END_OF_FILE "" 1
              (2 + Z.of_nat (String.length a) + Z.of_nat (String.length b))) as Heof.
  { rewrite end_of_file_no_newline.
    - rewrite Hs. f_equal. lia.
    - unfold s. rewrite string_forall_app. cbn [string_forall].
      by rewrite !digit_not_newline. }
  assert (scan_token stod char_is_signed (lexer_at s 0)
          = match stod s with
            | None => None
            | Some d =>
                Some (set_value (make_token FLOAT_LITERAL s 1 1) (LFloat d),
                      lexer_at s (String.length s))
            end) as Hscan.
  { rewrite scan_token_digit by (lia || done).
    unfold scan_number.
    rewrite (rewind_lexer_at s 0) by (lia || by apply isdigit_not_newline).
    change (position s 0) with (1, 1). cbn [fst snd].
    assert (Ascii.eqb (peek_next (lexer_at s 0)) "x"
            || Ascii.eqb (peek_next (lexer_at s 0)) "X" = false) as ->.
    { rewrite peek_next_lexer_at by lia.
      destruct (decide (1 < String.length a)%nat) as [Hlt|Hge].
      - pose proof (Hina 1%nat Hlt) as Hd.
        destruct (Ascii.eqb_spec (char_at s 1) "x") as [E|_];
          [rewrite E in Hd; discriminate Hd|].
        destruct (Ascii.eqb_spec (char_at s 1) "X") as [E|_];
          [rewrite E in Hd; discriminate Hd|]. reflexivity.
      - replace 1%nat with (String.length a) by lia. by rewrite Hpoint. }
    rewrite andb_false_r, remaining_lexer_at.
    rewrite (advance_while_run isdigit s _ 0 (String.length a));
      [|lia|lia|intros n Hn; apply Hina; lia|right; by rewrite Nat.add_0_l, Hpoint].
    rewrite Nat.add_0_l.
    rewrite (is_at_end_false s (String.length a)) by lia.
    rewrite (peek_lexer_at s (String.length a)) by lia.
    rewrite (peek_next_lexer_at s (String.length a)) by lia.
    rewrite Hpoint.
    replace (S (String.length a)) with (String.length a + S 0)%nat by lia.
    rewrite (Hinb 0%nat Hlb). cbn [negb andb Ascii.eqb Bool.eqb].
    rewrite (advance_lexer_at s (String.length a)) by lia. cbn [snd].
    rewrite remaining_lexer_at.
    rewrite (advance_while_run isdigit s _ (S (String.length a)) (String.length b));
      [|lia|lia| |left; lia].
    2:{ intros n Hn.
        replace n with (String.length a + S (n - S (String.length a)))%nat by lia.
        apply Hinb. lia. }
    unfold text_from. rewrite source_lexer_at, current_lexer_at.
    replace (S (String.length a) + String.length b)%nat with (String.length s) by lia.
    by rewrite Nat.sub_0_r, substring_full. }
  fold s. destruct (stod s) as [d|].
  - rewrite <- Heof. apply tokens_of_single; [lia|done|done].
  - apply tokens_of_throws; [lia|done|done].
Qed.

Lemma tokenize_float_literal_witness :
  tokens_of (fun _ => Some d_2_5) true "2.5"
  = Some [set_value (make_token FLOAT_LITERAL "2.5" 1 1) (LFloat d_2_5);
          make_token END_OF_FILE "" 1 4].
Proof.
  apply (tokenize_float_literal (fun _ => Some d_2_5) true "2" "5"); done.
Defined.

(** *** Escapes *)

Lemma string_drop_cons (s : string) (i : nat) (c : ascii) (t : string) :
  string_drop i s = String c t ->
  (i < String.length s)%nat /\ char_at s i = c /\ string_drop (S i) s = t.
Proof.
  revert i. induction s as [|a s IH]; intros i Hd.
  - by destruct i.
  - destruct i as [|i].
    + cbn in Hd. injection Hd as -> ->. repeat split. cbn. lia.
    + cbn [string_drop] in Hd. apply IH in Hd as (Hi & Hc & Ht).
      split; [cbn; lia|]. by rewrite char_at_cons.
Qed.

Lemma escaped_char_self (quote c : ascii) :
  quote = "'"%char \/ quote = double_quote ->
  Ascii.eqb c backslash || Ascii.eqb c quote = true ->
  escaped_char c = c.
Proof.
  intros Hq Hc. apply orb_true_iff in Hc as [Hc|Hc]; apply Ascii.eqb_eq in Hc; subst c.
  - reflexivity.
  - by destruct Hq as [-> | ->].
Qed.

Lemma scan_string_loop_escape (quote : ascii) (s : string) (body : string) :
  quote = "'"%char \/ quote = double_quote ->
  forall (fuel i : nat) (v post : string),
  (String.length s - i <= fuel)%nat ->
  string_drop i s = escape quote body +:+ String quote post ->
  scan_string_loop quote fuel (lexer_at s i) v
  = (lexer_at s (i + String.length (escape quote body)), v +:+ body).
Proof.
  intros Hq. induction body as [|c body IH]; intros fuel i v post Hfuel Hdrop.
  - cbn [escape String.length]. rewrite Nat.add_0_r, append_empty_r.
    change ("" +:+ String quote post) with (String quote post) in Hdrop.
    apply string_drop_cons in Hdrop as (Hi & Hc & _).
    destruct fuel as [|fuel]; [lia|]. cbn [scan_string_loop].
    by rewrite (is_at_end_false s i Hi), (peek_lexer_at s i Hi), Hc, Ascii.eqb_refl.
  - cbn [escape] in *.
    destruct (Ascii.eqb c backslash || Ascii.eqb c quote) eqn:Hc.
    + rewrite !append_cons in Hdrop.
      apply string_drop_cons in Hdrop as (Hi & Hc0 & Hdrop).
      apply string_drop_cons in Hdrop as (Hi' & Hc1 & Hdrop).
      destruct fuel as [|fuel]; [lia|]. cbn [scan_string_loop].
      rewrite (is_at_end_false s i Hi), (peek_lexer_at s i Hi), Hc0.
      assert (Ascii.eqb backslash quote = false) as -> by (by destruct Hq as [-> | ->]).
      cbn [negb andb]. rewrite Ascii.eqb_refl.
      rewrite (advance_lexer_at s i Hi). cbn [snd].
      rewrite (is_at_end_false s (S i) Hi'), (advance_lexer_at s (S i) Hi'), Hc1.
      cbn [negb]. rewrite (escaped_char_self quote c Hq Hc).
      rewrite (IH fuel (S (S i)) _ post); [|lia|done].
      cbn [String.length]. rewrite push_back_append. f_equal. f_equal. lia.
    + rewrite append_cons in Hdrop.
      apply string_drop_cons in Hdrop as (Hi & Hc0 & Hdrop).
      apply orb_false_iff in Hc as [Hb Hquote].
      destruct fuel as [|fuel]; [lia|]. cbn [scan_string_loop].
      rewrite (is_at_end_false s i Hi), (peek_lexer_at s i Hi), Hc0, Hb, Hquote.
      cbn [negb andb]. rewrite (advance_lexer_at s i Hi), Hc0.
      rewrite (IH fuel (S i) _ post); [|lia|done].
      cbn [String.length]. rewrite push_back_append. f_equal. f_equal. lia.
Qed.

(** X19: every text has a string literal: with a backslash put before each
    backslash and each quote of the kind used, and quotes around it, it
    is tokenized as one STRING_LITERAL that holds the text again. *)
Theorem tokenize_escaped_string (stod : string -> option double) (char_is_signed : bool)
    (quote : ascii) (body : string) :
  quote = "'"%char \/ quote = double_quote ->
  tokens_of stod char_is_signed (String quote (escape quote body +:+ String quote ""))
  = Some [set_value (make_token STRING_LITERAL body 1 1) (LText body);
          end_of_file (String quote (escape quote body +:+ String quote ""))].
Proof.
  intros Hquote. set (s := String quote (escape quote body +:+ String quote "")).
  assert (String.length s = S (S (String.length (escape quote body)))) as Hs.
  { unfold s. cbn [String.length]. rewrite length_append. cbn. lia. }
  assert (is_space quote = false /\ Ascii.eqb quote "-" = false
          /\ Ascii.eqb quote "/" = false) as (Hsp & Hminus & Hslash).
  { by destruct Hquote as [-> | ->]. }
  apply tokens_of_single; [lia| |].
  { apply skip_stays; [lia|done| |]; change (char_at s 0) with quote.
    - by rewrite Hminus.
    - by rewrite Hslash. }
  rewrite scan_token_quote by (lia || done). change (char_at s 0) with quote.
  change (position s 0) with (1, 1). cbn [fst snd].
  unfold scan_string. rewrite remaining_lexer_at.
  rewrite (scan_string_loop_escape quote s body Hquote _ 1 "" ""); [|lia|done].
  rewrite (is_at_end_false s (1 + String.length (escape quote body))) by lia.
  rewrite (advance_lexer_at s (1 + String.length (escape quote body))) by lia.
  cbn [snd]. change ("" +:+ body) with body. do 3 f_equal. lia.
Qed.

Lemma tokenize_escaped_string_witness :
  tokens_of (fun _ => None) true "'it\'s'"
  = Some [set_value (make_token STRING_LITERAL "it's" 1 1) (LText "it's");
          make_token END_OF_FILE "" 1 8].
Proof. apply (tokenize_escaped_string (fun _ => None) true "'" "it's"). by left. Defined.

(** *** How many tokens *)

Lemma increasing_length (n : nat) (l : list nat) :
  StronglySorted lt l ->
  forall m, (m <= n)%nat -> Forall (fun i => (m <= i < n)%nat) l ->
            (length l + m <= n)%nat.
Proof.
  induction 1 as [|i l Hs IH Hi]; intros m Hm Hall; cbn [length]; [lia|].
  apply Forall_cons in Hall as [Hmi Hall].
  assert (Forall (fun k => (S i <= k < n)%nat) l) as Hall'.
  { apply Forall_forall. intros k Hk.
    rewrite Forall_forall in Hi, Hall. specialize (Hi k Hk). specialize (Hall k Hk).
    lia. }
  specialize (IH (S i) ltac:(lia) Hall'). lia.
Qed.

(** X20: tokenize makes at most one token for each character of the text,
    and END_OF_FILE. *)
Theorem tokenize_token_count (stod : string -> option double) (char_is_signed : bool)
    (source : string) (tokens : list Token) :
  tokens_of stod char_is_signed source = Some tokens ->
  (1 <= length tokens <= S (String.length source))%nat.
Proof.
  unfold tokens_of.
  destruct (tokenize _ _ _) as [[tokens' lx']|] eqn:Htok; [|discriminate].
  cbn. intros [= <-].
  apply tokenize_spec in Htok as (_ & offsets & body & -> & Hall & Hsorted).
  rewrite length_app. cbn [length].
  pose proof (Forall2_length _ _ _ Hall) as Hlen.
  assert (Forall (fun i => (0 <= i < String.length source)%nat) offsets) as Hlt.
  { clear -Hall. induction Hall as [|i tok offsets body Htok _ IH]; constructor; [|done].
    destruct Htok as (Hi & _). lia. }
  pose proof (increasing_length _ _ Hsorted 0%nat ltac:(lia) Hlt). lia.
Qed.

Lemma tokenize_token_count_witness :
  (1 <= length [make_token MINUS "-" 1 1; make_token END_OF_FILE "" 1 2] <= 2)%nat.
Proof.
  apply (tokenize_token_count (fun _ => None) true "-"). reflexivity.
Defined.

(** *** What the platform decides *)

Lemma make_error_token_ascii (signed signed' : bool) (m : string) (c : ascii) (l col : Z) :
  is_ascii c = true ->
  make_error_token signed m c l col = make_error_token signed' m c l col.
Proof.
  intros Hc. unfold make_error_token, int_of_char. unfold is_ascii in Hc.
  apply Z.ltb_lt in Hc.
  destruct (Z.leb_spec 128 (byte_of_ascii c)); [lia|]. by rewrite !andb_false_r.
Qed.

(** Without a point in the text, [scan_number] never asks [std::stod]. *)
Lemma scan_number_no_point (stod stod' : string -> option double) (s : string) (i : nat) :
  (i < String.length s)%nat -> isdigit (char_at s i) = true ->
  (forall k, (k < String.length s)%nat -> char_at s k <> "."%char) ->
  scan_number stod i (fst (position s i)) (snd (position s i)) (lexer_at s (S i))
  = scan_number stod' i (fst (position s i)) (snd (position s i)) (lexer_at s (S i)).
Proof.
  intros Hi Hc Hnone. unfold scan_number.
  rewrite rewind_lexer_at by (done || by apply isdigit_not_newline).
  destruct (Ascii.eqb (peek (lexer_at s i)) "0" && _); [reflexivity|].
  rewrite remaining_lexer_at.
  destruct (advance_while_spec isdigit s (String.length s - i) i)
    as (j & -> & Hij & _ & _); [lia|lia|].
  assert (negb (is_at_end (lexer_at s j)) && Ascii.eqb (peek (lexer_at s j)) "."
          && isdigit (peek_next (lexer_at s j)) = false) as ->; [|reflexivity].
  destruct (decide (j < String.length s)%nat) as [Hlt|Hge].
  - rewrite (is_at_end_false s j Hlt), (peek_lexer_at s j Hlt).
    destruct (Ascii.eqb_spec (char_at s j) ".") as [E|_]; [|reflexivity].
    by apply Hnone in E.
  - by rewrite is_at_end_true by lia.
Qed.

Lemma scan_token_platform (stod stod' : string -> option double) (signed signed' : bool)
    (s : string) (i : nat) :
  (i < String.length s)%nat -> is_ascii (char_at s i) = true ->
  (forall k, (k < String.length s)%nat -> char_at s k <> "."%char) ->
  scan_token stod signed (lexer_at s i) = scan_token stod' signed' (lexer_at s i).
Proof.
  intros Hi Hc Hnone. unfold scan_token. rewrite (advance_lexer_at s i Hi).
  cbn [line_ column_ current_ lexer_at]. fold (lexer_at s (S i)).
  rewrite !(make_error_token_ascii signed signed' _ _ _ _ Hc).
  destruct (isdigit (char_at s i)) eqn:Hd; [|reflexivity].
  by rewrite (scan_number_no_point stod stod').
Qed.

Lemma tokenize_loop_platform (stod stod' : string -> option double)
    (signed signed' : bool) (s : string) (fuel i : nat) (tokens : list Token) :
  (forall k, (k < String.length s)%nat -> is_ascii (char_at s k) = true) ->
  (forall k, (k < String.length s)%nat -> char_at s k <> "."%char) ->
  (i <= String.length s)%nat ->
  tokenize_loop stod signed fuel (lexer_at s i) tokens
  = tokenize_loop stod' signed' fuel (lexer_at s i) tokens.
Proof.
  intros Hascii Hnone. revert i tokens.
  induction fuel as [|fuel IH]; intros i tokens Hi; [reflexivity|].
  cbn [tokenize_loop]. destruct (is_at_end (lexer_at s i)); [reflexivity|].
  destruct (skip_whitespace_and_comments_spec s i) as (j & -> & Hij & _); [lia|].
  destruct (decide (j < String.length s)%nat) as [Hlt|Hge].
  2:{ by rewrite is_at_end_true by lia. }
  rewrite (is_at_end_false s j Hlt).
  rewrite (scan_token_platform stod stod' signed signed') by auto.
  destruct (scan_token stod' signed' (lexer_at s j)) as [[tok lx1]|] eqn:Hscan;
    [|reflexivity].
  apply scan_token_spec in Hscan as (m & Hm & Hjm & _); [|done].
  cbn [snd] in Hm. subst lx1. apply IH. lia.
Qed.

(** X21: on a text of ASCII characters without a point, the tokens do not
    depend on the platform: neither on what std::stod does, which is
    never called, nor on the signedness of char. *)
Theorem tokenize_platform_independent (stod stod' : string -> option double)
    (signed signed' : bool) (source : string) :
  string_forall is_ascii source = true ->
  string_forall (fun c => negb (Ascii.eqb c ".")) source = true ->
  tokens_of stod signed source = tokens_of stod' signed' source.
Proof.
  intros Hascii Hnone. unfold tokens_of, tokenize. rewrite make_lexer_at.
  rewrite (tokenize_loop_platform stod stod' signed signed'); [done| | |lia].
  - intros k Hk. by apply (string_forall_char_at is_ascii).
  - intros k Hk E.
    pose proof (string_forall_char_at _ source k Hnone Hk) as Hc. cbn in Hc.
    rewrite E in Hc. discriminate.
Qed.

Lemma tokenize_platform_independent_witness :
  tokens_of (fun _ => None) true "SELECT @ FROM users WHERE age > 25"
  = tokens_of (fun _ => Some d_2_5) false "SELECT @ FROM users WHERE age > 25".
Proof.
  apply (tokenize_platform_independent (fun _ => None) (fun _ => Some d_2_5) true false
           "SELECT @ FROM users WHERE age > 25"); reflexivity.
Defined.

(** *** What was read before does not matter *)

Lemma substring_append_r (p s : string) (k n : nat) :
  substring (String.length p + k) n (p +:+ s) = substring k n s.
Proof. induction p as [|c p IH]; [reflexivity|]. by rewrite append_cons. Qed.

Lemma eqb_add_l (d a b : nat) : (d + a =? d + b)%nat = (a =? b)%nat.
Proof.
  destruct (Nat.eqb_spec a b); [apply Nat.eqb_eq | apply Nat.eqb_neq]; lia.
Qed.

Section After.

Variables p s : string.

Lemma length_after : String.length (p +:+ s) = (String.length p + String.length s)%nat.
Proof. apply length_append. Qed.

Lemma char_at_after (k : nat) : char_at (p +:+ s) (String.length p + k) = char_at s k.
Proof. apply char_at_append_r. Qed.

Lemma is_at_end_after (k : nat) :
  is_at_end (lexer_after p s k) = is_at_end (lexer_at s k).
Proof.
  unfold lexer_after. rewrite !is_at_end_lexer_at, length_after.
  destruct (Nat.leb_spec (String.length s) k);
    [apply Nat.leb_le | apply Nat.leb_gt]; lia.
Qed.

Lemma peek_after (k : nat) : peek (lexer_after p s k) = peek (lexer_at s k).
Proof.
  unfold peek. rewrite is_at_end_after. destruct (is_at_end (lexer_at s k)); [done|].
  unfold lexer_after. rewrite !source_lexer_at, !current_lexer_at. apply char_at_after.
Qed.

Lemma peek_next_after (k : nat) :
  peek_next (lexer_after p s k) = peek_next (lexer_at s k).
Proof.
  unfold peek_next, lexer_after.
  rewrite !source_lexer_at, !current_lexer_at, length_after.
  destruct (Nat.leb_spec (String.length s) (k + 1)) as [H|H].
  - destruct (Nat.leb_spec (String.length p + String.length s)
                (String.length p + k + 1)); [done|lia].
  - destruct (Nat.leb_spec (String.length p + String.length s)
                (String.length p + k + 1)); [lia|].
    rewrite <- Nat.add_assoc. apply char_at_after.
Qed.

Lemma remaining_after (k : nat) :
  remaining (lexer_after p s k) = remaining (lexer_at s k).
Proof. unfold lexer_after. rewrite !remaining_lexer_at, length_after. lia. Qed.

Lemma advance_after (k : nat) :
  (k < String.length s)%nat ->
  advance (lexer_after p s k) = (char_at s k, lexer_after p s (S k)).
Proof.
  intros Hk. unfold lexer_after. rewrite advance_lexer_at by (rewrite length_after; lia).
  rewrite char_at_after. do 2 f_equal. lia.
Qed.

Lemma char_at_current_after (k : nat) :
  char_at (source_ (lexer_after p s k)) (current_ (lexer_after p s k)) = char_at s k.
Proof. apply char_at_after. Qed.

Lemma current_after (k : nat) :
  current_ (lexer_after p s k) = (String.length p + k)%nat.
Proof. reflexivity. Qed.

Lemma not_at_end (k : nat) :
  is_at_end (lexer_at s k) = false -> (k < String.length s)%nat.
Proof. rewrite is_at_end_lexer_at. intros H. apply Nat.leb_gt in H. lia. Qed.

Lemma together_refl (k : nat) :
  (k <= String.length s)%nat -> together p s k (lexer_at s k) (lexer_after p s k).
Proof. intros Hk. exists k. split; [lia|done]. Qed.

Lemma together_mono (k k' : nat) (r r' : Lexer) :
  (k <= k')%nat -> together p s k' r r' -> together p s k r r'.
Proof. intros Hk (j & Hj & ? & ?). exists j. split; [lia|done]. Qed.

Lemma advance_while_after (f : ascii -> bool) (fuel k : nat) :
  (k <= String.length s)%nat ->
  together p s k (advance_while f fuel (lexer_at s k))
    (advance_while f fuel (lexer_after p s k)).
Proof.
  revert k. induction fuel as [|fuel IH]; intros k Hk; [by apply together_refl|].
  cbn [advance_while]. rewrite is_at_end_after, peek_after.
  destruct (negb (is_at_end (lexer_at s k)) && f (peek (lexer_at s k))) eqn:Hc;
    [|by apply together_refl].
  apply andb_true_iff in Hc as [Hend _]. apply negb_true_iff, not_at_end in Hend.
  rewrite advance_after, (advance_lexer_at s k) by done. cbn [snd].
  apply (together_mono k (S k)); [lia|]. apply IH. lia.
Qed.

Lemma advance_while_after_first (f : ascii -> bool) (k : nat) :
  (k < String.length s)%nat -> f (char_at s k) = true ->
  together p s (S k) (advance_while f (remaining (lexer_at s k)) (lexer_at s k))
    (advance_while f (remaining (lexer_at s k)) (lexer_after p s k)).
Proof.
  intros Hk Hc. rewrite remaining_lexer_at.
  replace (String.length s - k)%nat with (S (String.length s - S k)) by lia.
  cbn [advance_while]. rewrite is_at_end_after, peek_after.
  rewrite (is_at_end_false s k Hk), (peek_lexer_at s k Hk), Hc. cbn [negb andb].
  rewrite advance_after, (advance_lexer_at s k) by done. cbn [snd].
  apply advance_while_after. lia.
Qed.

Lemma skip_block_after (fuel k : nat) :
  (k <= String.length s)%nat ->
  together p s k (skip_block fuel (lexer_at s k)) (skip_block fuel (lexer_after p s k)).
Proof.
  revert k. induction fuel as [|fuel IH]; intros k Hk; [by apply together_refl|].
  cbn [skip_block]. rewrite is_at_end_after, peek_after, peek_next_after.
  destruct (is_at_end (lexer_at s k)) eqn:Hend; [by apply together_refl|].
  apply not_at_end in Hend.
  rewrite advance_after, (advance_lexer_at s k) by done. cbn [snd].
  destruct (Ascii.eqb (peek (lexer_at s k)) "*"
            && Ascii.eqb (peek_next (lexer_at s k)) "/") eqn:Hclose.
  - apply andb_true_iff in Hclose as [_ Hnext]. apply Ascii.eqb_eq in Hnext.
    apply peek_next_char in Hnext as [Hlt _]; [|discriminate].
    rewrite advance_after, (advance_lexer_at s (S k)) by done. cbn [snd].
    exists (S (S k)). split; [lia|done].
  - apply (together_mono k (S k)); [lia|]. apply IH. lia.
Qed.

Lemma skip_loop_after (fuel k : nat) :
  (k <= String.length s)%nat ->
  together p s k (skip_loop fuel (lexer_at s k)) (skip_loop fuel (lexer_after p s k)).
Proof.
  revert k. induction fuel as [|fuel IH]; intros k Hk; [by apply together_refl|].
  cbn [skip_loop]. rewrite is_at_end_after, peek_after, peek_next_after, remaining_after.
  destruct (is_at_end (lexer_at s k)) eqn:Hend; [by apply together_refl|].
  apply not_at_end in Hend.
  rewrite advance_after, (advance_lexer_at s k) by done. cbn [snd].
  destruct (is_space (peek (lexer_at s k))).
  { apply (together_mono k (S k)); [lia|]. apply IH. lia. }
  destruct (Ascii.eqb (peek (lexer_at s k)) "-"
            && Ascii.eqb (peek_next (lexer_at s k)) "-").
  { destruct (advance_while_after (fun c => negb (Ascii.eqb c newline))
                (remaining (lexer_at s k)) k) as (j & Hj & -> & ->); [lia|].
    apply (together_mono k j); [lia|]. apply IH. lia. }
  destruct (Ascii.eqb (peek (lexer_at s k)) "/"
            && Ascii.eqb (peek_next (lexer_at s k)) "*") eqn:Hblock;
    [|by apply together_refl].
  apply andb_true_iff in Hblock as [_ Hnext]. apply Ascii.eqb_eq in Hnext.
  apply peek_next_char in Hnext as [Hlt _]; [|discriminate].
  rewrite advance_after, (advance_lexer_at s (S k)) by done. cbn [snd].
  rewrite remaining_after.
  destruct (skip_block_after (remaining (lexer_at s (S (S k)))) (S (S k)))
    as (j & Hj & -> & ->); [lia|].
  apply (together_mono k j); [lia|]. apply IH. lia.
Qed.

Lemma skip_whitespace_and_comments_after (k : nat) :
  (k <= String.length s)%nat ->
  together p s k (skip_whitespace_and_comments (lexer_at s k))
    (skip_whitespace_and_comments (lexer_after p s k)).
Proof.
  intros Hk. unfold skip_whitespace_and_comments. rewrite remaining_after.
  by apply skip_loop_after.
Qed.

Lemma match_char_after (expected : ascii) (k : nat) :
  (k <= String.length s)%nat ->
  (match_char expected (lexer_at s k)).1 = (match_char expected (lexer_after p s k)).1
  /\ together p s k (match_char expected (lexer_at s k)).2
       (match_char expected (lexer_after p s k)).2.
Proof.
  intros Hk. unfold match_char. rewrite is_at_end_after.
  destruct (is_at_end (lexer_at s k)) eqn:Hend; [split; [done|by apply together_refl]|].
  apply not_at_end in Hend. rewrite char_at_current_after.
  change (char_at (source_ (lexer_at s k)) (current_ (lexer_at s k))) with (char_at s k).
  destruct (Ascii.eqb expected (char_at s k)); cbn [negb fst snd].
  - rewrite advance_after, (advance_lexer_at s k) by done. cbn [snd].
    split; [done|]. exists (S k). split; [lia|done].
  - split; [done|by apply together_refl].
Qed.

Lemma scan_string_loop_after (quote : ascii) (fuel k : nat) (v : string) :
  (k <= String.length s)%nat ->
  (scan_string_loop quote fuel (lexer_at s k) v).2
  = (scan_string_loop quote fuel (lexer_after p s k) v).2
  /\ together p s k (scan_string_loop quote fuel (lexer_at s k) v).1
       (scan_string_loop quote fuel (lexer_after p s k) v).1.
Proof.
  revert k v. induction fuel as [|fuel IH]; intros k v Hk;
    [split; [done|by apply together_refl]|].
  cbn [scan_string_loop]. rewrite is_at_end_after, peek_after.
  destruct (negb (is_at_end (lexer_at s k)) && negb (Ascii.eqb (peek (lexer_at s k)) quote))
    eqn:Hc; [|split; [done|by apply together_refl]].
  apply andb_true_iff in Hc as [Hend _]. apply negb_true_iff, not_at_end in Hend.
  rewrite advance_after, (advance_lexer_at s k) by done. cbn [snd].
  destruct (Ascii.eqb (peek (lexer_at s k)) backslash).
  - rewrite is_at_end_after.
    destruct (is_at_end (lexer_at s (S k))) eqn:Hend'; cbn [negb].
    + destruct (IH (S k) v) as [Hv Ht]; [lia|]. split; [done|].
      apply (together_mono k (S k)); [lia|done].
    + apply not_at_end in Hend'.
      rewrite advance_after, (advance_lexer_at s (S k)) by done.
      destruct (IH (S (S k)) (push_back v (escaped_char (char_at s (S k)))))
        as [Hv Ht]; [lia|]. split; [done|].
      apply (together_mono k (S (S k))); [lia|done].
  - destruct (IH (S k) (push_back v (char_at s k))) as [Hv Ht]; [lia|].
    split; [done|]. apply (together_mono k (S k)); [lia|done].
Qed.

Lemma scanned_together_token (k j : nat) (t : TokenType) (txt : string) (l c l' c' : Z) :
  (k <= j <= String.length s)%nat ->
  scanned_together p s k (make_token t txt l c, lexer_at s j)
    (make_token t txt l' c', lexer_after p s j).
Proof. intros Hj. split; [done|]. exists j. split; [lia|done]. Qed.

Lemma scan_string_after (quote : ascii) (l c l' c' : Z) (k : nat) :
  (k <= String.length s)%nat ->
  scanned_together p s k (scan_string quote l c (lexer_at s k))
    (scan_string quote l' c' (lexer_after p s k)).
Proof.
  intros Hk. unfold scan_string. rewrite remaining_after.
  destruct (scan_string_loop_after quote (remaining (lexer_at s k)) k "" Hk)
    as [Hv (j & Hj & H1 & H2)].
  destruct (scan_string_loop quote _ (lexer_at s k) "") as [lx v].
  destruct (scan_string_loop quote _ (lexer_after p s k) "") as [lx' v'].
  cbn [fst snd] in *. subst lx lx' v'. rewrite is_at_end_after.
  destruct (is_at_end (lexer_at s j)) eqn:Hend.
  - by apply scanned_together_token.
  - apply not_at_end in Hend.
    rewrite advance_after, (advance_lexer_at s j) by done. cbn [snd].
    split; [done|]. exists (S j). split; [lia|done].
Qed.

Lemma scan_backtick_loop_after (fuel k : nat) (v : string) :
  (k <= String.length s)%nat ->
  match scan_backtick_loop fuel (lexer_at s k) v,
        scan_backtick_loop fuel (lexer_after p s k) v with
  | inl lx, inl lx' => together p s k lx lx'
  | inr (lx, w), inr (lx', w') => w = w' /\ together p s k lx lx'
  | _, _ => False
  end.
Proof.
  revert k v. induction fuel as [|fuel IH]; intros k v Hk;
    [split; [done|by apply together_refl]|].
  cbn [scan_backtick_loop]. rewrite is_at_end_after, peek_after.
  destruct (negb (is_at_end (lexer_at s k)) && negb (Ascii.eqb (peek (lexer_at s k)) "`"))
    eqn:Hc; [|split; [done|by apply together_refl]].
  apply andb_true_iff in Hc as [Hend _]. apply negb_true_iff, not_at_end in Hend.
  destruct (Ascii.eqb (peek (lexer_at s k)) newline); [by apply together_refl|].
  rewrite advance_after, (advance_lexer_at s k) by done.
  specialize (IH (S k) (push_back v (char_at s k)) ltac:(lia)).
  destruct (scan_backtick_loop fuel (lexer_at s (S k)) _) as [lx|[lx w]],
    (scan_backtick_loop fuel (lexer_after p s (S k)) _) as [lx'|[lx' w']]; try done.
  - apply (together_mono k (S k)); [lia|done].
  - destruct IH as [Hw Ht]. split; [done|]. apply (together_mono k (S k)); [lia|done].
Qed.

Lemma scan_backtick_identifier_after (l c l' c' : Z) (k : nat) :
  (k <= String.length s)%nat ->
  scanned_together p s k (scan_backtick_identifier l c (lexer_at s k))
    (scan_backtick_identifier l' c' (lexer_after p s k)).
Proof.
  intros Hk. unfold scan_backtick_identifier. rewrite remaining_after.
  pose proof (scan_backtick_loop_after (remaining (lexer_at s k)) k "" Hk) as H.
  destruct (scan_backtick_loop _ (lexer_at s k) "") as [lx|[lx w]],
    (scan_backtick_loop _ (lexer_after p s k) "") as [lx'|[lx' w']]; try done.
  destruct H as [<- (j & Hj & -> & ->)]. rewrite is_at_end_after.
  destruct (is_at_end (lexer_at s j)) eqn:Hend.
  - by apply scanned_together_token.
  - apply not_at_end in Hend.
    rewrite advance_after, (advance_lexer_at s j) by done. cbn [snd].
    destruct (String.eqb w ""); apply scanned_together_token; lia.
Qed.

Lemma rewind_after (k : nat) :
  (k < String.length s)%nat -> char_at s k <> newline ->
  rewind (String.length p + k) (snd (position (p +:+ s) (String.length p + k)))
    (lexer_after p s (S k))
  = lexer_after p s k.
Proof.
  intros Hk Hc. unfold lexer_after.
  replace (String.length p + S k)%nat with (S (String.length p + k)) by lia.
  apply rewind_lexer_at; [rewrite length_after; lia|by rewrite char_at_after].
Qed.

Lemma text_from_after (k j : nat) :
  (k <= j)%nat ->
  text_from (String.length p + k) (lexer_after p s j) = text_from k (lexer_at s j).
Proof.
  intros Hkj. unfold text_from, lexer_after.
  rewrite !source_lexer_at, !current_lexer_at, substring_append_r. f_equal. lia.
Qed.

Lemma scan_identifier_after (k : nat) :
  (k < String.length s)%nat ->
  isalpha (char_at s k) || Ascii.eqb (char_at s k) "_" = true ->
  scanned_together p s (S k)
    (scan_identifier k (fst (position s k)) (snd (position s k)) (lexer_at s (S k)))
    (scan_identifier (String.length p + k)
       (fst (position (p +:+ s) (String.length p + k)))
       (snd (position (p +:+ s) (String.length p + k))) (lexer_after p s (S k))).
Proof.
  intros Hk Hc. unfold scan_identifier.
  rewrite rewind_after, rewind_lexer_at
    by (done || by apply word_char_not_newline).
  rewrite remaining_after.
  destruct (advance_while_after_first (fun c => isalnum c || Ascii.eqb c "_") k)
    as (j & Hj & -> & ->); [done| |].
  { apply orb_true_iff in Hc as [Hc|Hc]; [by rewrite (isalpha_isalnum _ Hc)|].
    by rewrite Hc, orb_true_r. }
  rewrite text_from_after by lia.
  destruct (keywords_ !! _); apply scanned_together_token; lia.
Qed.

End After.

Section AfterPlatform.

Variable stod : string -> option double.
Variable char_is_signed : bool.
Variables p s : string.

Lemma scan_number_after (k : nat) :
  (k < String.length s)%nat -> isdigit (char_at s k) = true ->
  match scan_number stod k (fst (position s k)) (snd (position s k)) (lexer_at s (S k)),
        scan_number stod (String.length p + k)
          (fst (position (p +:+ s) (String.length p + k)))
          (snd (position (p +:+ s) (String.length p + k))) (lexer_after p s (S k)) with
  | Some r, Some r' => scanned_together p s (S k) r r'
  | None, None => True
  | _, _ => False
  end.
Proof.
  intros Hk Hc. unfold scan_number.
  rewrite rewind_after, rewind_lexer_at
    by (done || by apply isdigit_not_newline).
  rewrite peek_after, peek_next_after.
  destruct (Ascii.eqb (peek (lexer_at s k)) "0"
            && (Ascii.eqb (peek_next (lexer_at s k)) "x"
                || Ascii.eqb (peek_next (lexer_at s k)) "X")) eqn:Hhex.
  - assert (S k < String.length s)%nat as Hk'.
    { apply andb_true_iff in Hhex as [_ Hx]. apply orb_true_iff in Hx as [Hx|Hx];
        apply Ascii.eqb_eq in Hx; by apply peek_next_char in Hx as [? _]. }
    rewrite advance_after, (advance_lexer_at s k) by done. cbn [snd].
    rewrite advance_after, (advance_lexer_at s (S k)) by done. cbn [snd].
    rewrite remaining_after.
    destruct (advance_while_after p s isxdigit (remaining (lexer_at s (S (S k))))
                (S (S k))) as (j & Hj & -> & ->); [lia|].
    rewrite !current_after, !current_lexer_at, eqb_add_l, !text_from_after by lia.
    destruct (j =? S (S k))%nat; [apply scanned_together_token; lia|].
    destruct (stoll _ 16); [|done]. split; [done|]. exists j. split; [lia|done].
  - rewrite remaining_after.
    destruct (advance_while_after_first p s isdigit k) as (j & Hj & -> & ->);
      [done|done|].
    rewrite is_at_end_after, peek_after, peek_next_after.
    destruct (negb (is_at_end (lexer_at s j)) && Ascii.eqb (peek (lexer_at s j)) "."
              && isdigit (peek_next (lexer_at s j))) eqn:Hfloat.
    + assert (j < String.length s)%nat as Hj'.
      { apply andb_true_iff in Hfloat as [Hf _]. apply andb_true_iff in Hf as [Hf _].
        by apply negb_true_iff, not_at_end in Hf. }
      rewrite advance_after, (advance_lexer_at s j) by done. cbn [snd].
      rewrite remaining_after.
      destruct (advance_while_after p s isdigit (remaining (lexer_at s (S j))) (S j))
        as (m & Hm & -> & ->); [lia|].
      rewrite text_from_after by lia.
      destruct (stod _); [|done]. split; [done|]. exists m. split; [lia|done].
    + rewrite text_from_after by lia.
      destruct (stoll _ 10); [|done]. split; [done|]. exists j. split; [lia|done].
Qed.

Lemma scan_token_after (k : nat) :
  (k < String.length s)%nat ->
  match scan_token stod char_is_signed (lexer_at s k),
        scan_token stod char_is_signed (lexer_after p s k) with
  | Some r, Some r' => scanned_together p s (S k) r r'
  | None, None => True
  | _, _ => False
  end.
Proof.
  intros Hk. unfold scan_token.
  rewrite advance_after, (advance_lexer_at s k) by done.
  unfold lexer_after at 1 2 3. cbn [line_ column_ current_ lexer_at].
  fold (lexer_at s (S k)).
  repeat match goal with
  | |- context [if Ascii.eqb (char_at s k) ?d then Some (make_token _ _ _ _, _) else _] =>
      destruct (Ascii.eqb (char_at s k) d);
      [by apply scanned_together_token; lia|]
  end.
  destruct (Ascii.eqb (char_at s k) "!").
  { destruct (match_char_after p s "=" (S k)) as [Hb (j & Hj & H1 & H2)]; [lia|].
    destruct (match_char "=" (lexer_at s (S k))) as [b lx],
      (match_char "=" (lexer_after p s (S k))) as [b' lx'].
    cbn [fst snd] in *. subst b' lx lx'.
    destruct b; by apply scanned_together_token. }
  destruct (Ascii.eqb (char_at s k) "<").
  { destruct (match_char_after p s "=" (S k)) as [Hb (j & Hj & H1 & H2)]; [lia|].
    destruct (match_char "=" (lexer_at s (S k))) as [b lx],
      (match_char "=" (lexer_after p s (S k))) as [b' lx'].
    cbn [fst snd] in *. subst b' lx lx'.
    destruct b; [by apply scanned_together_token|].
    destruct (match_char_after p s ">" j) as [Hb (m & Hm & H1 & H2)]; [lia|].
    destruct (match_char ">" (lexer_at s j)) as [b lx],
      (match_char ">" (lexer_after p s j)) as [b' lx'].
    cbn [fst snd] in *. subst b' lx lx'.
    destruct b; apply scanned_together_token; lia. }
  destruct (Ascii.eqb (char_at s k) ">").
  { destruct (match_char_after p s "=" (S k)) as [Hb (j & Hj & H1 & H2)]; [lia|].
    destruct (match_char "=" (lexer_at s (S k))) as [b lx],
      (match_char "=" (lexer_after p s (S k))) as [b' lx'].
    cbn [fst snd] in *. subst b' lx lx'.
    destruct b; by apply scanned_together_token. }
  destruct (Ascii.eqb (char_at s k) "`").
  { apply scan_backtick_identifier_after. lia. }
  destruct (Ascii.eqb (char_at s k) "'" || Ascii.eqb (char_at s k) double_quote).
  { apply scan_string_after. lia. }
  destruct (isdigit (char_at s k)) eqn:Hdigit.
  { by apply scan_number_after. }
  destruct (isalpha (char_at s k) || Ascii.eqb (char_at s k) "_") eqn:Hword.
  { by apply scan_identifier_after. }
  split; [|exists (S k); split; [lia|done]].
  unfold make_error_token, make_token, unplaced. reflexivity.
Qed.

End AfterPlatform.

Section LoopAfter.

Variable stod : string -> option double.
Variable char_is_signed : bool.

(** More fuel than characters left changes nothing. *)
Lemma tokenize_loop_fuel (s : string) (fuel fuel' i : nat) (tokens : list Token) :
  (i <= String.length s)%nat ->
  (String.length s - i <= fuel)%nat -> (String.length s - i <= fuel')%nat ->
  tokenize_loop stod char_is_signed fuel (lexer_at s i) tokens
  = tokenize_loop stod char_is_signed fuel' (lexer_at s i) tokens.
Proof.
  revert fuel' i tokens. induction fuel as [|fuel IH]; intros fuel' i tokens Hi Hf Hf'.
  - destruct fuel' as [|fuel']; [reflexivity|]. cbn [tokenize_loop].
    by rewrite is_at_end_true by lia.
  - destruct fuel' as [|fuel']; cbn [tokenize_loop].
    { by rewrite is_at_end_true by lia. }
    destruct (is_at_end (lexer_at s i)); [reflexivity|].
    destruct (skip_whitespace_and_comments_spec s i) as (j & -> & Hij & _); [lia|].
    destruct (decide (j < String.length s)%nat) as [Hlt|Hge].
    2:{ by rewrite is_at_end_true by lia. }
    rewrite (is_at_end_false s j Hlt).
    destruct (scan_token stod char_is_signed (lexer_at s j)) as [[tok lx1]|] eqn:Hscan;
      [|reflexivity].
    apply scan_token_spec in Hscan as (m & Hm & Hjm & _); [|done].
    cbn [snd] in Hm. subst lx1. apply IH; lia.
Qed.

Variables p s : string.

Lemma tokenize_loop_after (fuel k : nat) (tokens tokens' : list Token) :
  (k <= String.length s)%nat ->
  map unplaced tokens = map unplaced tokens' ->
  match tokenize_loop stod char_is_signed fuel (lexer_at s k) tokens,
        tokenize_loop stod char_is_signed fuel (lexer_after p s k) tokens' with
  | Some r, Some r' => map unplaced r.1 = map unplaced r'.1
  | None, None => True
  | _, _ => False
  end.
Proof.
  revert k tokens tokens'. induction fuel as [|fuel IH]; intros k tokens tokens' Hk Htok;
    [done|].
  cbn [tokenize_loop]. rewrite is_at_end_after.
  destruct (is_at_end (lexer_at s k)); [done|].
  destruct (skip_whitespace_and_comments_after p s k Hk) as (j & Hj & -> & ->).
  rewrite is_at_end_after.
  destruct (is_at_end (lexer_at s j)) eqn:Hend; [done|]. apply not_at_end in Hend.
  pose proof (scan_token_after stod char_is_signed p s j Hend) as Hscan.
  destruct (scan_token stod char_is_signed (lexer_at s j)) as [[tok lx]|],
    (scan_token stod char_is_signed (lexer_after p s j)) as [[tok' lx']|]; try done.
  destruct Hscan as [Hu (m & Hm & H1 & H2)]. cbn [fst snd] in *. subst lx lx'.
  apply IH; [lia|]. rewrite !map_app. cbn [map]. by rewrite Htok, Hu.
Qed.

End LoopAfter.

Lemma skip_loop_spaces (big : string) (d : nat) :
  (d <= String.length big)%nat ->
  (forall n, (n < d)%nat -> is_space (char_at big n) = true) ->
  forall n fuel, (n <= d)%nat ->
  skip_loop (n + fuel) (lexer_at big (d - n)) = skip_loop fuel (lexer_at big d).
Proof.
  intros Hd Hsp. induction n as [|n IH]; intros fuel Hn.
  - by rewrite Nat.sub_0_r.
  - cbn [Nat.add skip_loop].
    rewrite (is_at_end_false big (d - S n)), (peek_lexer_at big (d - S n)) by lia.
    rewrite Hsp by lia. rewrite (advance_lexer_at big (d - S n)) by lia. cbn [snd].
    replace (S (d - S n)) with (d - n)%nat by lia. apply IH. lia.
Qed.

(** X22: white space in front of a text changes the places of its tokens
    and nothing else: the types, the texts and the values are those of
    the text alone, and tokenize throws for the one when it throws for
    the other. *)
Theorem tokenize_leading_space (stod : string -> option double) (char_is_signed : bool)
    (p s : string) :
  string_forall is_space p = true ->
  option_map (map unplaced) (tokens_of stod char_is_signed (p +:+ s))
  = option_map (map unplaced) (tokens_of stod char_is_signed s).
Proof.
  intros Hp. destruct p as [|c p'] eqn:Ep; [reflexivity|]. rewrite <- Ep in *.
  assert (0 < String.length p)%nat as Hd by (rewrite Ep; cbn; lia).
  assert (forall n, (n < String.length p)%nat -> is_space (char_at (p +:+ s) n) = true)
    as Hsp.
  { intros n Hn. rewrite char_at_append_l by done.
    by apply (string_forall_char_at is_space). }
  unfold tokens_of, tokenize. rewrite !make_lexer_at, !remaining_lexer_at, !Nat.sub_0_r.
  rewrite length_append.
  destruct (String.length p) as [|d] eqn:Ed; [lia|]. rewrite <- Ed in *.
  replace (String.length p + String.length s)%nat
    with (S (d + String.length s)) by lia.
  cbn [tokenize_loop]. rewrite (is_at_end_false (p +:+ s) 0) by (rewrite length_append; lia).
  assert (skip_whitespace_and_comments (lexer_at (p +:+ s) 0)
          = skip_loop (String.length s) (lexer_after p s 0)) as ->.
  { unfold skip_whitespace_and_comments, lexer_after.
    rewrite remaining_lexer_at, length_append, Nat.sub_0_r, Nat.add_0_r.
    pose proof (skip_loop_spaces (p +:+ s) (String.length p)
                  ltac:(rewrite length_append; lia) Hsp (String.length p)
                  (String.length s) ltac:(lia)) as H.
    by rewrite Nat.sub_diag in H. }
  destruct (skip_loop_after p s (String.length s) 0 ltac:(lia)) as (j & Hj & Hs & ->).
  rewrite is_at_end_after.
  assert (skip_whitespace_and_comments (lexer_at s 0) = lexer_at s j) as Hskip.
  { unfold skip_whitespace_and_comments. by rewrite remaining_lexer_at, Nat.sub_0_r. }
  clear Hs. destruct (String.length s) as [|n] eqn:En.
  { assert (j = 0)%nat as -> by lia. rewrite is_at_end_true by lia. reflexivity. }
  cbn [tokenize_loop]. rewrite (is_at_end_false s 0), Hskip by lia.
  destruct (is_at_end (lexer_at s j)) eqn:Hend; [reflexivity|]. apply not_at_end in Hend.
  pose proof (scan_token_after stod char_is_signed p s j Hend) as Hscan.
  destruct (scan_token stod char_is_signed (lexer_at s j)) as [[tok lx]|],
    (scan_token stod char_is_signed (lexer_after p s j)) as [[tok' lx']|]; try done.
  destruct Hscan as [Hu (m & Hm & H1 & H2)]. cbn [fst snd] in *. subst lx lx'.
  unfold lexer_after.
  rewrite (tokenize_loop_fuel stod char_is_signed (p +:+ s) (d + S n) n);
    [|rewrite length_append; lia..].
  fold (lexer_after p s m).
  assert (map unplaced [tok] = map unplaced [tok']) as Hone by (cbn; by rewrite Hu).
  pose proof (tokenize_loop_after stod char_is_signed p s n m [tok] [tok'] ltac:(lia)
                Hone) as Hloop.
  cbn [app].
  destruct (tokenize_loop stod char_is_signed n (lexer_at s m) [tok]) as [[r lx]|],
    (tokenize_loop stod char_is_signed n (lexer_after p s m) [tok']) as [[r' lx']|];
    try done.
  cbn [fst] in Hloop. cbn [fmap option_fmap option_map fst].
  by rewrite !map_app, Hloop.
Qed.

Lemma tokenize_leading_space_witness :
  option_map (map unplaced) (tokens_of (fun _ => None) true "  SELECT 1")
  = option_map (map unplaced) (tokens_of (fun _ => None) true "SELECT 1").
Proof.
  apply (tokenize_leading_space (fun _ => None) true "  " "SELECT 1"). reflexivity.
Defined.

(** *** The texts of the tokens *)

Lemma substring_nonempty (s : string) (i j : nat) :
  (i < j <= String.length s)%nat -> substring i (j - i) s <> "".
Proof.
  intros Hij. replace (j - i)%nat with (S (j - S i)) by lia.
  by rewrite substring_S by lia.
Qed.

Lemma shown_text (t : TokenType) (txt : string) (v : Literal) (l c : Z) :
  t <> END_OF_FILE -> txt <> "" ->
  shown {| type := t; text := txt; value := v; line := l; column := c |}.
Proof.
  intros Ht Htxt. right. right. split; [done|]. unfold token_to_string.
  cbn [type text]. destruct (String.eqb_spec txt "") as [E|_]; [done|].
  destruct t; try done.
Qed.

Lemma shown_string (txt : string) (l c : Z) :
  shown (set_value (make_token STRING_LITERAL txt l c) (LText txt)).
Proof.
  destruct txt as [|a txt]; [right; left; done|]. by apply shown_text.
Qed.

Lemma scan_string_shown (quote : ascii) (l c : Z) (lx : Lexer) :
  shown (scan_string quote l c lx).1.
Proof.
  unfold scan_string. destruct (scan_string_loop _ _ _ _) as [lx' v].
  destruct (is_at_end lx'); cbn [fst]; [by apply shown_text | apply shown_string].
Qed.

Lemma scan_backtick_identifier_shown (l c : Z) (lx : Lexer) :
  shown (scan_backtick_identifier l c lx).1.
Proof.
  unfold scan_backtick_identifier.
  destruct (scan_backtick_loop _ _ _) as [lx'|[lx' v]]; [by apply shown_text|].
  destruct (is_at_end lx'); [by apply shown_text|].
  destruct (String.eqb_spec v "") as [E|Hv]; by apply shown_text.
Qed.

Lemma scan_identifier_shown (s : string) (i : nat) :
  (i < String.length s)%nat ->
  isalpha (char_at s i) || Ascii.eqb (char_at s i) "_" = true ->
  shown (scan_identifier i (fst (position s i)) (snd (position s i))
           (lexer_at s (S i))).1.
Proof.
  intros Hi Hc. unfold scan_identifier.
  rewrite rewind_lexer_at by (done || by apply word_char_not_newline).
  rewrite remaining_lexer_at.
  destruct (advance_while_spec (fun c => isalnum c || Ascii.eqb c "_") s
              (String.length s - i) i) as (j & -> & Hij & _ & Hstop); [lia|lia|].
  assert (S i <= j)%nat as Hj.
  { destruct (decide (j = i)) as [->|]; [|lia]. destruct Hstop as [E|Hstop]; [lia|].
    exfalso. apply orb_true_iff in Hc as [Hc|Hc].
    - by rewrite (isalpha_isalnum _ Hc) in Hstop.
    - rewrite Hc in Hstop. by rewrite orb_true_r in Hstop. }
  unfold text_from. rewrite source_lexer_at, current_lexer_at.
  destruct (keywords_ !! _) as [t|] eqn:Ht; cbn [fst]; apply shown_text;
    try (apply substring_nonempty; lia); [|done].
  intros ->. by apply keyword_not_end_of_file in Ht.
Qed.

Section Texts.

Variable stod : string -> option double.
Variable char_is_signed : bool.

Lemma scan_number_shown (s : string) (i : nat) (r : Token * Lexer) :
  (i < String.length s)%nat -> isdigit (char_at s i) = true ->
  scan_number stod i (fst (position s i)) (snd (position s i)) (lexer_at s (S i))
  = Some r ->
  shown r.1.
Proof.
  intros Hi Hc. unfold scan_number.
  rewrite rewind_lexer_at by (done || by apply isdigit_not_newline).
  rewrite (peek_lexer_at s i Hi).
  destruct (Ascii.eqb (char_at s i) "0"
            && (Ascii.eqb (peek_next (lexer_at s i)) "x"
                || Ascii.eqb (peek_next (lexer_at s i)) "X")) eqn:Hhex.
  - assert (S i < String.length s)%nat as Hi'.
    { apply andb_true_iff in Hhex as [_ Hx]. apply orb_true_iff in Hx as [Hx|Hx];
        apply Ascii.eqb_eq in Hx; by apply peek_next_char in Hx as [? _]. }
    rewrite (advance_lexer_at s i Hi). cbn [snd].
    rewrite (advance_lexer_at s (S i) Hi'). cbn [snd].
    rewrite remaining_lexer_at, current_lexer_at.
    destruct (advance_while_spec isxdigit s (String.length s - S (S i)) (S (S i)))
      as (j & -> & Hij & _ & _); [lia|lia|].
    rewrite current_lexer_at.
    destruct (j =? S (S i))%nat; [intros [= <-]; by apply shown_text|].
    destruct (stoll _ 16); [|discriminate]. intros [= <-].
    unfold text_from. rewrite source_lexer_at, current_lexer_at.
    apply shown_text; [done|]. apply substring_nonempty. lia.
  - rewrite remaining_lexer_at.
    destruct (advance_while_spec isdigit s (String.length s - i) i)
      as (j & -> & Hij & _ & Hstop); [lia|lia|].
    assert (S i <= j)%nat as Hj.
    { destruct (decide (j = i)) as [->|]; [|lia]. destruct Hstop as [E|Hstop]; [lia|].
      congruence. }
    destruct (negb (is_at_end (lexer_at s j)) && Ascii.eqb (peek (lexer_at s j)) "."
              && isdigit (peek_next (lexer_at s j))) eqn:Hfloat.
    + assert (j < String.length s)%nat as Hj'.
      { apply andb_true_iff in Hfloat as [Hf _]. apply andb_true_iff in Hf as [Hf _].
        rewrite is_at_end_lexer_at in Hf. apply negb_true_iff, Nat.leb_gt in Hf. lia. }
      rewrite (advance_lexer_at s j Hj'). cbn [snd]. rewrite remaining_lexer_at.
      destruct (advance_while_spec isdigit s (String.length s - S j) (S j))
        as (m & -> & Hjm & _ & _); [lia|lia|].
      unfold text_from. rewrite source_lexer_at, current_lexer_at.
      destruct (stod _); [|discriminate]. intros [= <-].
      apply shown_text; [done|]. apply substring_nonempty. lia.
    + unfold text_from. rewrite source_lexer_at, current_lexer_at.
      destruct (stoll _ 10); [|discriminate]. intros [= <-].
      apply shown_text; [done|]. apply substring_nonempty. lia.
Qed.

Lemma scan_token_shown (s : string) (i : nat) (r : Token * Lexer) :
  (i < String.length s)%nat ->
  scan_token stod char_is_signed (lexer_at s i) = Some r -> shown r.1.
Proof.
  intros Hi. unfold scan_token. rewrite (advance_lexer_at s i Hi).
  cbn [line_ column_ current_ lexer_at]. fold (lexer_at s (S i)).
  repeat match goal with
  | |- context [if Ascii.eqb (char_at s i) ?d then Some (make_token _ _ _ _, _) else _] =>
      destruct (Ascii.eqb (char_at s i) d); [intros [= <-]; by apply shown_text|]
  end.
  destruct (Ascii.eqb (char_at s i) "!").
  { destruct (match_char "=" (lexer_at s (S i))) as [[] ?]; intros [= <-];
      by apply shown_text. }
  destruct (Ascii.eqb (char_at s i) "<").
  { destruct (match_char "=" (lexer_at s (S i))) as [[] lx];
      [intros [= <-]; by apply shown_text|].
    destruct (match_char ">" lx) as [[] ?]; intros [= <-]; by apply shown_text. }
  destruct (Ascii.eqb (char_at s i) ">").
  { destruct (match_char "=" (lexer_at s (S i))) as [[] ?]; intros [= <-];
      by apply shown_text. }
  destruct (Ascii.eqb (char_at s i) "`").
  { intros [= <-]. apply scan_backtick_identifier_shown. }
  destruct (Ascii.eqb (char_at s i) "'" || Ascii.eqb (char_at s i) double_quote).
  { intros [= <-]. apply scan_string_shown. }
  destruct (isdigit (char_at s i)) eqn:Hdigit.
  { by apply scan_number_shown. }
  destruct (isalpha (char_at s i) || Ascii.eqb (char_at s i) "_") eqn:Hword.
  { intros [= <-]. by apply scan_identifier_shown. }
  intros [= <-]. by apply shown_text.
Qed.

(** What holds of every token that [scan_token] makes holds of every
    token of the loop. *)
Lemma tokenize_loop_Forall (P : Token -> Prop) (s : string) (fuel i : nat)
    (tokens res : list Token) (lx' : Lexer) :
  (forall j r, (j < String.length s)%nat ->
               scan_token stod char_is_signed (lexer_at s j) = Some r -> P r.1) ->
  (i <= String.length s)%nat -> Forall P tokens ->
  tokenize_loop stod char_is_signed fuel (lexer_at s i) tokens = Some (res, lx') ->
  Forall P res.
Proof.
  intros HP. revert i tokens. induction fuel as [|fuel IH]; intros i tokens Hi Htok.
  - by intros [= <- <-].
  - cbn [tokenize_loop]. destruct (is_at_end (lexer_at s i)); [by intros [= <- <-]|].
    destruct (skip_whitespace_and_comments_spec s i) as (j & -> & Hij & _); [lia|].
    destruct (decide (j < String.length s)%nat) as [Hlt|Hge].
    2:{ rewrite is_at_end_true by lia. by intros [= <- <-]. }
    rewrite (is_at_end_false s j Hlt).
    destruct (scan_token stod char_is_signed (lexer_at s j)) as [[tok lx1]|] eqn:Hscan;
      [|discriminate].
    pose proof (HP j _ Hlt Hscan) as Hone.
    apply scan_token_spec in Hscan as (m & Hm & Hjm & _); [|done].
    cbn [snd] in Hm. subst lx1. apply IH; [lia|].
    apply Forall_app. split; [done|]. by constructor.
Qed.

End Texts.

(** X23: whenever tokenize returns, Token::to_string shows every token with
    its text, which is not empty, as NAME('text'), and by its name alone
    only END_OF_FILE and the literal of the empty string. *)
Theorem tokenize_to_string (stod : string -> option double) (char_is_signed : bool)
    (source : string) (tokens : list Token) :
  tokens_of stod char_is_signed source = Some tokens -> Forall shown tokens.
Proof.
  unfold tokens_of, tokenize. rewrite make_lexer_at.
  destruct (tokenize_loop _ _ _ _ _) as [[body lx]|] eqn:Hloop; [|discriminate].
  cbn. intros [= <-]. apply Forall_app. split.
  - apply (tokenize_loop_Forall stod char_is_signed shown source
             (remaining (lexer_at source 0)) 0 [] body lx); [|lia|constructor|exact Hloop].
    intros j r Hj Hscan. by eapply scan_token_shown.
  - constructor; [|constructor]. by left.
Qed.

Lemma tokenize_to_string_witness :
  Forall shown
    [set_value (make_token STRING_LITERAL "" 1 1) (LText "");
     make_token END_OF_FILE "" 1 3].
Proof. apply (tokenize_to_string (fun _ => None) true "''"). reflexivity. Defined.
